(** * Execution-tree reconstruction and message consolidation

    A shallow embedding of [src/components/AssistantMessage.tsx]: the stream
    event model, the duplicate-suppressing append of [AssistantMessage], the
    tree builder [buildExecutionTree], the per-node consolidator
    [processedData] of [ExecutionNodeComponent], and its auto-expand /
    auto-collapse effect together with [toggleItemExpand]; then the view
    ([ExecutionNodeComponent], [ContentChunkComponent], [ToolCallComponent]
    and [AssistantMessage] as functions from state to rendered components),
    the stream reader of the content script, and the message listener of
    the side panel ([src/unnamed/part_000]).

    JavaScript values are modelled as the component uses them: optional
    string fields are [option string] ([None] is [undefined] or [null]),
    fields typed [any] are [JsValue], a [Map] is an insertion-ordered
    association list, the plain object [nodes] is a list of own properties
    read through [Object.prototype], and the [TypeError] a property access on
    [undefined] raises is the [None] of [option]. *)

From Stdlib Require Import String Ascii ZArith NArith Lia List Bool Sorted.
From stdpp Require Import base option list sorting gmap strings.

Local Open Scope string_scope.
Local Open Scope list_scope.

(** ** JavaScript values and truthiness *)

(** A value of a field typed [any] ([content], [args], [toolResult]).  An
    object or array is kept as its JSON text: the component never looks
    inside one, it only tests truthiness and passes the value on. *)
Inductive JsValue : Type :=
  | JUndefined
  | JNull
  | JBool (b : bool)
  | JNumber (n : Z)
  | JString (s : string)
  | JObject (json : string).

#[global] Instance JsValue_eq_dec : EqDecision JsValue.
Proof. solve_decision. Defined.

(** [ToBoolean]: [undefined], [null], [false], [0] and [''] are falsy. *)
Definition truthy (v : JsValue) : bool :=
  match v with
  | JUndefined | JNull => false
  | JBool b => b
  | JNumber n => negb (n =? 0)%Z
  | JString s => negb (s =? "")
  | JObject _ => true
  end.

(** Truthiness of a [string | undefined | null] field. *)
Definition truthy_str (o : option string) : bool :=
  match o with
  | Some s => negb (s =? "")
  | None => false
  end.

(** [x || null] on a [string | null | undefined]. *)
Definition or_null (o : option string) : option string :=
  if truthy_str o then o else None.

(** [x || ''] on a [string | undefined]: the string itself when it is truthy,
    the empty string otherwise. *)
Definition or_empty (o : option string) : string :=
  match o with
  | Some s => if negb (s =? "") then s else ""
  | None => ""
  end.

(** [a || b] on [string | undefined] operands. *)
Definition js_or (a b : option string) : option string :=
  if truthy_str a then a else b.

(** [a === b] on [string | undefined] operands. *)
Definition strict_eq (a b : option string) : bool :=
  match a, b with
  | Some x, Some y => (x =? y)
  | None, None => true
  | _, _ => false
  end.

(** ** Event model *)

Inductive EventType : Type :=
  | start
  | finish
  | chunk_text
  | chunk_sub_agent_text
  | tool_call_start
  | tool_result
  | chunk_table
  | chunk_code
  | chunk_chart.

#[global] Instance EventType_eq_dec : EqDecision EventType.
Proof. solve_decision. Defined.

Definition type_eqb (a b : EventType) : bool := bool_decide (a = b).

Record Payload : Type := mkPayload {
  pl_messageId : option string;
  pl_type : option string;
  pl_thinking : option string;
  pl_content : JsValue;
  pl_finalAnswer : option string;
  pl_suggestion : option string;
  pl_toolCallId : option string;
  pl_toolName : option string;
  pl_args : JsValue;
  pl_toolResult : JsValue
}.

Record StreamEvent : Type := mkEvent {
  ev_type : EventType;
  ev_runId : string;
  ev_parentId : option string;
  ev_toolCallId : option string;
  ev_agentId : option string;
  ev_timestamp : string;
  ev_payload : option Payload
}.

#[global] Instance Payload_eq_dec : EqDecision Payload.
Proof. solve_decision. Defined.

#[global] Instance StreamEvent_eq_dec : EqDecision StreamEvent.
Proof. solve_decision. Defined.

(** [e.payload?.messageId], [e.payload?.toolCallId], [e.payload?.content]. *)
Definition payload_messageId (e : StreamEvent) : option string :=
  p ← ev_payload e; pl_messageId p.

Definition payload_toolCallId (e : StreamEvent) : option string :=
  p ← ev_payload e; pl_toolCallId p.

Definition payload_content (e : StreamEvent) : JsValue :=
  match ev_payload e with
  | Some p => pl_content p
  | None => JUndefined
  end.

(** ** Containers *)

(** A JavaScript [Map] with string keys: entries in insertion order, keys
    unique.  [set] on a present key replaces the value where the key stands;
    on a new key it appends. *)
Section JsMap.
Context {V : Type}.

Fixpoint Map_get (m : list (string * V)) (k : string) : option V :=
  match m with
  | [] => None
  | (k', v) :: m' => if k' =? k then Some v else Map_get m' k
  end.

Definition Map_has (m : list (string * V)) (k : string) : bool :=
  match Map_get m k with
  | Some _ => true
  | None => false
  end.

Fixpoint Map_set (m : list (string * V)) (k : string) (v : V)
  : list (string * V) :=
  match m with
  | [] => [(k, v)]
  | (k', v') :: m' =>
      if k' =? k then (k', v) :: m' else (k', v') :: Map_set m' k v
  end.
End JsMap.

(** Property names every plain object inherits from [Object.prototype]
    (ECMA-262, with the Annex B accessors every browser engine has). *)
Definition object_prototype_keys : list string :=
  [ "constructor"; "hasOwnProperty"; "isPrototypeOf"; "propertyIsEnumerable";
    "toLocaleString"; "toString"; "valueOf"; "__proto__";
    "__defineGetter__"; "__defineSetter__";
    "__lookupGetter__"; "__lookupSetter__" ].

Definition inherited (k : string) : bool :=
  existsb (String.eqb k) object_prototype_keys.

(** What [o[k]] evaluates to on a plain object: an own property, a member of
    [Object.prototype] (a function or object: truthy, and not [undefined]),
    or [undefined]. *)
Inductive PropRead (V : Type) : Type :=
  | Own (v : V)
  | Inherited
  | Undefined.
Arguments Own {V} v.
Arguments Inherited {V}.
Arguments Undefined {V}.

Definition obj_read {V : Type} (o : list (string * V)) (k : string)
  : PropRead V :=
  match Map_get o k with
  | Some v => Own v
  | None => if inherited k then Inherited else Undefined
  end.

(** A canonical array index: the decimal text of an integer in
    [0 .. 2^32 - 2], without leading zeros. *)
Definition digit_of (c : ascii) : option N :=
  let n := N_of_ascii c in
  if ((48 <=? n) && (n <=? 57))%N then Some (n - 48)%N else None.

Fixpoint digits_value (s : string) (acc : N) : option N :=
  match s with
  | EmptyString => Some acc
  | String c s' =>
      match digit_of c with
      | Some d => digits_value s' (10 * acc + d)%N
      | None => None
      end
  end.

Definition array_index (s : string) : option N :=
  match s with
  | EmptyString => None
  | String c s' =>
      if (Ascii.eqb c "0"%char) && negb (s' =? "") then None
      else if (10 <? String.length s)%nat then None
      else match digits_value s 0%N with
           | Some n => if (n <=? 4294967294)%N then Some n else None
           | None => None
           end
  end.

Section ObjectValues.
Context {V : Type}.

Fixpoint insert_index (x : N * V) (l : list (N * V)) : list (N * V) :=
  match l with
  | [] => [x]
  | y :: l' => if (x.1 <=? y.1)%N then x :: l else y :: insert_index x l'
  end.

Fixpoint index_props (o : list (string * V)) : list (N * V) :=
  match o with
  | [] => []
  | (k, v) :: o' =>
      match array_index k with
      | Some n => insert_index (n, v) (index_props o')
      | None => index_props o'
      end
  end.

Fixpoint named_props (o : list (string * V)) : list V :=
  match o with
  | [] => []
  | (k, v) :: o' =>
      match array_index k with
      | Some _ => named_props o'
      | None => v :: named_props o'
      end
  end.

(** [Object.values(o)]: array-index keys first, in ascending numeric
    order, then the other keys in insertion order. *)
Definition Object_values (o : list (string * V)) : list V :=
  (index_props o).*2 ++ named_props o.
End ObjectValues.

(** [arr.forEach((x, idx) => ...)] as a fold that threads the state the
    callback mutates. *)
Fixpoint forEach_from {A St : Type} (f : St → nat → A → St)
    (idx : nat) (l : list A) (s : St) : St :=
  match l with
  | [] => s
  | x :: l' => forEach_from f (S idx) l' (f s idx x)
  end.

Definition forEach {A St : Type} (f : St → nat → A → St) (l : list A)
    (s : St) : St := forEach_from f 0 l s.

(** [arr.find(p)] *)
Definition find_event (p : StreamEvent → bool) (l : list StreamEvent)
  : option StreamEvent := List.find p l.

(** ** Duplicate-suppressing append ([AssistantMessage], first effect) *)

(** The predicate handed to [prev.some]: same [runId], [type], [timestamp]
    and [payload?.messageId]. *)
Definition same_key (event e : StreamEvent) : bool :=
  (ev_runId e =? ev_runId event)
  && type_eqb (ev_type e) (ev_type event)
  && (ev_timestamp e =? ev_timestamp event)
  && strict_eq (payload_messageId e) (payload_messageId event).

Definition isDuplicate (prev : list StreamEvent) (event : StreamEvent) : bool :=
  existsb (same_key event) prev.

(** The state update the effect performs for the [event] prop; [None] is the
    [null] prop, for which the effect returns at once. *)
Definition appendEvent (prev : list StreamEvent) (event : option StreamEvent)
  : list StreamEvent :=
  match event with
  | None => prev
  | Some event => if isDuplicate prev event then prev else prev ++ [event]
  end.

(** ** Execution tree builder ([buildExecutionTree]) *)

Record ToolCallNode : Type := mkToolCall {
  tc_toolCallId : string;
  tc_toolName : string;
  tc_startEvent : StreamEvent;
  tc_resultEvent : option StreamEvent;
  (** the node object referenced, named by its key in the tree *)
  tc_childAgent : option string
}.

Record ExecutionNode : Type := mkNode {
  node_runId : string;
  node_parentId : option string;
  node_toolCallId : option string;
  node_agentId : option string;
  node_events : list StreamEvent;
  node_toolCalls : list (string * ToolCallNode);
  node_startTime : option string;
  node_endTime : option string
}.

(** The object [nodes]: own properties in insertion order. *)
Definition ExecutionTree : Type := list (string * ExecutionNode).

Definition push_event (node : ExecutionNode) (event : StreamEvent)
  : ExecutionNode :=
  mkNode (node_runId node) (node_parentId node) (node_toolCallId node)
    (node_agentId node) (node_events node ++ [event]) (node_toolCalls node)
    (node_startTime node) (node_endTime node).

(** Step 1, one event.  [nodes[runId]] on a name of [Object.prototype] is
    truthy, so no node is created, and [nodes[runId].events.push] then reads
    [push] of [undefined]: a [TypeError], here [None]. *)
Definition group_event (nodes : ExecutionTree) (event : StreamEvent)
  : option ExecutionTree :=
  let runId := ev_runId event in
  if negb (truthy_str (Some runId)) then Some nodes
  else match obj_read nodes runId with
       | Own node => Some (Map_set nodes runId (push_event node event))
       | Inherited => None
       | Undefined =>
           Some (Map_set nodes runId
                   (mkNode runId (or_null (ev_parentId event))
                      (or_null (ev_toolCallId event))
                      (or_null (ev_agentId event))
                      [event] [] None None))
       end.

Fixpoint group_events (events : list StreamEvent) (nodes : ExecutionTree)
  : option ExecutionTree :=
  match events with
  | [] => Some nodes
  | event :: events' =>
      match group_event nodes event with
      | Some nodes' => group_events events' nodes'
      | None => None
      end
  end.

(** Step 2: [startTime] and [endTime] of one node. *)
Definition startTime_of (events : list StreamEvent) : option string :=
  js_or (ev_timestamp <$> find_event (λ e, type_eqb (ev_type e) start) events)
    (js_or (ev_timestamp <$> events !! 0) None).

Definition endTime_of (events : list StreamEvent) : option string :=
  js_or (ev_timestamp <$> find_event (λ e, type_eqb (ev_type e) finish) events)
    (js_or (ev_timestamp <$> events !! (length events - 1)) None).

Definition set_times (node : ExecutionNode) : ExecutionNode :=
  mkNode (node_runId node) (node_parentId node) (node_toolCallId node)
    (node_agentId node) (node_events node) (node_toolCalls node)
    (startTime_of (node_events node)) (endTime_of (node_events node)).

(** Step 3, one event of a node. *)
Definition set_result (tc : ToolCallNode) (event : StreamEvent)
  : ToolCallNode :=
  mkToolCall (tc_toolCallId tc) (tc_toolName tc) (tc_startEvent tc)
    (Some event) (tc_childAgent tc).

Definition extract_event (toolCalls : list (string * ToolCallNode))
    (event : StreamEvent) : list (string * ToolCallNode) :=
  if type_eqb (ev_type event) tool_call_start
     && truthy_str (payload_toolCallId event) then
    match ev_payload event, payload_toolCallId event with
    | Some p, Some toolCallId =>
        Map_set toolCalls toolCallId
          (mkToolCall toolCallId
             (match pl_toolName p with
              | Some n => if negb (n =? "") then n else "unknown"
              | None => "unknown"
              end)
             event None None)
    | _, _ => toolCalls
    end
  else if type_eqb (ev_type event) tool_result
          && truthy_str (payload_toolCallId event) then
    match payload_toolCallId event with
    | Some toolCallId =>
        match Map_get toolCalls toolCallId with
        | Some toolCall => Map_set toolCalls toolCallId (set_result toolCall event)
        | None => toolCalls
        end
    | None => toolCalls
    end
  else toolCalls.

Definition extract_tool_calls (events : list StreamEvent)
    (toolCalls : list (string * ToolCallNode)) : list (string * ToolCallNode) :=
  fold_left extract_event events toolCalls.

Definition set_tool_calls (node : ExecutionNode) : ExecutionNode :=
  mkNode (node_runId node) (node_parentId node) (node_toolCallId node)
    (node_agentId node) (node_events node)
    (extract_tool_calls (node_events node) (node_toolCalls node))
    (node_startTime node) (node_endTime node).

(** Steps 2 and 3 visit every node and touch that node only, so the order
    of [Object.values] does not show: each is a map over the properties. *)
Definition map_nodes (f : ExecutionNode → ExecutionNode) (nodes : ExecutionTree)
  : ExecutionTree :=
  List.map (λ kv, (kv.1, f kv.2)) nodes.

(** Step 4, one node.  [nodes[node.parentId]] on a name of
    [Object.prototype] is truthy and has no [toolCalls]: calling [get] on
    [undefined] is a [TypeError]. *)
Definition set_child (tc : ToolCallNode) (child : string) : ToolCallNode :=
  mkToolCall (tc_toolCallId tc) (tc_toolName tc) (tc_startEvent tc)
    (tc_resultEvent tc) (Some child).

Definition with_toolCalls (node : ExecutionNode)
    (toolCalls : list (string * ToolCallNode)) : ExecutionNode :=
  mkNode (node_runId node) (node_parentId node) (node_toolCallId node)
    (node_agentId node) (node_events node) toolCalls
    (node_startTime node) (node_endTime node).

Definition link_node (nodes : ExecutionTree) (node : ExecutionNode)
  : option ExecutionTree :=
  if truthy_str (node_parentId node) && truthy_str (node_toolCallId node) then
    match node_parentId node, node_toolCallId node with
    | Some parentId, Some toolCallId =>
        match obj_read nodes parentId with
        | Own parentNode =>
            match Map_get (node_toolCalls parentNode) toolCallId with
            | Some toolCall =>
                Some (Map_set nodes parentId
                        (with_toolCalls parentNode
                           (Map_set (node_toolCalls parentNode) toolCallId
                              (set_child toolCall (node_runId node)))))
            | None => Some nodes
            end
        | Inherited => None
        | Undefined => Some nodes
        end
    | _, _ => Some nodes
    end
  else Some nodes.

Fixpoint link_nodes (children : list ExecutionNode) (nodes : ExecutionTree)
  : option ExecutionTree :=
  match children with
  | [] => Some nodes
  | node :: children' =>
      match link_node nodes node with
      | Some nodes' => link_nodes children' nodes'
      | None => None
      end
  end.

(** The builder.  Step 4 walks [Object.values(nodes)] as it stands when the
    step begins; it writes [childAgent] only, so the [runId], [parentId] and
    [toolCallId] it reads from the walked nodes are those of the store. *)
Definition buildExecutionTree (events : list StreamEvent)
  : option ExecutionTree :=
  match group_events events [] with
  | Some nodes =>
      let nodes := map_nodes set_times nodes in
      let nodes := map_nodes set_tool_calls nodes in
      link_nodes (Object_values nodes) nodes
  | None => None
  end.

(** [Object.values(tree).filter(node => !node.parentId)] *)
Definition rootNodes (tree : ExecutionTree) : list ExecutionNode :=
  List.filter (λ node, negb (truthy_str (node_parentId node)))
    (Object_values tree).

(** ** Message consolidator ([processedData] of [ExecutionNodeComponent]) *)

Record MessageData : Type := mkMessage {
  msg_messageId : string;
  msg_event : StreamEvent;
  msg_thinking : string;
  msg_textContent : JsValue;
  msg_finalAnswer : string;
  msg_structuredContent : JsValue;
  msg_suggestion : string;
  msg_orderIndex : nat
}.

Inductive OrderedItem : Type :=
  | MessageItem (messageId : string) (data : MessageData) (orderIndex : nat)
  | ToolCallItem (toolCallId : string) (orderIndex : nat).

Definition orderIndex (item : OrderedItem) : nat :=
  match item with
  | MessageItem _ _ i => i
  | ToolCallItem _ i => i
  end.

Definition isTextChunk (t : EventType) : bool :=
  type_eqb t chunk_text || type_eqb t chunk_sub_agent_text.

Definition isStructuredChunk (t : EventType) : bool :=
  type_eqb t chunk_table || type_eqb t chunk_code || type_eqb t chunk_chart.

(** The entry a first chunk creates. *)
Definition new_message (msgId : string) (e : StreamEvent) (p : Payload)
    (idx : nat) : MessageData :=
  mkMessage msgId e
    (or_empty (pl_thinking p))
    (if isTextChunk (ev_type e)
     then (if truthy (pl_content p) then pl_content p else JString "")
     else JString "")
    (or_empty (pl_finalAnswer p))
    (if isStructuredChunk (ev_type e) then pl_content p else JUndefined)
    (or_empty (pl_suggestion p))
    idx.

(** The in-place update a later chunk makes: a field is overwritten only by
    a truthy incoming value. *)
Definition update_message (item : MessageData) (e : StreamEvent) (p : Payload)
  : MessageData :=
  let isText := isTextChunk (ev_type e) && truthy (pl_content p) in
  let isStructured := isStructuredChunk (ev_type e) && truthy (pl_content p) in
  mkMessage (msg_messageId item) (msg_event item)
    (match pl_thinking p with
     | Some t => if truthy_str (Some t) then t else msg_thinking item
     | None => msg_thinking item
     end)
    (if isText then pl_content p else msg_textContent item)
    (match pl_finalAnswer p with
     | Some a => if truthy_str (Some a) then a else msg_finalAnswer item
     | None => msg_finalAnswer item
     end)
    (if isText then msg_structuredContent item
     else if isStructured then pl_content p else msg_structuredContent item)
    (match pl_suggestion p with
     | Some s => if truthy_str (Some s) then s else msg_suggestion item
     | None => msg_suggestion item
     end)
    (msg_orderIndex item).

Definition message_step (messageMap : list (string * MessageData))
    (idx : nat) (e : StreamEvent) : list (string * MessageData) :=
  if (isTextChunk (ev_type e) || isStructuredChunk (ev_type e))
     && truthy_str (payload_messageId e) then
    match ev_payload e, payload_messageId e with
    | Some p, Some msgId =>
        if negb (Map_has messageMap msgId)
        then Map_set messageMap msgId (new_message msgId e p idx)
        else match Map_get messageMap msgId with
             | Some item => Map_set messageMap msgId (update_message item e p)
             | None => messageMap
             end
    | _, _ => messageMap
    end
  else messageMap.

Definition toolCall_step (toolCallMap : list (string * nat))
    (idx : nat) (e : StreamEvent) : list (string * nat) :=
  if type_eqb (ev_type e) tool_call_start
     && truthy_str (payload_toolCallId e) then
    match payload_toolCallId e with
    | Some toolCallId => Map_set toolCallMap toolCallId idx
    | None => toolCallMap
    end
  else toolCallMap.

(** The body of [node.events.forEach((e, idx) => ...)]. *)
Definition process_event
    (maps : list (string * MessageData) * list (string * nat))
    (idx : nat) (e : StreamEvent)
  : list (string * MessageData) * list (string * nat) :=
  (message_step maps.1 idx e, toolCall_step maps.2 idx e).

Definition scan_events (events : list StreamEvent)
  : list (string * MessageData) * list (string * nat) :=
  forEach process_event events ([], []).

(** [orderedItems.sort((a, b) => a.orderIndex - b.orderIndex)]: the sort is
    stable, so it is an insertion sort that keeps equal keys in order (an
    item moves only past items with a strictly smaller key). *)
Fixpoint insert_item (x : OrderedItem) (l : list OrderedItem)
  : list OrderedItem :=
  match l with
  | [] => [x]
  | y :: l' =>
      if (orderIndex y <? orderIndex x)%nat then y :: insert_item x l'
      else x :: l
  end.

Fixpoint sort_items (l : list OrderedItem) : list OrderedItem :=
  match l with
  | [] => []
  | x :: l' => insert_item x (sort_items l')
  end.

Definition message_items (messageMap : list (string * MessageData))
  : list OrderedItem :=
  List.map (λ kv, MessageItem kv.1 kv.2 (msg_orderIndex kv.2)) messageMap.

Definition toolCall_items (toolCallMap : list (string * nat))
  : list OrderedItem :=
  List.map (λ kv, ToolCallItem kv.1 kv.2) toolCallMap.

Definition orderedItems (events : list StreamEvent) : list OrderedItem :=
  let maps := scan_events events in
  sort_items (message_items maps.1 ++ toolCall_items maps.2).

(** The consolidated message of [msgId], as the consolidator holds it. *)
Definition consolidated (events : list StreamEvent) (msgId : string)
  : option MessageData :=
  Map_get (scan_events events).1 msgId.

(** ** Disclosure state ([expandedItems], [toggleItemExpand], the
       auto-expand / auto-collapse effect) *)

(** [expandedItems] is a plain object used as a dictionary: own properties
    as a finite map, reads falling through to [Object.prototype]. *)
Definition read_flag (expanded : gmap string bool) (id : string)
  : PropRead bool :=
  match expanded !! id with
  | Some b => Own b
  | None => if inherited id then Inherited else Undefined
  end.

(** [!prev[id]] *)
Definition not_flag (r : PropRead bool) : bool :=
  match r with
  | Own b => negb b
  | Inherited => false
  | Undefined => true
  end.

Definition toggleItemExpand (expanded : gmap string bool) (id : string)
  : gmap string bool :=
  <[id := not_flag (read_flag expanded id)]> expanded.

(** [expandedItems[msgId] !== false], the flag the view shows. *)
Definition isExpanded (expanded : gmap string bool) (msgId : string) : bool :=
  match read_flag expanded msgId with
  | Own b => b
  | Inherited | Undefined => true
  end.

Definition is_undefined {V : Type} (r : PropRead V) : bool :=
  match r with
  | Undefined => true
  | _ => false
  end.

(** The state the effect owns: [expandedItems] and [prevEventsRef.current]. *)
Record DisclosureState : Type := mkDisclosure {
  expandedItems : gmap string bool;
  prevEvents : list StreamEvent
}.

(** [prevEvents.find(e => e.payload?.messageId === msgId)]: the first event
    of the message in the previous event list. *)
Definition prevItem_of (msgId : string) (prevEvents : list StreamEvent)
  : option StreamEvent :=
  find_event (λ e, strict_eq (payload_messageId e) (Some msgId)) prevEvents.

(** [item.data.textContent || item.data.finalAnswer ||
    item.data.structuredContent], as a condition. *)
Definition hasContent (data : MessageData) : bool :=
  truthy (msg_textContent data)
  || truthy_str (Some (msg_finalAnswer data))
  || truthy (msg_structuredContent data).

(** [newExpandedState[id] = v]: an own property is written or created; for
    [__proto__] without an own property the assignment runs the setter that
    [Object.prototype] has for it, which ignores a boolean and creates
    nothing. *)
Definition assign_flag (expanded : gmap string bool) (id : string) (v : bool)
  : gmap string bool :=
  match expanded !! id with
  | Some _ => <[id := v]> expanded
  | None => if id =? "__proto__" then expanded else <[id := v]> expanded
  end.

(** The callback of [processedData.orderedItems.forEach] inside the updater;
    the state threaded is [newExpandedState] and [hasChanges]. *)
Definition policy_item (autoExpand autoCollapse : bool)
    (prevEvents : list StreamEvent) (st : gmap string bool * bool)
    (item : OrderedItem) : gmap string bool * bool :=
  match item with
  | MessageItem msgId data _ =>
      let prevItem := prevItem_of msgId prevEvents in
      let hasContent := hasContent data in
      let st1 :=
        if autoExpand
           && negb (bool_decide (is_Some prevItem))
           && truthy_str (Some (msg_thinking data))
           && negb hasContent
           && is_undefined (read_flag st.1 msgId)
        then (assign_flag st.1 msgId true, true)
        else st in
      match prevItem with
      | Some prev =>
          if autoCollapse && negb (truthy (payload_content prev)) && hasContent
          then (assign_flag st1.1 msgId false, true)
          else st1
      | None => st1
      end
  | ToolCallItem _ _ => st
  end.

(** One run of the effect for a node whose event list is [events]. *)
Definition autoEffect (autoExpand autoCollapse : bool)
    (events : list StreamEvent) (s : DisclosureState) : DisclosureState :=
  if negb autoExpand && negb autoCollapse then s
  else
    let result :=
      fold_left (policy_item autoExpand autoCollapse (prevEvents s))
        (orderedItems events) (expandedItems s, false) in
    mkDisclosure (if result.2 then result.1 else expandedItems s) events.

(** What happens to one rendered node: its event list changes and the effect
    runs, or the user clicks the disclosure toggle of an item. *)
Inductive Action : Type :=
  | Arrive (events : list StreamEvent)
  | Toggle (id : string).

Definition step (autoExpand autoCollapse : bool) (s : DisclosureState)
    (a : Action) : DisclosureState :=
  match a with
  | Arrive events => autoEffect autoExpand autoCollapse events s
  | Toggle id => mkDisclosure (toggleItemExpand (expandedItems s) id) (prevEvents s)
  end.

Definition run (autoExpand autoCollapse : bool) (actions : list Action)
  : DisclosureState :=
  fold_left (step autoExpand autoCollapse) actions (mkDisclosure ∅ []).

(** ** The event list over a whole delivery *)

(** The state [events] of [AssistantMessage] after the [event] prop has
    taken the values of [stream] in turn ([None] is [null]), from [prev]. *)
Definition deliver (prev : list StreamEvent)
    (stream : list (option StreamEvent)) : list StreamEvent :=
  fold_left appendEvent stream prev.

(** ** The view: the components a tree is rendered into *)

(** The disclosure state the components own: [expandedItems] of the
    [ExecutionNodeComponent] of a run, and [isExpanded] of the
    [ToolCallComponent] of a tool call of a run ([useState(true)]). *)
Record ViewState : Type := mkViewState {
  flags : string → gmap string bool;
  toolOpen : string → string → bool
}.

(** A [ContentChunkComponent] or a [ToolCallComponent], with the depth of
    the [ExecutionNodeComponent] that renders it and the props it gets. *)
Inductive Row : Type :=
  | MessageRow (depth : nat) (runId messageId : string) (data : MessageData)
      (expanded : bool)
  | ToolCallRow (depth : nat) (runId : string) (toolCall : ToolCallNode)
      (expanded : bool).

Definition row_runId (row : Row) : string :=
  match row with
  | MessageRow _ r _ _ _ => r
  | ToolCallRow _ r _ _ => r
  end.

Definition row_depth (row : Row) : nat :=
  match row with
  | MessageRow d _ _ _ _ => d
  | ToolCallRow d _ _ _ => d
  end.

(** [marginLeft] of the box a [ToolCallComponent] puts its sub-agent in. *)
Definition marginLeft (depth : nat) : nat := 20 + depth * 16.

(** The rows of the parts, in order; [None] once a part has none. *)
Definition concat_rows (parts : list (option (list Row)))
  : option (list Row) :=
  foldr (λ part rest, rows ← part; more ← rest; Some (rows ++ more))
    (Some []) parts.

(** One ordered item of a node, as [ExecutionNodeComponent] maps it: a
    message becomes a [ContentChunkComponent]; a tool-call item that has no
    entry in [node.toolCalls] renders nothing; otherwise a
    [ToolCallComponent], which, when open and with a [childAgent], renders
    that node one level deeper through [renderChild].  A [childAgent] is an
    object of the tree, so its key is always present. *)
Definition renderItem
    (renderChild : nat → ExecutionNode → option (list Row))
    (st : ViewState) (tree : ExecutionTree) (depth : nat)
    (node : ExecutionNode) (item : OrderedItem) : option (list Row) :=
  match item with
  | MessageItem msgId data _ =>
      Some [MessageRow depth (node_runId node) msgId data
              (isExpanded (flags st (node_runId node)) msgId)]
  | ToolCallItem toolCallId _ =>
      match Map_get (node_toolCalls node) toolCallId with
      | None => Some []
      | Some toolCall =>
          let open := toolOpen st (node_runId node) toolCallId in
          children ←
            match tc_childAgent toolCall with
            | Some c =>
                if open then
                  match Map_get tree c with
                  | Some child => renderChild (S depth) child
                  | None => Some []
                  end
                else Some []
            | None => Some []
            end;
          Some (ToolCallRow depth (node_runId node) toolCall open :: children)
      end
  end.

(** [ExecutionNodeComponent]: the ordered items in turn.  The recursion is
    React's; [fuel] bounds its depth and [None] says the bound was
    reached. *)
Fixpoint renderNode (fuel : nat) (st : ViewState) (tree : ExecutionTree)
    (depth : nat) (node : ExecutionNode) : option (list Row) :=
  match fuel with
  | 0 => None
  | S fuel' =>
      concat_rows
        (List.map (renderItem (renderNode fuel' st tree) st tree depth node)
           (orderedItems (node_events node)))
  end.

(** [rootNodes.map(node => <ExecutionNodeComponent node depth={0} />)] *)
Definition renderRoots (fuel : nat) (st : ViewState) (tree : ExecutionTree)
  : option (list Row) :=
  concat_rows (List.map (renderNode fuel st tree 0) (rootNodes tree)).

(** ** The view of a message ([ContentChunkComponent]) *)

(** A JSON value with its structure: what the cards read out of
    [structuredContent], which is typed [any]. *)
#[local] Unset Elimination Schemes.
Inductive Json : Type :=
  | JsonNull
  | JsonBool (b : bool)
  | JsonNumber (n : Z)
  | JsonString (s : string)
  | JsonArray (items : list Json)
  | JsonObject (fields : list (string * Json)).
#[local] Set Elimination Schemes.

Definition truthy_json (v : Json) : bool :=
  match v with
  | JsonNull => false
  | JsonBool b => b
  | JsonNumber n => negb (n =? 0)%Z
  | JsonString s => negb (s =? "")
  | JsonArray _ | JsonObject _ => true
  end.

(** [{v}] as a child of an element: React renders a string or a number,
    renders nothing for [null] and a boolean, takes the items of an array
    as children in turn, and throws on any other object ('Objects are not
    valid as a React child'). *)
Fixpoint valid_child (v : Json) : bool :=
  match v with
  | JsonArray items => forallb valid_child items
  | JsonObject _ => false
  | _ => true
  end.

(** [String(v)] returns.  An array joins the strings of its items; an
    object gives '[object Object]' through the inherited [toString], and
    throws a [TypeError] when it has a property [toString] of its own, which
    in a JSON value is never a function. *)
Fixpoint stringable (v : Json) : bool :=
  match v with
  | JsonArray items => forallb stringable items
  | JsonObject fields => negb (existsb (λ kv, kv.1 =? "toString") fields)
  | _ => true
  end.

(** [o.k] for the property names the cards read ([title], [headers],
    [rows], [code], [language], [chartType], [data]): none of them is a
    member of a prototype, so the read is [undefined] ([None]) unless [o] is
    an object that has the property. *)
Definition get_field (o : Json) (k : string) : option Json :=
  match o with
  | JsonObject fields => Map_get fields k
  | _ => None
  end.

Definition truthy_field (o : option Json) : bool :=
  match o with
  | Some v => truthy_json v
  | None => false
  end.

(** [{x && <e>{x}</e>}] and [{x || 'text'}]: [x] is rendered as a child
    when it is truthy; a falsy value is rendered as it is, or replaced. *)
Definition child_renders (x : option Json) : bool :=
  match x with
  | Some v => if truthy_json v then valid_child v else true
  | None => true
  end.

(** [xs.map(...)] is called: a [TypeError] unless [xs] is an array. *)
Definition is_array (x : option Json) : bool :=
  match x with
  | Some (JsonArray _) => true
  | _ => false
  end.

Definition items_of (x : option Json) : list Json :=
  match x with
  | Some (JsonArray items) => items
  | _ => []
  end.

(** The body of the table card returns: the title, if there is one, is a
    valid child; and when [hasData], [headers] is an array of valid
    children and [rows] an array of arrays whose cells [String] accepts. *)
Definition table_renders (tableData : Json) : bool :=
  let headers := get_field tableData "headers" in
  let rows := get_field tableData "rows" in
  let hasData := truthy_field headers && truthy_field rows in
  child_renders (get_field tableData "title")
  && (if hasData then
        is_array headers && forallb valid_child (items_of headers)
        && is_array rows
        && forallb
             (λ row, is_array (Some row)
                     && forallb stringable (items_of (Some row)))
             (items_of rows)
      else true).

Definition code_renders (codeData : Json) : bool :=
  child_renders (get_field codeData "title")
  && child_renders (get_field codeData "language")
  && child_renders (get_field codeData "code").

Definition chart_renders (chartData : Json) : bool :=
  child_renders (get_field chartData "title")
  && child_renders (get_field chartData "chartType").

Inductive CardKind : Type :=
  | TableCard
  | CodeCard
  | ChartCard.

Definition card_renders (kind : CardKind) (data : Json) : bool :=
  match kind with
  | TableCard => table_renders data
  | CodeCard => code_renders data
  | ChartCard => chart_renders data
  end.

(** What [renderContent] returns: the text, the 'thinking...' placeholder,
    a card for structured content (with [structuredContent || {}] as its
    data and the summary line when [finalAnswer] is truthy), or nothing. *)
Inductive ContentView : Type :=
  | TextSpan (textContent : JsValue)
  | ThinkingPulse
  | Card (kind : CardKind) (data : Json) (summary : option string)
  | NoContent.

(** [s && <element>{s}</element>] *)
Definition shown (s : string) : option string :=
  if truthy_str (Some s) then Some s else None.

(** The parts of a [ContentChunkComponent]: the disclosure button (absent
    without thinking text, otherwise with the chevron down when expanded),
    the content, the thinking text when shown, the suggestion box. *)
Record ChunkView : Type := mkChunkView {
  cv_chevron : option bool;
  cv_content : ContentView;
  cv_thinking : option string;
  cv_suggestion : option string
}.

Section ContentChunk.

(** The structure of the value that the JSON text of an object or array
    stands for. *)
Variable structure : string → Json.

(** A value with its structure; [None] is [undefined]. *)
Definition json_of (v : JsValue) : option Json :=
  match v with
  | JUndefined => None
  | JNull => Some JsonNull
  | JBool b => Some (JsonBool b)
  | JNumber n => Some (JsonNumber n)
  | JString s => Some (JsonString s)
  | JObject json => Some (structure json)
  end.

(** [structuredContent || {}] *)
Definition or_empty_object (structuredContent : JsValue) : Json :=
  if truthy structuredContent
  then default (JsonObject []) (json_of structuredContent)
  else JsonObject [].

(** [renderContent]; [None] when the render throws. *)
Definition renderContent (event : StreamEvent) (textContent : JsValue)
    (finalAnswer : string) (structuredContent : JsValue)
  : option ContentView :=
  let eventType := ev_type event in
  if isTextChunk eventType then
    if truthy textContent then
      if default true (valid_child <$> json_of textContent)
      then Some (TextSpan textContent)
      else None
    else Some ThinkingPulse
  else
    let data := or_empty_object structuredContent in
    if type_eqb eventType chunk_table then
      if table_renders data
      then Some (Card TableCard data (shown finalAnswer)) else None
    else if type_eqb eventType chunk_code then
      if code_renders data
      then Some (Card CodeCard data (shown finalAnswer)) else None
    else if type_eqb eventType chunk_chart then
      if chart_renders data
      then Some (Card ChartCard data (shown finalAnswer)) else None
    else Some NoContent.

(** The component with the props [ExecutionNodeComponent] passes it from
    the item's data; [None] when its render throws. *)
Definition ContentChunkComponent (data : MessageData) (isExpanded : bool)
  : option ChunkView :=
  let hasThinking := truthy_str (Some (msg_thinking data)) in
  content ← renderContent (msg_event data) (msg_textContent data)
               (msg_finalAnswer data) (msg_structuredContent data);
  Some (mkChunkView
          (if hasThinking then Some isExpanded else None)
          content
          (if isExpanded && hasThinking then Some (msg_thinking data)
           else None)
          (shown (msg_suggestion data))).

End ContentChunk.

(** ** The label of a tool call ([ToolCallComponent]) *)

(** A string stands for its UTF-8 bytes.  The two regular expressions have
    no [u] or [i] flag, so [\w] is the ASCII class [A-Za-z0-9_] and every
    byte of a character outside ASCII is a non-word character that neither
    replacement touches. *)
Definition is_word (c : ascii) : bool :=
  let n := N_of_ascii c in
  ((48 <=? n) && (n <=? 57) || (65 <=? n) && (n <=? 90)
   || (97 <=? n) && (n <=? 122) || (n =? 95))%N.

(** [c.toUpperCase()] on one word character. *)
Definition toUpperCase (c : ascii) : ascii :=
  let n := N_of_ascii c in
  if ((97 <=? n) && (n <=? 122))%N then ascii_of_N (n - 32) else c.

(** [.replace(/[-_]/g, ' ')] *)
Fixpoint replace_separators (s : string) : string :=
  match s with
  | EmptyString => EmptyString
  | String c s' =>
      String (if (c =? "-")%char || (c =? "_")%char then " "%char else c)
        (replace_separators s')
  end.

(** [.replace(/\b\w/g, c => c.toUpperCase())]: a word character is matched
    when the character before it (none at the start) is not one;
    [after_word] says whether the character before is a word character. *)
Fixpoint capitalize_words (after_word : bool) (s : string) : string :=
  match s with
  | EmptyString => EmptyString
  | String c s' =>
      String (if is_word c && negb after_word then toUpperCase c else c)
        (capitalize_words (is_word c) s')
  end.

(** The text [ToolCallComponent] shows for [toolCall.toolName]. *)
Definition toolName_label (toolName : string) : string :=
  capitalize_words false (replace_separators toolName).

(** ** The stream reader (content script, [FETCH_FROM_TAB]) *)

(** The messages the content script sends to the side panel. *)
Inductive RuntimeMessage (E : Type) : Type :=
  | STREAM_EVENT (requestId : string) (event : E)
  | STREAM_COMPLETE (requestId : string)
  | STREAM_ERROR (requestId : string) (error : string).

Arguments STREAM_EVENT {E} requestId event.
Arguments STREAM_COMPLETE {E} requestId.
Arguments STREAM_ERROR {E} requestId error.

(** How the body of a response ends: [reader.read()] resolves with [done],
    or rejects with an error. *)
Inductive StreamEnd : Type :=
  | Done
  | Failed (message : string).

(** What [fetch] gives: a rejection, a response that is not [ok], a
    response without body, or a body that delivers the decoded chunks in
    turn and then ends. *)
Inductive FetchOutcome : Type :=
  | Rejected (message : string)
  | NotOk (status : string)
  | NoBody
  | Body (chunks : list string) (ending : StreamEnd).

Definition newline : ascii := "010"%char.

(** [s.split('\n')], scanning from the left; [line] is the text of the
    current line read so far. *)
Fixpoint split_from (line : string) (s : string) : list string :=
  match s with
  | EmptyString => [line]
  | String c s' =>
      if (c =? newline)%char then line :: split_from EmptyString s'
      else split_from (line +:+ String c EmptyString) s'
  end.

Definition split_lines (s : string) : list string := split_from EmptyString s.

(** [line.slice(5)] *)
Definition slice5 (line : string) : string :=
  String.substring 5 (String.length line - 5) line.

Section StreamReader.

(** The event type, [String.prototype.trim], and [JSON.parse] with [None]
    for a [SyntaxError]. *)
Variable E : Type.
Variable trim : string → string.
Variable JSON_parse : string → option E.

(** The body of [for (const line of lines)]: the event sent for a line, if
    any. *)
Definition parse_line (line : string) : option E :=
  if (trim line =? "") || negb (String.prefix "data:" line) then None
  else JSON_parse (trim (slice5 line)).

(** One turn of the loop after a chunk has been read: the new buffer and
    the events sent. *)
Definition read_chunk (buffer chunk : string) : string * list E :=
  let lines := split_lines (buffer +:+ chunk) in
  (default "" (last lines), omap parse_line (removelast lines)).

(** The loop [while (true)], with what it sends. *)
Fixpoint read_loop (requestId : string) (buffer : string)
    (chunks : list string) (ending : StreamEnd)
  : list (RuntimeMessage E) :=
  match chunks with
  | [] =>
      match ending with
      | Done => [STREAM_COMPLETE requestId]
      | Failed message => [STREAM_ERROR requestId message]
      end
  | chunk :: chunks' =>
      let r := read_chunk buffer chunk in
      List.map (STREAM_EVENT requestId) r.2
      ++ read_loop requestId r.1 chunks' ending
  end.

(** The handler of the [fetch] promise. *)
Definition stream_response (requestId : string) (outcome : FetchOutcome)
  : list (RuntimeMessage E) :=
  match outcome with
  | Rejected message => [STREAM_ERROR requestId message]
  | NotOk status =>
      [STREAM_ERROR requestId ("HTTP error! status: " +:+ status)]
  | NoBody => [STREAM_ERROR requestId "No response body"]
  | Body chunks ending => read_loop requestId "" chunks ending
  end.

End StreamReader.

(** ** The side panel ([SidePanel], the message listener) *)

Inductive Role : Type :=
  | user
  | assistant.

Record Message (E : Type) : Type := mkChatMessage {
  role : Role;
  content : string;
  currentEvent : option E;
  isStreaming : option bool
}.

Arguments mkChatMessage {E} role content currentEvent isStreaming.
Arguments role {E} m.
Arguments content {E} m.
Arguments currentEvent {E} m.
Arguments isStreaming {E} m.

(** The state the listener works on: [messages], [isLoading] and
    [currentRequestIdRef.current] ([None] is [null]). *)
Record PanelState (E : Type) : Type := mkPanel {
  messages : list (Message E);
  isLoading : bool;
  currentRequestId : option string
}.

Arguments mkPanel {E} messages isLoading currentRequestId.
Arguments messages {E} p.
Arguments isLoading {E} p.
Arguments currentRequestId {E} p.

(** [updated[updated.length - 1]], read and written; on an empty array the
    read is [undefined] and the write makes no element. *)
Fixpoint update_last {A : Type} (f : A → A) (l : list A) : list A :=
  match l with
  | [] => []
  | [x] => [f x]
  | x :: l' => x :: update_last f l'
  end.

Definition requestId_of {E : Type} (request : RuntimeMessage E) : string :=
  match request with
  | STREAM_EVENT requestId _ => requestId
  | STREAM_COMPLETE requestId => requestId
  | STREAM_ERROR requestId _ => requestId
  end.

(** [messageListener], on a message of the content script. *)
Definition messageListener {E : Type} (s : PanelState E)
    (request : RuntimeMessage E) : PanelState E :=
  if negb (strict_eq (Some (requestId_of request)) (currentRequestId s))
  then s
  else
    match request with
    | STREAM_EVENT _ event =>
        mkPanel
          (update_last
             (λ lastMsg,
                match role lastMsg with
                | assistant =>
                    mkChatMessage (role lastMsg) (content lastMsg)
                      (Some event) (isStreaming lastMsg)
                | user => lastMsg
                end)
             (messages s))
          (isLoading s) (currentRequestId s)
    | STREAM_ERROR _ error =>
        mkPanel
          (update_last
             (λ _, mkChatMessage assistant ("Error: " +:+ error) None
                     (Some false))
             (messages s))
          false None
    | STREAM_COMPLETE _ =>
        mkPanel
          (update_last
             (λ lastMsg,
                match role lastMsg with
                | assistant =>
                    mkChatMessage (role lastMsg) (content lastMsg)
                      (currentEvent lastMsg) (Some false)
                | user => lastMsg
                end)
             (messages s))
          false None
    end.

(** The listener over the messages received in turn. *)
Definition listen {E : Type} (s : PanelState E)
    (requests : list (RuntimeMessage E)) : PanelState E :=
  fold_left messageListener requests s.

(** ** The whole component ([AssistantMessage]) *)

(** What the component returns: the streaming cursor, or the components of
    the root nodes. *)
Inductive MessageView : Type :=
  | StreamingCursor
  | ExecutionRows (rows : list Row).

Section WholeComponent.

Variable structure : string → Json.

(** The component of a row renders without throwing: a tool call always
    does, a message when its [ContentChunkComponent] does. *)
Definition row_renders (row : Row) : bool :=
  match row with
  | MessageRow _ _ _ data expanded =>
      match ContentChunkComponent structure data expanded with
      | Some _ => true
      | None => false
      end
  | ToolCallRow _ _ _ _ => true
  end.

(** The render of [AssistantMessage] with [events] as its state.  The tree
    is built before the test for an empty list, so an exception of the
    builder fails the render ([None]), and so does an exception of a
    component below; the bound of the recursion is the number of nodes. *)
Definition AssistantMessage (st : ViewState) (events : list StreamEvent)
  : option MessageView :=
  tree ← buildExecutionTree events;
  match events with
  | [] => Some StreamingCursor
  | _ =>
      rows ← renderRoots (length tree) st tree;
      if forallb row_renders rows then Some (ExecutionRows rows) else None
  end.

End WholeComponent.

(** ** Vocabulary of the statements *)

(** Two events agree on the tuple the duplicate check compares. *)
Definition agrees (a b : StreamEvent) : Prop :=
  ev_runId a = ev_runId b
  ∧ ev_type a = ev_type b
  ∧ ev_timestamp a = ev_timestamp b
  ∧ payload_messageId a = payload_messageId b.

(** What the view renders from a tree: the consolidated items of each node. *)
Definition consolidated_items (tree : ExecutionTree)
  : list (string * list OrderedItem) :=
  List.map (λ kv, (kv.1, orderedItems (node_events kv.2))) tree.

(** [e] is a tool-call-start that names the tool call [id]. *)
Definition starts_toolCall (id : string) (e : StreamEvent) : Prop :=
  ev_type e = tool_call_start ∧ payload_toolCallId e = Some id ∧ id ≠ "".

(** [e] is a chunk event of the message [id]. *)
Definition chunk_of (id : string) (e : StreamEvent) : Prop :=
  (isTextChunk (ev_type e) || isStructuredChunk (ev_type e)) = true
  ∧ payload_messageId e = Some id ∧ id ≠ "".

(** [i] is the index of the first, of the last, element of [l] with [P]. *)
Definition first_index {A : Type} (P : A → Prop) (l : list A) (i : nat)
  : Prop :=
  (∃ x, l !! i = Some x ∧ P x) ∧ ∀ j y, j < i → l !! j = Some y → ¬ P y.

Definition last_index {A : Type} (P : A → Prop) (l : list A) (i : nat)
  : Prop :=
  (∃ x, l !! i = Some x ∧ P x) ∧ ∀ j y, i < j → l !! j = Some y → ¬ P y.

Definition index_le (a b : OrderedItem) : Prop :=
  (orderIndex a ≤ orderIndex b)%nat.

(** The list is in ascending order of [orderIndex]. *)
Definition ascending (items : list OrderedItem) : Prop :=
  ∀ i j a b, i < j → items !! i = Some a → items !! j = Some b →
             (orderIndex a ≤ orderIndex b)%nat.

(** The events of run [rid], in arrival order. *)
Definition bucket (rid : string) (events : list StreamEvent)
  : list StreamEvent :=
  List.filter (λ e, ev_runId e =? rid) events.

(** The node step 1 leaves for [rid]: none for the empty [runId] or an empty
    bucket, else the bucket under the identifiers of its first event. *)
Definition initial_node (rid : string) (events : list StreamEvent)
  : option ExecutionNode :=
  if rid =? "" then None
  else match bucket rid events with
       | [] => None
       | first :: _ =>
           Some (mkNode rid (or_null (ev_parentId first))
                   (or_null (ev_toolCallId first))
                   (or_null (ev_agentId first))
                   (bucket rid events) [] None None)
       end.

(** [e] is a tool-result that names the tool call [id]. *)
Definition results_toolCall (id : string) (e : StreamEvent) : Prop :=
  ev_type e = tool_result ∧ payload_toolCallId e = Some id ∧ id ≠ "".

(** A tool call, a node and a tree with the [childAgent] links left out. *)
Definition erase_child (tc : ToolCallNode) : ToolCallNode :=
  mkToolCall (tc_toolCallId tc) (tc_toolName tc) (tc_startEvent tc)
    (tc_resultEvent tc) None.

Definition map_values {V W : Type} (f : V → W) (m : list (string * V))
  : list (string * W) :=
  List.map (λ kv, (kv.1, f kv.2)) m.

Definition unlinked (node : ExecutionNode) : ExecutionNode :=
  with_toolCalls node (map_values erase_child (node_toolCalls node)).

(** The [childAgent] of the tool call [tid] of the node [pid]. *)
Definition childAgent_of (tree : ExecutionTree) (pid tid : string)
  : option string :=
  node ← Map_get tree pid;
  tc ← Map_get (node_toolCalls node) tid;
  tc_childAgent tc.

(** The tool call [tid] of the node [pid]. *)
Definition toolCall_of (tree : ExecutionTree) (pid tid : string)
  : option ToolCallNode :=
  node ← Map_get tree pid; Map_get (node_toolCalls node) tid.

(** The node claims the tool call [tid] of the node [pid] as its parent. *)
Definition claims (pid tid : string) (node : ExecutionNode) : Prop :=
  node_parentId node = Some pid ∧ node_toolCallId node = Some tid
  ∧ pid ≠ "" ∧ tid ≠ "".

(** Step 4 reads [toolCalls] of a member of [Object.prototype] for this
    node. *)
Definition bad_link (node : ExecutionNode) : bool :=
  truthy_str (node_parentId node) && truthy_str (node_toolCallId node)
  && match node_parentId node with
     | Some parentId => inherited parentId
     | None => false
     end.

(** The node of [rid] as steps 1 to 3 leave it. *)
Definition derived_node (rid : string) (events : list StreamEvent)
  : option ExecutionNode :=
  (λ node, set_tool_calls (set_times node)) <$> initial_node rid events.

(** The builder raises a [TypeError]: a [runId], or the [parentId] of a run
    that also names a tool call, is a member of [Object.prototype]. *)
Definition raises_TypeError (events : list StreamEvent) : Prop :=
  (∃ e, e ∈ events ∧ inherited (ev_runId e) = true)
  ∨ (∃ rid node, initial_node rid events = Some node ∧ bad_link node = true).

Definition claimsb (pid tid : string) (node : ExecutionNode) : bool :=
  strict_eq (node_parentId node) (Some pid)
  && strict_eq (node_toolCallId node) (Some tid)
  && negb (pid =? "") && negb (tid =? "").

(** Among the nodes step 4 walks, the last one that claims the tool call. *)
Fixpoint last_claimer (pid tid : string) (children : list ExecutionNode)
  : option ExecutionNode :=
  match children with
  | [] => None
  | c :: children' =>
      match last_claimer pid tid children' with
      | Some c' => Some c'
      | None => if claimsb pid tid c then Some c else None
      end
  end.

(** The tree as steps 1 to 3 leave it, before any link is made. *)
Definition unlinked_tree (events : list StreamEvent) : option ExecutionTree :=
  (λ nodes, map_nodes set_tool_calls (map_nodes set_times nodes))
    <$> group_events events [].

(** The first event of type [t] exists and has an empty timestamp, or there
    is no event of type [t]: the cases in which the time falls back. *)
Definition no_timed (t : EventType) (events : list StreamEvent) : Prop :=
  (∀ e, e ∈ events → ev_type e ≠ t)
  ∨ (∃ i s, first_index (λ e, ev_type e = t) events i
            ∧ events !! i = Some s ∧ ev_timestamp s = "").

(** The timestamp of an event, [null] when it is empty. *)
Definition timestamp_or_null (e : StreamEvent) : option string :=
  if ev_timestamp e =? "" then None else Some (ev_timestamp e).

(** What step 3 guarantees of the entry [tc] it holds for [id] after the
    events [l]: it was created by the last tool-call-start naming [id],
    carries no link yet, and a result it holds is a tool-result naming [id]
    that came after that start. *)
Definition toolCall_sound (l : list StreamEvent) (id : string)
    (tc : ToolCallNode) : Prop :=
  tc_toolCallId tc = id ∧ tc_childAgent tc = None
  ∧ ∃ i, last_index (starts_toolCall id) l i
         ∧ l !! i = Some (tc_startEvent tc)
         ∧ ∀ r, tc_resultEvent tc = Some r →
                ∃ j, i < j ∧ l !! j = Some r ∧ results_toolCall id r.

(** A tool-call-start whose payload is absent or carries no (or an empty)
    [toolCallId]. *)
Definition start_without_id (e : StreamEvent) : Prop :=
  ev_type e = tool_call_start ∧ truthy_str (payload_toolCallId e) = false.

(** Two events carry the same run, parent and tool-call identifiers. *)
Definition same_ids (a b : StreamEvent) : Prop :=
  ev_runId a = ev_runId b
  ∧ ev_parentId a = ev_parentId b
  ∧ ev_toolCallId a = ev_toolCallId b.

(** The run [C] names the tool call [T] of the run [P] as its origin: its
    first event carries the parent identifier [P] and the tool-call
    identifier [T], none of the three empty. *)
Definition run_claims (events : list StreamEvent) (C P T : string) : Prop :=
  ∃ first, head (bucket C events) = Some first
           ∧ C ≠ "" ∧ P ≠ "" ∧ T ≠ ""
           ∧ ev_parentId first = Some P ∧ ev_toolCallId first = Some T.

(** The run [P] has a tool-call-start naming [T]. *)
Definition run_starts (events : list StreamEvent) (P T : string) : Prop :=
  ∃ s, s ∈ bucket P events ∧ starts_toolCall T s.

(** The link the builder leaves on the tool call [T] of the run [P]. *)
Definition built_link (events : list StreamEvent) (P T : string)
  : option string :=
  tree ← buildExecutionTree events; childAgent_of tree P T.





(** ** Sample events *)

Definition empty_payload : Payload :=
  mkPayload None None None JUndefined None None None None JUndefined JUndefined.

(** [tool-call-start] of run [run] naming the tool call [id]. *)
Definition toolCallStart (run ts id name : string) : StreamEvent :=
  mkEvent tool_call_start run None None None ts
    (Some (mkPayload None None None JUndefined None None (Some id) (Some name)
             JUndefined JUndefined)).

(** [chunk-text] of run [run] for the message [msg]. *)
Definition textChunk (run ts msg : string) (thinking : option string)
    (content : JsValue) : StreamEvent :=
  mkEvent chunk_text run None None None ts
    (Some (mkPayload (Some msg) None thinking content None None None None
             JUndefined JUndefined)).

(** A tool call started twice, with a message in between. *)
Definition restarted_toolCall : list StreamEvent :=
  [ toolCallStart "A" "t0" "t1" "search";
    textChunk "A" "t1" "m1" None (JString "Hi");
    toolCallStart "A" "t2" "t1" "search" ].

(** A text chunk and a redelivery of it under the same key with another
    payload. *)
Definition first_delivery : StreamEvent :=
  textChunk "A" "t1" "m1" None (JString "Hi").

Definition altered_delivery : StreamEvent :=
  textChunk "A" "t1" "m1" (Some "second thoughts") (JString "Bye").

(** [start] and [finish] of a run; [start] may name the parent run and the
    tool call that spawned it. *)
Definition startEvent (run ts : string) (parent toolCall : option string)
  : StreamEvent :=
  mkEvent start run parent toolCall None ts None.

Definition finishEvent (run ts : string) : StreamEvent :=
  mkEvent finish run None None None ts None.

(** A run whose [start] and [finish] events carry an empty timestamp. *)
Definition untimed_run : list StreamEvent :=
  [ textChunk "A" "t0" "m1" None (JString "Hi");
    startEvent "A" "" None None;
    finishEvent "A" "";
    textChunk "A" "t9" "m1" None (JString "Hi there") ].

(** A run with timestamps throughout, its [start] arriving second. *)
Definition timed_run : list StreamEvent :=
  [ textChunk "A" "t0" "m1" None (JString "Hi");
    startEvent "A" "t1" None None;
    finishEvent "A" "t2";
    textChunk "A" "t9" "m1" None (JString "Hi there") ].

(** [tool-result] of run [run] naming the tool call [id]. *)
Definition toolResult (run ts id : string) (result : JsValue) : StreamEvent :=
  mkEvent tool_result run None None None ts
    (Some (mkPayload None None None JUndefined None None (Some id) None
             JUndefined result)).

(** A run that receives a result for a tool call it never started, then
    starts another tool call and receives its result. *)
Definition orphan_result_run : list StreamEvent :=
  [ startEvent "A" "t0" None None;
    toolResult "A" "t1" "t9" (JString "lost");
    toolCallStart "A" "t2" "t1" "search";
    toolResult "A" "t3" "t1" (JString "found") ].

(** A tool-call-start with a payload that has no [toolCallId], between the
    start of its run and a text chunk. *)
Definition nameless_start : StreamEvent :=
  mkEvent tool_call_start "A" None None None "t1" (Some empty_payload).

Definition nameless_start_run : list StreamEvent :=
  [ startEvent "A" "t0" None None;
    nameless_start;
    textChunk "A" "t2" "m1" None (JString "Hi") ].

(** Two runs that name the same tool call of the same parent, after the
    parent and with the second of them ahead of the parent. *)
Definition rival_children : list StreamEvent :=
  [ startEvent "P" "t0" None None;
    toolCallStart "P" "t1" "t1" "search";
    startEvent "C1" "t2" (Some "P") (Some "t1");
    startEvent "C2" "t3" (Some "P") (Some "t1") ].

Definition rival_children_reordered : list StreamEvent :=
  [ startEvent "C2" "t3" (Some "P") (Some "t1");
    startEvent "P" "t0" None None;
    toolCallStart "P" "t1" "t1" "search";
    startEvent "C1" "t2" (Some "P") (Some "t1") ].

(** One child run, arriving before its parent. *)
Definition child_first : list StreamEvent :=
  [ startEvent "B" "t0" (Some "A") (Some "t1");
    startEvent "A" "t1" None None;
    toolCallStart "A" "t2" "t1" "search" ].

Definition parent_first : list StreamEvent :=
  [ startEvent "A" "t1" None None;
    toolCallStart "A" "t2" "t1" "search";
    startEvent "B" "t0" (Some "A") (Some "t1") ].

(** The scenario "tool call with sub-agent", with any timestamps and any
    tool result. *)
Definition subagent_scenario (t1 t2 t3 t4 t5 t6 t7 : string)
    (result : JsValue) : list StreamEvent :=
  [ startEvent "A" t1 None None;
    toolCallStart "A" t2 "t1" "search";
    startEvent "B" t3 (Some "A") (Some "t1");
    textChunk "B" t4 "m2" None (JString "found it");
    finishEvent "B" t5;
    toolResult "A" t6 "t1" result;
    finishEvent "A" t7 ].

(** The event list after the events have been handed over one by one. *)
Definition receive_all (events : list StreamEvent) : list StreamEvent :=
  fold_left (λ prev event, appendEvent prev (Some event)) events [].

(** A message that first has only thinking text, then text content, and
    after the user has toggled it, more text content. *)
Definition thinking_chunk : StreamEvent :=
  textChunk "A" "t1" "m1" (Some "hmm") JUndefined.

Definition content_chunk : StreamEvent :=
  textChunk "A" "t2" "m1" None (JString "Hi").

Definition more_content_chunk : StreamEvent :=
  textChunk "A" "t3" "m1" None (JString "Hi there").

Definition toggled_then_content : list Action :=
  [ Arrive [thinking_chunk];
    Arrive [thinking_chunk; content_chunk];
    Toggle "m1";
    Arrive [thinking_chunk; content_chunk; more_content_chunk] ].

(** ** Vocabulary of the further properties *)

(** No two events of the list agree on the tuple the duplicate check
    compares. *)
Definition distinct_keys (l : list StreamEvent) : Prop :=
  ∀ i j a b, i < j → l !! i = Some a → l !! j = Some b → ¬ agrees a b.

(** [e] was delivered, and nothing delivered before it agrees with it on
    that tuple. *)
Definition delivered_first (stream : list (option StreamEvent))
    (e : StreamEvent) : Prop :=
  ∃ i, stream !! i = Some (Some e)
       ∧ ∀ j e', j < i → stream !! j = Some (Some e') → ¬ agrees e' e.

(** Some event carries a [runId] that names a member of
    [Object.prototype]. *)
Definition prototype_runId (events : list StreamEvent) : Prop :=
  ∃ e, e ∈ events ∧ inherited (ev_runId e) = true.

(** The first event of some run names a tool call and, as its parent, a
    member of [Object.prototype]. *)
Definition prototype_parent (events : list StreamEvent) : Prop :=
  ∃ i e p t,
    first_index (λ x, ev_runId x = ev_runId e) events i
    ∧ events !! i = Some e ∧ ev_runId e ≠ ""
    ∧ ev_parentId e = Some p ∧ inherited p = true
    ∧ ev_toolCallId e = Some t ∧ t ≠ "".

(** The keys stand in the order in which their runs first appear. *)
Definition in_order_of_appearance (events : list StreamEvent)
    (keys : list string) : Prop :=
  ∀ i j k1 k2, i < j → keys !! i = Some k1 → keys !! j = Some k2 →
    ∃ a b, a < b
           ∧ first_index (λ e, ev_runId e = k1) events a
           ∧ first_index (λ e, ev_runId e = k2) events b.

(** The order [Object.values] gives two nodes, [a] before [b]: array-index
    runIds first, in ascending numeric order, then the other runIds in the
    order in which the runs first appear. *)
Definition values_order (events : list StreamEvent) (a b : ExecutionNode)
  : Prop :=
  match array_index (node_runId a), array_index (node_runId b) with
  | Some x, Some y => (x ≤ y)%N
  | Some _, None => True
  | None, Some _ => False
  | None, None =>
      ∃ p q, p < q
             ∧ first_index (λ e, ev_runId e = node_runId a) events p
             ∧ first_index (λ e, ev_runId e = node_runId b) events q
  end.

(** Events of a few runs whose identifiers look like numbers. *)
Definition numeric_runs : list StreamEvent :=
  [ startEvent "b" "t0" None None;
    startEvent "10" "t1" None None;
    startEvent "2" "t2" None None ].

(** The tool name a tool-call-start carries, ['unknown'] when it is absent
    or empty. *)
Definition toolName_of (s : StreamEvent) : string :=
  match ev_payload s with
  | Some p =>
      match pl_toolName p with
      | Some n => if n =? "" then "unknown" else n
      | None => "unknown"
      end
  | None => "unknown"
  end.

(** [r] is the last tool-result naming [id] in [l], and it stands after the
    index [i]. *)
Definition result_after (l : list StreamEvent) (id : string) (i : nat)
    (r : StreamEvent) : Prop :=
  ∃ j, i < j ∧ l !! j = Some r ∧ results_toolCall id r
       ∧ ∀ k y, j < k → l !! k = Some y → ¬ results_toolCall id y.

(** The entry [tc] is what the last tool-call-start naming [id] and the
    tool-results after it make of it. *)
Definition toolCall_exact (l : list StreamEvent) (id : string)
    (tc : ToolCallNode) : Prop :=
  tc_toolCallId tc = id
  ∧ ∃ i s, last_index (starts_toolCall id) l i ∧ l !! i = Some s
           ∧ tc_startEvent tc = s ∧ tc_toolName tc = toolName_of s
           ∧ ∀ r, tc_resultEvent tc = Some r ↔ result_after l id i r.

(** A tool call that is started again after its result has arrived. *)
Definition restarted_after_result : list StreamEvent :=
  [ toolCallStart "A" "t0" "t1" "search";
    toolResult "A" "t1" "t1" (JString "found");
    toolCallStart "A" "t2" "t1" "" ].

(** A run with, above it, the runs its parent identifiers name in turn, up
    to a run that names no parent. *)
Inductive chain (tree : ExecutionTree) : list string → Prop :=
  | chain_root r node :
      Map_get tree r = Some node → node_parentId node = None →
      chain tree [r]
  | chain_child c a p cn :
      chain tree (a :: p) → Map_get tree c = Some cn →
      node_parentId cn = Some a → chain tree (c :: a :: p).

(** The run [r] is the [childAgent] of some tool call of the tree. *)
Definition linked (tree : ExecutionTree) (r : string) : Prop :=
  ∃ P T tc, toolCall_of tree P T = Some tc ∧ tc_childAgent tc = Some r.

(** Every tool call open and no disclosure flag set: the state before any
    user action. *)
Definition initial_view : ViewState := mkViewState (λ _, ∅) (λ _ _, true).

(** A root run, and a run that names itself as parent and starts the tool
    call it names. *)
Definition self_parent : list StreamEvent :=
  [ startEvent "A" "t0" None None;
    textChunk "A" "t1" "m1" None (JString "Hi");
    startEvent "C" "t2" (Some "C") (Some "t9");
    toolCallStart "C" "t3" "t9" "loop" ].

(** A run whose parent never appears. *)
Definition orphan_child : list StreamEvent :=
  [ startEvent "B" "t0" (Some "A") (Some "t1");
    textChunk "B" "t1" "m2" None (JString "found it") ].

(** The payload of [e] when [e] is a chunk of the message [id]. *)
Definition chunk_payload (id : string) (e : StreamEvent) : option Payload :=
  match ev_payload e with
  | Some p =>
      if (isTextChunk (ev_type e) || isStructuredChunk (ev_type e))
         && bool_decide (pl_messageId p = Some id) && negb (id =? "")
      then Some p
      else None
  | None => None
  end.

(** What a chunk of the message [id] writes into a string field, into
    [textContent] and into [structuredContent]: a truthy value only. *)
Definition written_str (f : Payload → option string) (id : string)
    (e : StreamEvent) : option string :=
  p ← chunk_payload id e; if truthy_str (f p) then f p else None.

Definition written_text (id : string) (e : StreamEvent) : option JsValue :=
  p ← chunk_payload id e;
  if isTextChunk (ev_type e) && truthy (pl_content p)
  then Some (pl_content p) else None.

Definition written_structured (id : string) (e : StreamEvent)
  : option JsValue :=
  p ← chunk_payload id e;
  if isStructuredChunk (ev_type e) && truthy (pl_content p)
  then Some (pl_content p) else None.

(** The last value written by an event of the list. *)
Definition last_written {A : Type} (w : StreamEvent → option A)
    (events : list StreamEvent) : option A :=
  last (omap w events).

(** [structuredContent] as the first chunk of a message leaves it. *)
Definition initial_structured (e : StreamEvent) : JsValue :=
  if isStructuredChunk (ev_type e) then payload_content e else JUndefined.

(** [chunk-table] of run [run] for the message [msg]. *)
Definition tableChunk (run ts msg : string) (content : JsValue)
    (finalAnswer : option string) : StreamEvent :=
  mkEvent chunk_table run None None None ts
    (Some (mkPayload (Some msg) None None content finalAnswer None None None
             JUndefined JUndefined)).

(** A message that starts with a table chunk without content and goes on
    with text chunks, the last one with empty fields. *)
Definition mixed_message : list StreamEvent :=
  [ tableChunk "A" "t1" "m1" JNull (Some "summary");
    textChunk "A" "t2" "m1" (Some "hmm") (JString "Hi");
    textChunk "A" "t3" "m2" (Some "other") (JString "there");
    textChunk "A" "t4" "m1" (Some "") (JString "") ].

(** The card a structured chunk type is rendered as. *)
Definition card_kind (t : EventType) : CardKind :=
  match t with
  | chunk_code => CodeCard
  | chunk_chart => ChartCard
  | _ => TableCard
  end.

(** Two table objects, named by their text: one with a header and a row,
    one whose [headers] is a string. *)
Definition table_structure (json : string) : Json :=
  if json =? "{headers:h,rows:[]}" then
    JsonObject [("headers", JsonString "h"); ("rows", JsonArray [])]
  else
    JsonObject [("headers", JsonArray [JsonString "h"]);
                ("rows", JsonArray [JsonArray [JsonNumber 1]])].

(** A message that starts as text and then receives a table. *)
Definition text_then_table : list StreamEvent :=
  [ textChunk "A" "t1" "m1" None (JString "Hi");
    tableChunk "A" "t2" "m1" (JObject "{headers:[h],rows:[[1]]}")
      (Some "summary") ].

(** A table whose [headers] is not an array. *)
Definition malformed_table : list StreamEvent :=
  [ tableChunk "A" "t1" "m1" (JObject "{headers:h,rows:[]}") None ].

(** Some rendered message of the tree throws: a row of the roots' rows is a
    message whose [ContentChunkComponent] throws. *)
Definition message_throws (structure : string → Json) (st : ViewState)
    (tree : ExecutionTree) : Prop :=
  ∃ rows depth runId messageId data expanded,
    renderRoots (length tree) st tree = Some rows
    ∧ MessageRow depth runId messageId data expanded ∈ rows
    ∧ ContentChunkComponent structure data expanded = None.





(** No [-] and no [_] in the string. *)
Fixpoint no_separator (s : string) : bool :=
  match s with
  | EmptyString => true
  | String c s' =>
      negb ((c =? "-")%char || (c =? "_")%char) && no_separator s'
  end.

(** No line feed in the string. *)
Fixpoint no_newline (s : string) : bool :=
  match s with
  | EmptyString => true
  | String c s' => negb (c =? newline)%char && no_newline s'
  end.

(** The text of a body: its chunks, joined. *)
Definition body_text (chunks : list string) : string :=
  foldr String.append "" chunks.

(** The message that reports how the body ended. *)
Definition end_message {E : Type} (requestId : string) (ending : StreamEnd)
  : RuntimeMessage E :=
  match ending with
  | Done => STREAM_COMPLETE requestId
  | Failed message => STREAM_ERROR requestId message
  end.

(** The lines of a text that are closed by a line feed. *)
Definition complete_lines (text : string) : list string :=
  removelast (split_lines text).

(** The events of a body: what its complete lines parse to. *)
Definition body_events {E : Type} (trim : string → string)
    (JSON_parse : string → option E) (chunks : list string) : list E :=
  omap (parse_line E trim JSON_parse) (complete_lines (body_text chunks)).

(** A side panel that has sent a request and waits for its stream. *)
Definition waiting_panel : PanelState string :=
  mkPanel [ mkChatMessage user "hello" None None;
            mkChatMessage assistant "" None (Some true) ]
    true (Some "req_1").

(** A panel with no request under way. *)
Definition idle_panel : PanelState string :=
  mkPanel [ mkChatMessage user "hello" None None;
            mkChatMessage assistant "" (Some "e1") (Some false) ]
    false None.



(** * Properties *)

(** ** Strings, options and events *)

Lemma strict_eq_spec (a b : option string) : strict_eq a b = true ↔ a = b.
Proof.
  destruct a as [x|], b as [y|]; simpl; try (split; congruence).
  rewrite String.eqb_eq. split; congruence.
Qed.

Lemma type_eqb_spec (a b : EventType) : type_eqb a b = true ↔ a = b.
Proof. unfold type_eqb. apply bool_decide_eq_true. Qed.

Lemma truthy_str_Some (o : option string) :
  truthy_str o = true ↔ ∃ s, o = Some s ∧ s ≠ "".
Proof.
  destruct o as [s|]; simpl.
  - rewrite negb_true_iff, String.eqb_neq. split.
    + intros H. exists s. done.
    + intros (s' & [= <-] & H). done.
  - split; [done | intros (s & H & _); done].
Qed.

Lemma same_key_agrees (c e : StreamEvent) : same_key c e = true ↔ agrees e c.
Proof.
  unfold same_key, agrees.
  rewrite !andb_true_iff, !String.eqb_eq, type_eqb_spec, strict_eq_spec.
  tauto.
Qed.

Lemma agrees_refl (e : StreamEvent) : agrees e e.
Proof. by repeat split. Qed.

Lemma agrees_sym (a b : StreamEvent) : agrees a b → agrees b a.
Proof. unfold agrees. intros (-> & -> & -> & ->). done. Qed.

Lemma isDuplicate_spec (prev : list StreamEvent) (c : StreamEvent) :
  isDuplicate prev c = true ↔ ∃ e, e ∈ prev ∧ agrees e c.
Proof.
  unfold isDuplicate. rewrite existsb_exists. split.
  - intros (e & Hin & Hk). exists e. split.
    + by apply list_elem_of_In.
    + by apply same_key_agrees.
  - intros (e & Hin & Hk). exists e. split.
    + by apply list_elem_of_In.
    + by apply same_key_agrees.
Qed.

Lemma appendEvent_duplicate (prev : list StreamEvent) (c e : StreamEvent) :
  e ∈ prev → agrees e c → appendEvent prev (Some c) = prev.
Proof.
  intros Hin Hk. simpl.
  assert (isDuplicate prev c = true) as -> by (apply isDuplicate_spec; eauto).
  done.
Qed.

Lemma appendEvent_twice (prev : list StreamEvent) (c : StreamEvent) :
  appendEvent (appendEvent prev (Some c)) (Some c) = appendEvent prev (Some c).
Proof.
  simpl. destruct (isDuplicate prev c) eqn:Hd.
  - by rewrite Hd.
  - assert (isDuplicate (prev ++ [c]) c = true) as ->; [|done].
    apply isDuplicate_spec. exists c. split; [|apply agrees_refl].
    apply elem_of_app. right. apply list_elem_of_singleton. done.
Qed.

(** ** The plain object [nodes] *)

Example array_index_canonical :
  array_index "10" = Some 10%N ∧ array_index "0" = Some 0%N
  ∧ array_index "01" = None ∧ array_index "1e3" = None
  ∧ array_index "4294967294" = Some 4294967294%N
  ∧ array_index "4294967295" = None.
Proof. repeat split; reflexivity. Qed.

Example Object_values_index_keys_first :
  Object_values [("b", 1); ("10", 2); ("a", 3); ("2", 4)] = [4; 2; 1; 3].
Proof. reflexivity. Qed.

Example prototype_name_as_runId :
  buildExecutionTree [startEvent "constructor" "t0" None None] = None
  ∧ buildExecutionTree
      [ startEvent "A" "t0" None None;
        startEvent "B" "t1" (Some "toString") (Some "t1") ] = None.
Proof. split; reflexivity. Qed.

(** ** The insertion-ordered map *)

Section JsMapFacts.
Context {V : Type}.
Implicit Types (m : list (string * V)) (k : string) (v : V).

Lemma Map_get_set_eq m k v : Map_get (Map_set m k v) k = Some v.
Proof.
  induction m as [|[k' v'] m IH]; simpl.
  - by rewrite String.eqb_refl.
  - destruct (k' =? k) eqn:E; simpl; rewrite E; done.
Qed.

Lemma Map_get_set_ne m k k' v :
  k ≠ k' → Map_get (Map_set m k v) k' = Map_get m k'.
Proof.
  intros Hne. induction m as [|[k0 v0] m IH]; simpl.
  - apply String.eqb_neq in Hne. by rewrite Hne.
  - destruct (k0 =? k) eqn:E; simpl.
    + apply String.eqb_eq in E. subst k0.
      apply String.eqb_neq in Hne. by rewrite Hne.
    + by rewrite IH.
Qed.

Lemma Map_get_set m k k' v :
  Map_get (Map_set m k v) k' = if k =? k' then Some v else Map_get m k'.
Proof.
  destruct (k =? k') eqn:E.
  - apply String.eqb_eq in E. subst. apply Map_get_set_eq.
  - apply String.eqb_neq in E. by apply Map_get_set_ne.
Qed.

Lemma Map_get_None m k : Map_get m k = None ↔ k ∉ (m.*1).
Proof.
  induction m as [|[k' v'] m IH]; simpl.
  - split; [intros _; apply not_elem_of_nil | done].
  - rewrite not_elem_of_cons. destruct (k' =? k) eqn:E.
    + apply String.eqb_eq in E. subst. split; [done | intros [? _]; done].
    + apply String.eqb_neq in E. rewrite IH. split; [|tauto].
      intros H. split; [congruence | done].
Qed.

Lemma Map_get_elem m k v : Map_get m k = Some v → (k, v) ∈ m.
Proof.
  induction m as [|[k' v'] m IH]; simpl; [done|].
  destruct (k' =? k) eqn:E.
  - apply String.eqb_eq in E. intros [= ->]. subst. apply elem_of_cons. by left.
  - intros H. apply elem_of_cons. right. by apply IH.
Qed.

Lemma Map_elem_get m k v : NoDup (m.*1) → (k, v) ∈ m → Map_get m k = Some v.
Proof.
  induction m as [|[k' v'] m IH]; simpl; [by intros _ ?%elem_of_nil|].
  rewrite NoDup_cons. intros [Hk Hnd] Hin.
  apply elem_of_cons in Hin as [[= -> ->]|Hin].
  - by rewrite String.eqb_refl.
  - destruct (k' =? k) eqn:E.
    + apply String.eqb_eq in E. subst. exfalso. apply Hk.
      apply list_elem_of_fmap. by exists (k, v).
    + by apply IH.
Qed.

Lemma Map_set_keys m k v :
  (Map_set m k v).*1 = if Map_has m k then (m.*1) else (m.*1) ++ [k].
Proof.
  unfold Map_has. induction m as [|[k' v'] m IH]; [done|].
  cbn [Map_set Map_get]. destruct (k' =? k) eqn:E; [done|].
  rewrite !fmap_cons, IH. by destruct (Map_get m k).
Qed.

Lemma Map_set_NoDup m k v : NoDup (m.*1) → NoDup ((Map_set m k v).*1).
Proof.
  intros Hnd. rewrite Map_set_keys. unfold Map_has.
  destruct (Map_get m k) eqn:E; [done|].
  apply Map_get_None in E. apply NoDup_app. repeat split; [done| |].
  - intros x Hx. rewrite list_elem_of_singleton. intros ->. done.
  - apply NoDup_singleton.
Qed.

End JsMapFacts.

Lemma forEach_from_app {A St : Type} (f : St → nat → A → St)
    (l1 l2 : list A) (i : nat) (s : St) :
  forEach_from f i (l1 ++ l2) s
  = forEach_from f (i + length l1) l2 (forEach_from f i l1 s).
Proof.
  revert i s. induction l1 as [|x l1 IH]; intros i s; simpl.
  - by rewrite Nat.add_0_r.
  - rewrite IH. f_equal. lia.
Qed.

Lemma forEach_snoc {A St : Type} (f : St → nat → A → St)
    (l : list A) (x : A) (s : St) :
  forEach f (l ++ [x]) s = f (forEach f l s) (length l) x.
Proof. unfold forEach. by rewrite forEach_from_app. Qed.

(** ** First and last occurrences *)

Section Occurrences.
Context {A : Type} (P : A → Prop).
Implicit Types (l : list A) (x : A) (i : nat).

Lemma lookup_snoc_Some l x i y :
  (l ++ [x]) !! i = Some y ↔ l !! i = Some y ∨ (i = length l ∧ y = x).
Proof.
  destruct (decide (i < length l)) as [Hlt|Hge].
  - rewrite lookup_app_l by done. split; [by left|].
    intros [?|[-> _]]; [done | lia].
  - rewrite lookup_app_r by lia. split.
    + intros H. right. destruct (i - length l) as [|n] eqn:E; simpl in H.
      * split; [lia | congruence].
      * by destruct n.
    + intros [H|[-> ->]].
      * apply lookup_lt_Some in H. lia.
      * by rewrite Nat.sub_diag.
Qed.

Lemma last_index_snoc_yes l x i :
  P x → last_index P (l ++ [x]) i ↔ i = length l.
Proof.
  intros HP. split.
  - intros [(y & Hy & _) Hlast].
    apply lookup_snoc_Some in Hy as [Hy|[-> _]]; [|done].
    apply lookup_lt_Some in Hy. exfalso.
    apply (Hlast (length l) x); [done| |done].
    apply lookup_snoc_Some. by right.
  - intros ->. split.
    + exists x. split; [|done]. apply lookup_snoc_Some. by right.
    + intros j y Hj Hy. apply lookup_lt_Some in Hy.
      rewrite length_app in Hy. simpl in Hy. lia.
Qed.

Lemma last_index_snoc_no l x i :
  ¬ P x → last_index P (l ++ [x]) i ↔ last_index P l i.
Proof.
  intros HP. split.
  - intros [(y & Hy & HPy) Hlast]. split.
    + exists y. split; [|done].
      apply lookup_snoc_Some in Hy as [Hy|[_ ->]]; done.
    + intros j z Hj Hz. apply (Hlast j z Hj).
      apply lookup_snoc_Some. by left.
  - intros [(y & Hy & HPy) Hlast]. split.
    + exists y. split; [|done]. apply lookup_snoc_Some. by left.
    + intros j z Hj Hz. apply lookup_snoc_Some in Hz as [Hz|[_ ->]]; [|done].
      by apply (Hlast j z Hj).
Qed.

Lemma first_index_snoc_old l x i :
  first_index P l i → first_index P (l ++ [x]) i.
Proof.
  intros [(y & Hy & HPy) Hfirst]. split.
  - exists y. split; [|done]. apply lookup_snoc_Some. by left.
  - intros j z Hj Hz. apply lookup_snoc_Some in Hz as [Hz|[-> _]].
    + by apply (Hfirst j z Hj).
    + apply lookup_lt_Some in Hy. lia.
Qed.

Lemma first_index_snoc_new l x :
  P x → (∀ y, y ∈ l → ¬ P y) → first_index P (l ++ [x]) (length l).
Proof.
  intros HP Hnone. split.
  - exists x. split; [|done]. apply lookup_snoc_Some. by right.
  - intros j z Hj Hz. apply lookup_snoc_Some in Hz as [Hz|[-> _]]; [|lia].
    apply Hnone. by eapply list_elem_of_lookup_2.
Qed.

Lemma first_index_unique l i j :
  first_index P l i → first_index P l j → i = j.
Proof.
  intros [(x & Hx & HPx) Hi] [(y & Hy & HPy) Hj].
  destruct (Nat.lt_trichotomy i j) as [Hlt|[->|Hlt]]; [|done|].
  - by destruct (Hj i x Hlt Hx).
  - by destruct (Hi j y Hlt Hy).
Qed.

Lemma last_index_unique l i j :
  last_index P l i → last_index P l j → i = j.
Proof.
  intros [(x & Hx & HPx) Hi] [(y & Hy & HPy) Hj].
  destruct (Nat.lt_trichotomy i j) as [Hlt|[->|Hlt]]; [|done|].
  - by destruct (Hi j y Hlt Hy).
  - by destruct (Hj i x Hlt Hx).
Qed.
End Occurrences.

(** ** The consolidator's scan *)

Lemma scan_events_snoc (l : list StreamEvent) (e : StreamEvent) :
  scan_events (l ++ [e]) = process_event (scan_events l) (length l) e.
Proof. unfold scan_events. apply forEach_snoc. Qed.

Lemma starts_toolCall_guard (e : StreamEvent) :
  type_eqb (ev_type e) tool_call_start && truthy_str (payload_toolCallId e)
  = true ↔ ∃ id, starts_toolCall id e.
Proof.
  unfold starts_toolCall.
  rewrite andb_true_iff, type_eqb_spec, truthy_str_Some. split.
  - intros [Ht (id & Hid & Hne)]. by exists id.
  - intros (id & Ht & Hid & Hne). split; [done | by exists id].
Qed.

Lemma starts_toolCall_inj (e : StreamEvent) (id id' : string) :
  starts_toolCall id e → starts_toolCall id' e → id = id'.
Proof. intros (_ & H & _) (_ & H' & _). congruence. Qed.

Lemma toolCall_step_start m idx e id :
  starts_toolCall id e → toolCall_step m idx e = Map_set m id idx.
Proof.
  intros H. unfold toolCall_step.
  assert (∃ id, starts_toolCall id e) as ->%starts_toolCall_guard by eauto.
  destruct H as (_ & -> & _). done.
Qed.

Lemma toolCall_step_other m idx e :
  (∀ id, ¬ starts_toolCall id e) → toolCall_step m idx e = m.
Proof.
  intros H. unfold toolCall_step.
  destruct (type_eqb _ _ && _) eqn:E; [|done].
  apply starts_toolCall_guard in E as [id Hid]. by destruct (H id).
Qed.

Lemma starts_toolCall_cases (e : StreamEvent) :
  (∃ id, starts_toolCall id e) ∨ (∀ id, ¬ starts_toolCall id e).
Proof.
  destruct (type_eqb (ev_type e) tool_call_start
            && truthy_str (payload_toolCallId e)) eqn:E.
  - left. by apply starts_toolCall_guard.
  - right. intros id H.
    assert (∃ id, starts_toolCall id e) as Hex by eauto.
    apply starts_toolCall_guard in Hex. congruence.
Qed.

(** The tool-call map after the scan: each key is mapped to the index of
    the last tool-call-start that names it. *)
Lemma toolCallMap_last (events : list StreamEvent) :
  NoDup ((scan_events events).2.*1)
  ∧ ∀ id i, Map_get (scan_events events).2 id = Some i
            ↔ last_index (starts_toolCall id) events i.
Proof.
  induction events as [|e l [IHnd IH]] using rev_ind.
  - split; [apply NoDup_nil_2|]. intros id i. simpl. split; [done|].
    intros [(x & Hx & _) _]. done.
  - rewrite scan_events_snoc. simpl.
    destruct (starts_toolCall_cases e) as [[id0 H0]|Hno].
    + rewrite (toolCall_step_start _ _ _ _ H0). split.
      * by apply Map_set_NoDup.
      * intros id i. rewrite Map_get_set. destruct (id0 =? id) eqn:E.
        -- apply String.eqb_eq in E. subst id0.
           rewrite last_index_snoc_yes by done. split; congruence.
        -- apply String.eqb_neq in E. rewrite IH.
           rewrite last_index_snoc_no; [done|].
           intros H. apply E. by eapply starts_toolCall_inj.
    + rewrite toolCall_step_other by done. split; [done|].
      intros id i. rewrite IH. by rewrite last_index_snoc_no.
Qed.

Lemma chunk_of_guard (e : StreamEvent) :
  (isTextChunk (ev_type e) || isStructuredChunk (ev_type e))
  && truthy_str (payload_messageId e) = true ↔ ∃ id, chunk_of id e.
Proof.
  unfold chunk_of. rewrite andb_true_iff, truthy_str_Some. split.
  - intros [Ht (id & Hid & Hne)]. by exists id.
  - intros (id & Ht & Hid & Hne). split; [done | by exists id].
Qed.

Lemma chunk_of_inj (e : StreamEvent) (id id' : string) :
  chunk_of id e → chunk_of id' e → id = id'.
Proof. intros (_ & H & _) (_ & H' & _). congruence. Qed.

Lemma chunk_of_payload (e : StreamEvent) (id : string) :
  chunk_of id e → ∃ p, ev_payload e = Some p ∧ pl_messageId p = Some id.
Proof.
  intros (_ & H & _). unfold payload_messageId in H.
  destruct (ev_payload e) as [p|]; [|done]. by exists p.
Qed.

Lemma message_step_chunk m idx e id p :
  chunk_of id e → ev_payload e = Some p →
  message_step m idx e =
    match Map_get m id with
    | Some item => Map_set m id (update_message item e p)
    | None => Map_set m id (new_message id e p idx)
    end.
Proof.
  intros H Hp. unfold message_step.
  assert (∃ id, chunk_of id e) as ->%chunk_of_guard by eauto.
  destruct H as (_ & H & _). rewrite Hp, H. unfold Map_has.
  by destruct (Map_get m id).
Qed.

Lemma message_step_other m idx e :
  (∀ id, ¬ chunk_of id e) → message_step m idx e = m.
Proof.
  intros H. unfold message_step.
  destruct (_ && _) eqn:E; [|done].
  apply chunk_of_guard in E as [id Hid]. by destruct (H id).
Qed.

Lemma chunk_of_cases (e : StreamEvent) :
  (∃ id, chunk_of id e) ∨ (∀ id, ¬ chunk_of id e).
Proof.
  destruct ((isTextChunk (ev_type e) || isStructuredChunk (ev_type e))
            && truthy_str (payload_messageId e)) eqn:E.
  - left. by apply chunk_of_guard.
  - right. intros id H.
    assert (∃ id, chunk_of id e) as Hex by eauto.
    apply chunk_of_guard in Hex. congruence.
Qed.

(** The message map after the scan: a message exists exactly when a chunk
    of it was seen, it keeps its key, and its [orderIndex] is the index of
    the first chunk. *)
Lemma messageMap_first (events : list StreamEvent) :
  NoDup ((scan_events events).1.*1)
  ∧ (∀ id, Map_get (scan_events events).1 id = None
           ↔ ∀ e, e ∈ events → ¬ chunk_of id e)
  ∧ ∀ id d, Map_get (scan_events events).1 id = Some d →
            msg_messageId d = id
            ∧ first_index (chunk_of id) events (msg_orderIndex d).
Proof.
  induction events as [|e l (IHnd & IHnone & IH)] using rev_ind.
  - split; [apply NoDup_nil_2|]. split; [|done].
    intros id. split; [|done]. by intros _ e ?%elem_of_nil.
  - rewrite scan_events_snoc. simpl.
    destruct (chunk_of_cases e) as [[id0 H0]|Hno].
    + destruct (chunk_of_payload _ _ H0) as (p & Hp & _).
      rewrite (message_step_chunk _ _ _ _ _ H0 Hp).
      assert (∀ id, id0 ≠ id → ¬ chunk_of id e) as Hother.
      { intros id Hne H. apply Hne. by eapply chunk_of_inj. }
      destruct (Map_get (scan_events l).1 id0) as [item|] eqn:Hget.
      * split; [by apply Map_set_NoDup|]. split.
        -- intros id. rewrite Map_get_set. destruct (id0 =? id) eqn:E.
           ++ apply String.eqb_eq in E. subst id0. split; [done|].
              intros H. destruct (H e); [|done].
              apply elem_of_app. right. by apply list_elem_of_singleton.
           ++ apply String.eqb_neq in E. rewrite IHnone.
              setoid_rewrite elem_of_app.
              setoid_rewrite list_elem_of_singleton. split.
              ** intros H x [Hx| ->]; [by apply H | by apply Hother].
              ** intros H x Hx. apply H. by left.
        -- intros id d. rewrite Map_get_set. destruct (id0 =? id) eqn:E.
           ++ apply String.eqb_eq in E. subst id0. intros [= <-]. simpl.
              destruct (IH _ _ Hget) as [Hid Hfirst]. split; [done|].
              by apply first_index_snoc_old.
           ++ intros Hd. destruct (IH _ _ Hd) as [Hid Hfirst].
              split; [done|]. by apply first_index_snoc_old.
      * split; [by apply Map_set_NoDup|]. split.
        -- intros id. rewrite Map_get_set. destruct (id0 =? id) eqn:E.
           ++ apply String.eqb_eq in E. subst id0. split; [done|].
              intros H. destruct (H e); [|done].
              apply elem_of_app. right. by apply list_elem_of_singleton.
           ++ apply String.eqb_neq in E. rewrite IHnone.
              setoid_rewrite elem_of_app.
              setoid_rewrite list_elem_of_singleton. split.
              ** intros H x [Hx| ->]; [by apply H | by apply Hother].
              ** intros H x Hx. apply H. by left.
        -- intros id d. rewrite Map_get_set. destruct (id0 =? id) eqn:E.
           ++ apply String.eqb_eq in E. subst id0. intros [= <-]. simpl.
              split; [done|]. apply first_index_snoc_new; [done|].
              by apply IHnone.
           ++ intros Hd. destruct (IH _ _ Hd) as [Hid Hfirst].
              split; [done|]. by apply first_index_snoc_old.
    + rewrite message_step_other by done. split; [done|]. split.
      * intros id. rewrite IHnone. setoid_rewrite elem_of_app.
        setoid_rewrite list_elem_of_singleton. split.
        -- intros H x [Hx| ->]; [by apply H | done].
        -- intros H x Hx. apply H. by left.
      * intros id d Hd. destruct (IH _ _ Hd) as [Hid Hfirst].
        split; [done|]. by apply first_index_snoc_old.
Qed.

(** ** The sort of the ordered items *)

Lemma insert_item_perm (x : OrderedItem) (l : list OrderedItem) :
  insert_item x l ≡ₚ x :: l.
Proof.
  induction l as [|y l IH]; simpl; [done|].
  destruct (orderIndex y <? orderIndex x)%nat; [|done].
  rewrite IH. apply Permutation_swap.
Qed.

Lemma sort_items_perm (l : list OrderedItem) : sort_items l ≡ₚ l.
Proof.
  induction l as [|x l IH]; simpl; [done|].
  by rewrite insert_item_perm, IH.
Qed.

Lemma insert_item_sorted (x : OrderedItem) (l : list OrderedItem) :
  StronglySorted index_le l → StronglySorted index_le (insert_item x l).
Proof.
  induction 1 as [|y l Hs IH Hall]; simpl.
  - by repeat constructor.
  - destruct (orderIndex y <? orderIndex x)%nat eqn:E.
    + apply Nat.ltb_lt in E. constructor; [done|].
      rewrite insert_item_perm. constructor; [|done]. unfold index_le. lia.
    + apply Nat.ltb_ge in E. constructor; [by constructor|].
      constructor; [done|].
      eapply Forall_impl; [exact Hall|]. unfold index_le. intros z Hz. lia.
Qed.

Lemma sort_items_sorted (l : list OrderedItem) :
  StronglySorted index_le (sort_items l).
Proof.
  induction l as [|x l IH]; simpl; [constructor|].
  by apply insert_item_sorted.
Qed.

Lemma StronglySorted_ascending (l : list OrderedItem) :
  StronglySorted index_le l → ascending l.
Proof.
  induction 1 as [|x l Hs IH Hall]; intros i j a b Hij Ha Hb; [done|].
  destruct j as [|j]; [lia|]. simpl in Hb. destruct i as [|i].
  - simpl in Ha. injection Ha as <-.
    rewrite Forall_forall in Hall. apply Hall.
    by eapply list_elem_of_lookup_2.
  - simpl in Ha. apply (IH i j a b); [lia|done|done].
Qed.

Lemma orderedItems_elem (events : list StreamEvent) (x : OrderedItem) :
  x ∈ orderedItems events
  ↔ x ∈ message_items (scan_events events).1
    ∨ x ∈ toolCall_items (scan_events events).2.
Proof. unfold orderedItems. by rewrite sort_items_perm, elem_of_app. Qed.

Lemma toolCallItem_elem (events : list StreamEvent) (id : string) (i : nat) :
  ToolCallItem id i ∈ orderedItems events
  ↔ Map_get (scan_events events).2 id = Some i.
Proof.
  rewrite orderedItems_elem. unfold message_items, toolCall_items. split.
  - intros [H|H].
    + apply list_elem_of_In, in_map_iff in H as (kv & Hkv & _). done.
    + apply list_elem_of_In, in_map_iff in H as ([k v] & [= -> ->] & Hin).
      apply Map_elem_get; [apply toolCallMap_last|]. by apply list_elem_of_In.
  - intros H. right. apply list_elem_of_In, in_map_iff.
    exists (id, i). split; [done|]. by apply list_elem_of_In, Map_get_elem.
Qed.

Lemma messageItem_elem (events : list StreamEvent) (id : string)
    (d : MessageData) (i : nat) :
  MessageItem id d i ∈ orderedItems events
  ↔ Map_get (scan_events events).1 id = Some d ∧ i = msg_orderIndex d.
Proof.
  rewrite orderedItems_elem. unfold message_items, toolCall_items. split.
  - intros [H|H].
    + apply list_elem_of_In, in_map_iff in H as ([k v] & [= -> -> ->] & Hin).
      split; [|done].
      apply Map_elem_get; [apply messageMap_first|]. by apply list_elem_of_In.
    + apply list_elem_of_In, in_map_iff in H as (kv & Hkv & _). done.
  - intros [H ->]. left. apply list_elem_of_In, in_map_iff.
    exists (id, d). split; [done|]. by apply list_elem_of_In, Map_get_elem.
Qed.

(** ** Interleaving order (C2) *)

(** C2, as amended: in the consolidator's output every tool-call item
    carries the index of the LAST tool-call-start event that names its
    toolCallId (the map entry is overwritten by each such event), every
    message item carries the index of the first chunk of its messageId, and
    the merged list is in ascending order of these indices. *)
Theorem orderedItems_indices_and_order (events : list StreamEvent) :
  (∀ id i, ToolCallItem id i ∈ orderedItems events
           ↔ last_index (starts_toolCall id) events i)
  ∧ (∀ id d i, MessageItem id d i ∈ orderedItems events →
               first_index (chunk_of id) events i)
  ∧ ascending (orderedItems events).
Proof.
  split; [|split].
  - intros id i. rewrite toolCallItem_elem. apply toolCallMap_last.
  - intros id d i [Hget ->]%messageItem_elem.
    by apply (messageMap_first events).
  - apply StronglySorted_ascending, sort_items_sorted.
Qed.

(** C2, as stated, fails: when a tool call is started twice, its item
    carries the index of the second start and is placed after a message
    that arrived between the two. *)
Lemma toolCall_item_not_first_seen :
  orderedItems restarted_toolCall
  = [ MessageItem "m1"
        (mkMessage "m1" (textChunk "A" "t1" "m1" None (JString "Hi"))
           "" (JString "Hi") "" JUndefined "" 1) 1;
      ToolCallItem "t1" 2 ]
  ∧ first_index (starts_toolCall "t1") restarted_toolCall 0
  ∧ ¬ (∀ id i, ToolCallItem id i ∈ orderedItems restarted_toolCall →
               first_index (starts_toolCall id) restarted_toolCall i).
Proof.
  assert (first_index (starts_toolCall "t1") restarted_toolCall 0) as Hfirst.
  { split; [|intros j y Hj; lia].
    eexists. split; [reflexivity|]. by repeat split. }
  split; [reflexivity|]. split; [done|].
  intros H. specialize (H "t1" 2).
  assert (2 = 0); [|done].
  eapply first_index_unique; [|exact Hfirst].
  apply H. apply list_elem_of_In. simpl. auto.
Qed.

Lemma orderedItems_indices_and_order_witness :
  last_index (starts_toolCall "t1") restarted_toolCall 2.
Proof.
  destruct (orderedItems_indices_and_order restarted_toolCall) as [H _].
  apply H. apply list_elem_of_In. simpl. auto.
Defined.

(** ** Duplicate suppression (C3, C9) *)

(** C3: appending a candidate twice yields the same event list, and hence
    the same derived tree and consolidated items, as appending it once; and
    an append is a no-op whenever the list already holds an event with the
    candidate's (runId, type, timestamp, payload.messageId). *)
Theorem appendEvent_idempotent (events : list StreamEvent)
    (candidate : StreamEvent) :
  let once := appendEvent events (Some candidate) in
  let twice := appendEvent once (Some candidate) in
  twice = once
  ∧ buildExecutionTree twice = buildExecutionTree once
  ∧ consolidated_items <$> buildExecutionTree twice
    = consolidated_items <$> buildExecutionTree once
  ∧ ∀ l e, e ∈ l → agrees e candidate → appendEvent l (Some candidate) = l.
Proof.
  intros once twice.
  assert (twice = once) as -> by apply appendEvent_twice.
  repeat split. intros l e. apply appendEvent_duplicate.
Qed.

Lemma appendEvent_idempotent_witness :
  appendEvent (appendEvent [] (Some first_delivery)) (Some first_delivery)
  = appendEvent [] (Some first_delivery)
  ∧ appendEvent [first_delivery] (Some first_delivery) = [first_delivery].
Proof.
  destruct (appendEvent_idempotent [] first_delivery) as (H1 & _ & _ & H2).
  split; [exact H1|].
  apply (H2 [first_delivery] first_delivery).
  - apply list_elem_of_singleton. reflexivity.
  - repeat split.
Defined.

(** C9: a candidate that agrees with an event already in the list on runId,
    type, timestamp and payload.messageId is discarded whatever its other
    payload fields are: the list, the tree and the consolidated items stay
    as they were, and the candidate itself never enters the list. *)
Theorem duplicate_key_discards_payload (events : list StreamEvent)
    (E candidate : StreamEvent) :
  E ∈ events → agrees candidate E →
  appendEvent events (Some candidate) = events
  ∧ buildExecutionTree (appendEvent events (Some candidate))
    = buildExecutionTree events
  ∧ consolidated_items <$> buildExecutionTree (appendEvent events (Some candidate))
    = consolidated_items <$> buildExecutionTree events
  ∧ (candidate ∉ events → candidate ∉ appendEvent events (Some candidate)).
Proof.
  intros Hin Hk.
  assert (appendEvent events (Some candidate) = events) as ->.
  { eapply appendEvent_duplicate; [exact Hin | by apply agrees_sym]. }
  done.
Qed.

Lemma duplicate_key_discards_payload_witness :
  altered_delivery ≠ first_delivery
  ∧ appendEvent [first_delivery] (Some altered_delivery) = [first_delivery]
  ∧ altered_delivery ∉ appendEvent [first_delivery] (Some altered_delivery).
Proof.
  destruct (duplicate_key_discards_payload [first_delivery] first_delivery
              altered_delivery) as (H1 & _ & _ & H2).
  - apply list_elem_of_singleton. reflexivity.
  - repeat split.
  - split; [discriminate|]. split; [exact H1|].
    apply H2. intros H. apply list_elem_of_singleton in H. discriminate.
Defined.

(** ** Step 1: grouping by run *)

Lemma group_events_snoc (l : list StreamEvent) (e : StreamEvent)
    (acc : ExecutionTree) :
  group_events (l ++ [e]) acc
  = match group_events l acc with
    | Some nodes => group_event nodes e
    | None => None
    end.
Proof.
  revert acc. induction l as [|x l IH]; intros acc; simpl.
  - by destruct (group_event acc e).
  - destruct (group_event acc x); [apply IH | done].
Qed.

Lemma bucket_snoc (rid : string) (l : list StreamEvent) (e : StreamEvent) :
  bucket rid (l ++ [e])
  = bucket rid l ++ (if ev_runId e =? rid then [e] else []).
Proof.
  unfold bucket. rewrite List.filter_app. simpl.
  by destruct (ev_runId e =? rid).
Qed.

Lemma bucket_elem (rid : string) (l : list StreamEvent) (e : StreamEvent) :
  e ∈ bucket rid l ↔ e ∈ l ∧ ev_runId e = rid.
Proof.
  unfold bucket. rewrite !list_elem_of_In, List.filter_In, String.eqb_eq. done.
Qed.

Lemma initial_node_snoc_other (rid : string) (l : list StreamEvent)
    (e : StreamEvent) :
  ev_runId e ≠ rid → initial_node rid (l ++ [e]) = initial_node rid l.
Proof.
  intros Hne. unfold initial_node. rewrite bucket_snoc.
  apply String.eqb_neq in Hne. rewrite Hne. by rewrite app_nil_r.
Qed.

Lemma initial_node_snoc_push (l : list StreamEvent) (e : StreamEvent)
    (node : ExecutionNode) :
  initial_node (ev_runId e) l = Some node →
  initial_node (ev_runId e) (l ++ [e]) = Some (push_event node e).
Proof.
  unfold initial_node. rewrite bucket_snoc, String.eqb_refl.
  destruct (ev_runId e =? ""); [done|].
  destruct (bucket (ev_runId e) l) as [|first rest]; [done|].
  intros [= <-]. done.
Qed.

Lemma initial_node_snoc_new (l : list StreamEvent) (e : StreamEvent) :
  ev_runId e ≠ "" → initial_node (ev_runId e) l = None →
  initial_node (ev_runId e) (l ++ [e])
  = Some (mkNode (ev_runId e) (or_null (ev_parentId e))
            (or_null (ev_toolCallId e)) (or_null (ev_agentId e))
            [e] [] None None).
Proof.
  intros Hne. unfold initial_node. rewrite bucket_snoc, String.eqb_refl.
  apply String.eqb_neq in Hne. rewrite Hne.
  by destruct (bucket (ev_runId e) l).
Qed.

(** Step 1 raises exactly when some event carries a [runId] that names a
    member of [Object.prototype]; otherwise it leaves one node per run. *)
Lemma group_events_spec (l : list StreamEvent) :
  match group_events l [] with
  | Some nodes =>
      NoDup (nodes.*1)
      ∧ (∀ e, e ∈ l → inherited (ev_runId e) = false)
      ∧ ∀ rid, Map_get nodes rid = initial_node rid l
  | None => ∃ e, e ∈ l ∧ inherited (ev_runId e) = true
  end.
Proof.
  induction l as [|e l IH] using rev_ind.
  - simpl. split; [apply NoDup_nil_2|]. split; [by intros e ?%elem_of_nil|].
    intros rid. unfold initial_node. simpl. by destruct (rid =? "").
  - rewrite group_events_snoc.
    destruct (group_events l []) as [nodes|]; cycle 1.
    { destruct IH as (x & Hx & Hi). exists x. split; [|done].
      apply elem_of_app. by left. }
    destruct IH as (Hnd & Hok & Hget). unfold group_event. simpl.
    destruct (ev_runId e =? "") eqn:Hempty; simpl.
    + apply String.eqb_eq in Hempty. split; [done|]. split.
      * intros x [Hx| ->%list_elem_of_singleton]%elem_of_app; [by apply Hok|].
        by rewrite Hempty.
      * intros rid. rewrite Hget. unfold initial_node.
        destruct (rid =? "") eqn:E; [done|]. apply String.eqb_neq in E.
        rewrite bucket_snoc.
        assert ((ev_runId e =? rid) = false) as ->; [|by rewrite app_nil_r].
        apply String.eqb_neq. congruence.
    + apply String.eqb_neq in Hempty. unfold obj_read.
      destruct (Map_get nodes (ev_runId e)) as [node|] eqn:Hnode.
      * split; [by apply Map_set_NoDup|]. split.
        -- intros x [Hx| ->%list_elem_of_singleton]%elem_of_app;
             [by apply Hok|].
           rewrite Hget in Hnode. unfold initial_node in Hnode.
           destruct (ev_runId e =? ""); [done|].
           destruct (bucket (ev_runId e) l) as [|first rest] eqn:Hb; [done|].
           assert (first ∈ bucket (ev_runId e) l) as Hin.
           { rewrite Hb. apply elem_of_cons. by left. }
           apply bucket_elem in Hin as [Hin <-]. by apply Hok.
        -- intros rid. rewrite Map_get_set.
           destruct (ev_runId e =? rid) eqn:E.
           ++ apply String.eqb_eq in E. subst rid. symmetry.
              apply initial_node_snoc_push. by rewrite <- Hget.
           ++ apply String.eqb_neq in E.
              by rewrite initial_node_snoc_other, Hget.
      * destruct (inherited (ev_runId e)) eqn:Hinh.
        { exists e. split; [|done]. apply elem_of_app. right.
          by apply list_elem_of_singleton. }
        split; [by apply Map_set_NoDup|]. split.
        -- intros x [Hx| ->%list_elem_of_singleton]%elem_of_app;
             [by apply Hok | done].
        -- intros rid. rewrite Map_get_set.
           destruct (ev_runId e =? rid) eqn:E.
           ++ apply String.eqb_eq in E. subst rid. symmetry.
              apply initial_node_snoc_new; [done|]. by rewrite <- Hget.
           ++ apply String.eqb_neq in E.
              by rewrite initial_node_snoc_other, Hget.
Qed.

(** ** Maps over values and [Object.values] *)

Section MapValues.
Context {V W : Type} (f : V → W).
Implicit Types (m : list (string * V)) (k : string).

Lemma Map_get_map_values m k :
  Map_get (map_values f m) k = f <$> Map_get m k.
Proof.
  induction m as [|[k' v] m IH]; simpl; [done|].
  by destruct (k' =? k).
Qed.

Lemma map_values_keys m : (map_values f m).*1 = m.*1.
Proof.
  induction m as [|[k' v] m IH]; [done|].
  cbn [map_values List.map]. rewrite !fmap_cons. simpl. f_equal. exact IH.
Qed.

Lemma map_values_set_same m k v v0 :
  Map_get m k = Some v0 → f v = f v0 →
  map_values f (Map_set m k v) = map_values f m.
Proof.
  intros Hget Hf. induction m as [|[k' v'] m IH]; simpl in *; [done|].
  destruct (k' =? k) eqn:E; simpl.
  - injection Hget as ->. by rewrite Hf.
  - f_equal. by apply IH.
Qed.
End MapValues.

Section ObjectValuesFacts.
Context {V : Type}.
Implicit Types (o : list (string * V)) (v : V).

Lemma insert_index_perm (x : N * V) (l : list (N * V)) :
  insert_index x l ≡ₚ x :: l.
Proof.
  induction l as [|y l IH]; simpl; [done|].
  destruct (x.1 <=? y.1)%N; [done|].
  rewrite IH. apply Permutation_swap.
Qed.

Lemma Object_values_elem o v : v ∈ Object_values o ↔ ∃ k, (k, v) ∈ o.
Proof.
  unfold Object_values. rewrite elem_of_app.
  induction o as [|[k' v'] o IH]; simpl.
  - split.
    + intros [H|H]; by apply elem_of_nil in H.
    + intros [k H]. by apply elem_of_nil in H.
  - destruct (array_index k') as [n|] eqn:E.
    + rewrite insert_index_perm, fmap_cons, elem_of_cons. simpl. split.
      * intros [[->|H]|H].
        -- exists k'. apply elem_of_cons. by left.
        -- destruct (proj1 IH (or_introl H)) as [k Hk].
           exists k. apply elem_of_cons. by right.
        -- destruct (proj1 IH (or_intror H)) as [k Hk].
           exists k. apply elem_of_cons. by right.
      * intros [k [[= -> ->]|H]%elem_of_cons]; [by left; left|].
        destruct (proj2 IH (ex_intro _ k H)) as [H'|H'];
          [left; by right | by right].
    + rewrite elem_of_cons. split.
      * intros [H|[->|H]].
        -- destruct (proj1 IH (or_introl H)) as [k Hk].
           exists k. apply elem_of_cons. by right.
        -- exists k'. apply elem_of_cons. by left.
        -- destruct (proj1 IH (or_intror H)) as [k Hk].
           exists k. apply elem_of_cons. by right.
      * intros [k [[= -> ->]|H]%elem_of_cons]; [right; by left|].
        destruct (proj2 IH (ex_intro _ k H)) as [H'|H'];
          [by left | right; by right].
Qed.
End ObjectValuesFacts.

(** ** Step 4: linking *)

Lemma truthy_str_true (s : string) : s ≠ "" → truthy_str (Some s) = true.
Proof. intros H. simpl. by apply negb_true_iff, String.eqb_neq. Qed.

Lemma claims_guard (c : ExecutionNode) :
  truthy_str (node_parentId c) && truthy_str (node_toolCallId c) = true
  ↔ ∃ pid tid, claims pid tid c.
Proof.
  unfold claims. rewrite andb_true_iff, !truthy_str_Some. split.
  - intros [(pid & Hp & Hpne) (tid & Ht & Htne)]. by exists pid, tid.
  - intros (pid & tid & Hp & Ht & Hpne & Htne).
    split; [by exists pid | by exists tid].
Qed.

Lemma claims_cases (c : ExecutionNode) :
  (∃ pid tid, claims pid tid c) ∨ (∀ pid tid, ¬ claims pid tid c).
Proof.
  destruct (truthy_str (node_parentId c) && truthy_str (node_toolCallId c))
    eqn:E.
  - left. by apply claims_guard.
  - right. intros pid tid H.
    assert (∃ pid tid, claims pid tid c) as Hex by eauto.
    apply claims_guard in Hex. congruence.
Qed.

Lemma link_node_claims (nodes : ExecutionTree) (c : ExecutionNode)
    (pid tid : string) :
  claims pid tid c →
  link_node nodes c
  = match obj_read nodes pid with
    | Own parentNode =>
        match Map_get (node_toolCalls parentNode) tid with
        | Some toolCall =>
            Some (Map_set nodes pid
                    (with_toolCalls parentNode
                       (Map_set (node_toolCalls parentNode) tid
                          (set_child toolCall (node_runId c)))))
        | None => Some nodes
        end
    | Inherited => None
    | Undefined => Some nodes
    end.
Proof.
  intros H. unfold link_node.
  assert (∃ pid tid, claims pid tid c) as ->%claims_guard by eauto.
  destruct H as (-> & -> & _). done.
Qed.

Lemma link_node_no_claim (nodes : ExecutionTree) (c : ExecutionNode) :
  (∀ pid tid, ¬ claims pid tid c) → link_node nodes c = Some nodes.
Proof.
  intros H. unfold link_node.
  destruct (truthy_str _ && truthy_str _) eqn:E; [|done].
  apply claims_guard in E as (pid & tid & Hc). by destruct (H pid tid).
Qed.

Lemma bad_link_claims (c : ExecutionNode) (pid tid : string) :
  claims pid tid c → bad_link c = inherited pid.
Proof.
  intros H. unfold bad_link.
  assert (∃ pid tid, claims pid tid c) as ->%claims_guard by eauto.
  destruct H as (-> & _). done.
Qed.

Lemma bad_link_no_claim (c : ExecutionNode) :
  (∀ pid tid, ¬ claims pid tid c) → bad_link c = false.
Proof.
  intros H. unfold bad_link.
  destruct (truthy_str _ && truthy_str _) eqn:E; [|done].
  apply claims_guard in E as (pid & tid & Hc). by destruct (H pid tid).
Qed.

(** Linking a node writes [childAgent] fields and nothing else. *)
Lemma link_node_unlinked (nodes nodes' : ExecutionTree) (c : ExecutionNode) :
  link_node nodes c = Some nodes' →
  map_values unlinked nodes' = map_values unlinked nodes.
Proof.
  destruct (claims_cases c) as [(pid & tid & Hc)|Hno].
  - rewrite (link_node_claims _ _ _ _ Hc). unfold obj_read.
    destruct (Map_get nodes pid) as [pn|] eqn:Hpn.
    + destruct (Map_get (node_toolCalls pn) tid) as [tc|] eqn:Htc.
      * intros [= <-]. eapply map_values_set_same; [exact Hpn|].
        unfold unlinked, with_toolCalls. simpl. f_equal.
        by eapply map_values_set_same.
      * by intros [= <-].
    + destruct (inherited pid); [done | by intros [= <-]].
  - rewrite link_node_no_claim by done. by intros [= <-].
Qed.

Lemma link_nodes_unlinked (cs : list ExecutionNode)
    (nodes nodes' : ExecutionTree) :
  link_nodes cs nodes = Some nodes' →
  map_values unlinked nodes' = map_values unlinked nodes.
Proof.
  revert nodes. induction cs as [|c cs IH]; intros nodes; simpl.
  - by intros [= <-].
  - destruct (link_node nodes c) as [n1|] eqn:E; [|done].
    intros H. rewrite (IH _ H). by eapply link_node_unlinked.
Qed.

Lemma unlinked_get (a b : ExecutionTree) (rid : string) :
  map_values unlinked a = map_values unlinked b →
  unlinked <$> Map_get a rid = unlinked <$> Map_get b rid.
Proof. intros H. by rewrite <- !Map_get_map_values, H. Qed.

Lemma unlinked_toolCall_of (a b : ExecutionTree) (pid tid : string) :
  map_values unlinked a = map_values unlinked b →
  erase_child <$> toolCall_of a pid tid = erase_child <$> toolCall_of b pid tid.
Proof.
  intros H. apply (unlinked_get _ _ pid) in H. unfold toolCall_of.
  destruct (Map_get a pid) as [na|], (Map_get b pid) as [nb|];
    simpl in *; try done.
  assert (unlinked na = unlinked nb) as Hu by congruence.
  apply (f_equal node_toolCalls) in Hu. simpl in Hu.
  by rewrite <- !Map_get_map_values, Hu.
Qed.

Lemma link_node_hit (nodes nodes' : ExecutionTree) (c : ExecutionNode)
    (pid tid : string) (tc : ToolCallNode) :
  claims pid tid c → toolCall_of nodes pid tid = Some tc →
  link_node nodes c = Some nodes' →
  childAgent_of nodes' pid tid = Some (node_runId c).
Proof.
  intros Hc Htc. rewrite (link_node_claims _ _ _ _ Hc).
  unfold toolCall_of, obj_read in *.
  destruct (Map_get nodes pid) as [pn|]; [|done]. simpl in Htc.
  rewrite Htc. intros [= <-]. unfold childAgent_of.
  rewrite Map_get_set_eq. simpl. by rewrite Map_get_set_eq.
Qed.

Lemma link_node_miss (nodes nodes' : ExecutionTree) (c : ExecutionNode)
    (pid tid : string) :
  ¬ claims pid tid c → link_node nodes c = Some nodes' →
  childAgent_of nodes' pid tid = childAgent_of nodes pid tid.
Proof.
  intros Hno. destruct (claims_cases c) as [(pid' & tid' & Hc)|Hnone].
  - rewrite (link_node_claims _ _ _ _ Hc). unfold obj_read.
    destruct (Map_get nodes pid') as [pn|] eqn:Hpn.
    + destruct (Map_get (node_toolCalls pn) tid') as [tc|] eqn:Htc.
      * intros [= <-]. unfold childAgent_of. rewrite Map_get_set.
        destruct (pid' =? pid) eqn:Ep; [|done].
        apply String.eqb_eq in Ep. subst pid'. rewrite Hpn. simpl.
        rewrite Map_get_set. destruct (tid' =? tid) eqn:Et; [|done].
        apply String.eqb_eq in Et. subst tid'. done.
      * by intros [= <-].
    + destruct (inherited pid'); [done | by intros [= <-]].
  - rewrite link_node_no_claim by done. by intros [= <-].
Qed.

Lemma claimsb_spec (pid tid : string) (c : ExecutionNode) :
  claimsb pid tid c = true ↔ claims pid tid c.
Proof.
  unfold claimsb, claims.
  rewrite !andb_true_iff, !strict_eq_spec, !negb_true_iff, !String.eqb_neq.
  tauto.
Qed.

Lemma last_claimer_Some (pid tid : string) (cs : list ExecutionNode)
    (c : ExecutionNode) :
  last_claimer pid tid cs = Some c → c ∈ cs ∧ claims pid tid c.
Proof.
  induction cs as [|x cs IH]; simpl; [done|].
  destruct (last_claimer pid tid cs) as [c'|].
  - intros [= ->]. destruct IH as [Hin Hc]; [done|].
    split; [|done]. apply elem_of_cons. by right.
  - destruct (claimsb pid tid x) eqn:E; [|done]. intros [= ->].
    split; [apply elem_of_cons; by left | by apply claimsb_spec].
Qed.

Lemma last_claimer_None (pid tid : string) (cs : list ExecutionNode) :
  last_claimer pid tid cs = None ↔ ∀ c, c ∈ cs → ¬ claims pid tid c.
Proof.
  induction cs as [|x cs IH]; simpl.
  - split; [|done]. by intros _ c ?%elem_of_nil.
  - destruct (last_claimer pid tid cs) as [c'|] eqn:E.
    + split; [done|]. intros H.
      destruct (last_claimer_Some _ _ _ _ E) as [Hin Hc].
      destruct (H c'); [|done]. apply elem_of_cons. by right.
    + destruct (claimsb pid tid x) eqn:Ex.
      * split; [done|]. intros H. apply claimsb_spec in Ex.
        destruct (H x); [|done]. apply elem_of_cons. by left.
      * split; [|done]. intros _ c [->|Hin]%elem_of_cons.
        -- rewrite <- claimsb_spec. congruence.
        -- by apply (proj1 IH).
Qed.

(** After step 4 an existing tool call points at the last node, in the
    order walked, that claims it; unclaimed, it keeps what it had. *)
Lemma link_nodes_childAgent (cs : list ExecutionNode)
    (nodes nodes' : ExecutionTree) (pid tid : string) (tc : ToolCallNode) :
  toolCall_of nodes pid tid = Some tc →
  link_nodes cs nodes = Some nodes' →
  childAgent_of nodes' pid tid
  = match last_claimer pid tid cs with
    | Some c => Some (node_runId c)
    | None => childAgent_of nodes pid tid
    end.
Proof.
  revert nodes tc. induction cs as [|c cs IH]; intros nodes tc Htc; simpl.
  - by intros [= <-].
  - destruct (link_node nodes c) as [n1|] eqn:E; [|done]. intros H.
    assert (∃ tc1, toolCall_of n1 pid tid = Some tc1) as [tc1 Htc1].
    { pose proof (unlinked_toolCall_of n1 nodes pid tid
                    (link_node_unlinked _ _ _ E)) as Hu.
      rewrite Htc in Hu. destruct (toolCall_of n1 pid tid); [eauto|done]. }
    rewrite (IH _ _ Htc1 H).
    destruct (last_claimer pid tid cs); [done|].
    destruct (claimsb pid tid c) eqn:Ec; simpl.
    + apply claimsb_spec in Ec. exact (link_node_hit _ _ _ _ _ _ Ec Htc E).
    + eapply link_node_miss; [|exact E]. rewrite <- claimsb_spec. congruence.
Qed.

(** Step 4 raises exactly when a walked node names a member of
    [Object.prototype] as its parent, no own property having such a name. *)
Lemma link_node_None (nodes : ExecutionTree) (c : ExecutionNode) :
  (∀ k, k ∈ nodes.*1 → inherited k = false) →
  link_node nodes c = None ↔ bad_link c = true.
Proof.
  intros Hkeys. destruct (claims_cases c) as [(pid & tid & Hc)|Hno].
  - rewrite (link_node_claims _ _ _ _ Hc), (bad_link_claims _ _ _ Hc).
    unfold obj_read. destruct (Map_get nodes pid) as [pn|] eqn:Hpn.
    + assert (inherited pid = false) as ->.
      { apply Hkeys. apply list_elem_of_fmap. exists (pid, pn).
        split; [done|]. by apply Map_get_elem. }
      by destruct (Map_get (node_toolCalls pn) tid).
    + by destruct (inherited pid).
  - rewrite link_node_no_claim, bad_link_no_claim by done. done.
Qed.

Lemma link_nodes_None (cs : list ExecutionNode) (nodes : ExecutionTree) :
  (∀ k, k ∈ nodes.*1 → inherited k = false) →
  link_nodes cs nodes = None ↔ ∃ c, c ∈ cs ∧ bad_link c = true.
Proof.
  revert nodes. induction cs as [|c cs IH]; intros nodes Hkeys; simpl.
  - split; [done|]. intros (c & Hc%elem_of_nil & _). done.
  - destruct (link_node nodes c) as [n1|] eqn:E.
    + rewrite IH.
      * assert (bad_link c = false) as Hc.
        { destruct (bad_link c) eqn:Hb; [|done].
          apply (link_node_None nodes c Hkeys) in Hb. congruence. }
        split.
        -- intros (x & Hx & Hb). exists x. split; [|done].
           apply elem_of_cons. by right.
        -- intros (x & [->|Hx]%elem_of_cons & Hb); [congruence|].
           by exists x.
      * intros k Hk. apply Hkeys.
        rewrite <- (map_values_keys unlinked),
          <- (link_node_unlinked _ _ _ E), map_values_keys. done.
    + split; [|done]. intros _. exists c.
      split; [apply elem_of_cons; by left|].
      by apply (link_node_None nodes c Hkeys).
Qed.

(** ** The builder as a whole *)

Lemma buildExecutionTree_unfold (events : list StreamEvent) :
  buildExecutionTree events
  = nodes ← unlinked_tree events; link_nodes (Object_values nodes) nodes.
Proof.
  unfold buildExecutionTree, unlinked_tree.
  by destruct (group_events events []).
Qed.

Lemma initial_node_first (rid : string) (events : list StreamEvent)
    (node : ExecutionNode) :
  initial_node rid events = Some node →
  rid ≠ "" ∧ node_runId node = rid ∧ node_events node = bucket rid events
  ∧ node_toolCalls node = [] 
  ∧ ∃ first, head (bucket rid events) = Some first
             ∧ node_parentId node = or_null (ev_parentId first)
             ∧ node_toolCallId node = or_null (ev_toolCallId first)
             ∧ node_agentId node = or_null (ev_agentId first).
Proof.
  unfold initial_node. destruct (rid =? "") eqn:E; [done|].
  apply String.eqb_neq in E.
  destruct (bucket rid events) as [|first rest]; [done|].
  intros [= <-]. simpl. repeat split; try done. by exists first.
Qed.

Lemma unlinked_tree_spec (events : list StreamEvent) :
  match unlinked_tree events with
  | Some nodes =>
      NoDup (nodes.*1)
      ∧ (∀ e, e ∈ events → inherited (ev_runId e) = false)
      ∧ (∀ k, k ∈ nodes.*1 → inherited k = false)
      ∧ ∀ rid, Map_get nodes rid = derived_node rid events
  | None => ∃ e, e ∈ events ∧ inherited (ev_runId e) = true
  end.
Proof.
  unfold unlinked_tree. pose proof (group_events_spec events) as H.
  destruct (group_events events []) as [nodes|]; simpl; [|done].
  destruct H as (Hnd & Hok & Hget).
  assert (∀ rid, Map_get (map_nodes set_tool_calls (map_nodes set_times nodes))
                   rid = derived_node rid events) as Hget'.
  { intros rid. unfold map_nodes, derived_node.
    change (Map_get (map_values set_tool_calls (map_values set_times nodes)) rid
            = (λ node, set_tool_calls (set_times node))
                <$> initial_node rid events).
    rewrite !Map_get_map_values, Hget. by destruct (initial_node rid events). }
  assert ((map_nodes set_tool_calls (map_nodes set_times nodes)).*1 = nodes.*1)
    as Hkeys.
  { unfold map_nodes.
    change ((map_values set_tool_calls (map_values set_times nodes)).*1
            = nodes.*1).
    by rewrite !map_values_keys. }
  rewrite Hkeys. repeat split; try done.
  intros k Hk.
  destruct (Map_get nodes k) as [node|] eqn:Hnode.
  - rewrite Hget in Hnode.
    destruct (initial_node_first _ _ _ Hnode)
      as (_ & _ & _ & _ & first & Hfirst & _).
    assert (first ∈ bucket k events) as Hin.
    { destruct (bucket k events); [done|]. injection Hfirst as ->.
      apply elem_of_cons. by left. }
    apply bucket_elem in Hin as [Hin <-]. by apply Hok.
  - by apply Map_get_None in Hnode.
Qed.

Lemma Object_values_get (nodes : ExecutionTree) (node : ExecutionNode) :
  NoDup (nodes.*1) →
  node ∈ Object_values nodes ↔ ∃ rid, Map_get nodes rid = Some node.
Proof.
  intros Hnd. rewrite Object_values_elem. split.
  - intros [k Hk]. exists k. by apply Map_elem_get.
  - intros [k Hk]. exists k. by apply Map_get_elem.
Qed.

(** The builder raises exactly on [raises_TypeError]; otherwise it returns
    the unlinked tree with each existing tool call pointing at its last
    claimer. *)
Lemma buildExecutionTree_spec (events : list StreamEvent) :
  match buildExecutionTree events with
  | Some tree =>
      ¬ raises_TypeError events
      ∧ ∃ nodes,
          unlinked_tree events = Some nodes
          ∧ map_values unlinked tree = map_values unlinked nodes
          ∧ ∀ pid tid tc,
              toolCall_of nodes pid tid = Some tc →
              childAgent_of tree pid tid
              = match last_claimer pid tid (Object_values nodes) with
                | Some c => Some (node_runId c)
                | None => childAgent_of nodes pid tid
                end
  | None => raises_TypeError events
  end.
Proof.
  rewrite buildExecutionTree_unfold.
  pose proof (unlinked_tree_spec events) as H.
  destruct (unlinked_tree events) as [nodes|]; simpl; [|by left].
  destruct H as (Hnd & Hok & Hkeys & Hget).
  assert ((∃ c, c ∈ Object_values nodes ∧ bad_link c = true)
          ↔ ∃ rid node, initial_node rid events = Some node
                        ∧ bad_link node = true) as Hbad.
  { split.
    - intros (c & Hc & Hb). apply Object_values_get in Hc as [rid Hc]; [|done].
      rewrite Hget in Hc. unfold derived_node in Hc.
      destruct (initial_node rid events) as [n0|] eqn:Hn0; [|done].
      injection Hc as <-. by exists rid, n0.
    - intros (rid & n0 & Hn0 & Hb).
      exists (set_tool_calls (set_times n0)). split; [|done].
      apply Object_values_get; [done|]. exists rid.
      rewrite Hget. unfold derived_node. by rewrite Hn0. }
  destruct (link_nodes (Object_values nodes) nodes) as [tree|] eqn:E.
  - split.
    + intros [(e & He & Hi)|Hb].
      * rewrite Hok in Hi; done.
      * apply Hbad, (link_nodes_None _ nodes Hkeys) in Hb. congruence.
    + exists nodes. split; [done|]. split; [by eapply link_nodes_unlinked|].
      intros pid tid tc Htc. by eapply link_nodes_childAgent.
  - right. apply Hbad. by apply (link_nodes_None _ nodes Hkeys).
Qed.

(** A node of a built tree is the node steps 1 to 3 derive for its key,
    up to the [childAgent] links. *)
Lemma buildExecutionTree_node (events : list StreamEvent)
    (tree : ExecutionTree) (rid : string) :
  buildExecutionTree events = Some tree →
  unlinked <$> Map_get tree rid = unlinked <$> derived_node rid events.
Proof.
  intros Hb. pose proof (buildExecutionTree_spec events) as H.
  rewrite Hb in H. destruct H as (_ & nodes & Hn & Hu & _).
  pose proof (unlinked_tree_spec events) as H. rewrite Hn in H.
  destruct H as (_ & _ & _ & Hget).
  rewrite <- Hget. by apply unlinked_get.
Qed.

Lemma buildExecutionTree_returns (events : list StreamEvent) :
  ¬ raises_TypeError events → ∃ tree, buildExecutionTree events = Some tree.
Proof.
  intros Hno. pose proof (buildExecutionTree_spec events) as H.
  destruct (buildExecutionTree events) as [tree|]; [by exists tree | done].
Qed.

Lemma built_node (events : list StreamEvent) (tree : ExecutionTree)
    (rid : string) (node : ExecutionNode) :
  buildExecutionTree events = Some tree → Map_get tree rid = Some node →
  rid ≠ "" ∧ node_runId node = rid
  ∧ node_events node = bucket rid events
  ∧ node_startTime node = startTime_of (node_events node)
  ∧ node_endTime node = endTime_of (node_events node)
  ∧ map_values erase_child (node_toolCalls node)
    = map_values erase_child (extract_tool_calls (node_events node) [])
  ∧ ∃ first, head (node_events node) = Some first
             ∧ node_parentId node = or_null (ev_parentId first)
             ∧ node_toolCallId node = or_null (ev_toolCallId first)
             ∧ node_agentId node = or_null (ev_agentId first).
Proof.
  intros Hb Hnode. pose proof (buildExecutionTree_node _ _ rid Hb) as H.
  rewrite Hnode in H. unfold derived_node in H.
  destruct (initial_node rid events) as [n0|] eqn:Hn0; [|done].
  destruct (initial_node_first _ _ _ Hn0)
    as (Hne & Hrid & Hev & Htc & first & Hfirst & Hp & Ht & Ha).
  simpl in H. assert (unlinked node = unlinked (set_tool_calls (set_times n0)))
    as Hu by congruence.
  pose proof (f_equal node_runId Hu) as E1.
  pose proof (f_equal node_events Hu) as E2.
  pose proof (f_equal node_startTime Hu) as E3.
  pose proof (f_equal node_endTime Hu) as E4.
  pose proof (f_equal node_toolCalls Hu) as E5.
  pose proof (f_equal node_parentId Hu) as E6.
  pose proof (f_equal node_toolCallId Hu) as E7.
  pose proof (f_equal node_agentId Hu) as E8.
  simpl in *. rewrite Htc in E5.
  rewrite E1, E2, E3, E4, E5, E6, E7, E8, Hev.
  repeat split; try done. exists first. by rewrite Hp, Ht, Ha.
Qed.

(** ** Start and end times (C8) *)

Lemma find_first_index (p : StreamEvent → bool) (l : list StreamEvent) :
  match find_event p l with
  | Some x => ∃ i, first_index (λ e, p e = true) l i ∧ l !! i = Some x
  | None => ∀ e, e ∈ l → p e = false
  end.
Proof.
  unfold find_event. induction l as [|y l IH]; simpl.
  - by intros e ?%elem_of_nil.
  - destruct (p y) eqn:E.
    + exists 0. split; [|done]. split; [by exists y|]. intros j z Hj. lia.
    + destruct (List.find p l) as [x|].
      * destruct IH as (i & [(x' & Hx' & Hp) Hfirst] & Hx). exists (S i).
        split; [|done]. split; [by exists x'|].
        intros [|j] z Hj Hz; simpl in Hz.
        -- injection Hz as <-. congruence.
        -- apply (Hfirst j z); [lia | done].
      * intros e [->|He]%elem_of_cons; [done | by apply IH].
Qed.

Lemma js_or_nonempty (a : option string) (b : option string) (s : string) :
  a = Some s → s ≠ "" → js_or a b = Some s.
Proof. intros -> H. unfold js_or. by rewrite truthy_str_true. Qed.

Lemma js_or_fallback (t : string) :
  js_or (Some t) None = if t =? "" then None else Some t.
Proof. unfold js_or. simpl. by destruct (t =? ""). Qed.

Lemma first_index_iff {A : Type} (P Q : A → Prop) (l : list A) (i : nat) :
  (∀ x, P x ↔ Q x) → first_index P l i ↔ first_index Q l i.
Proof.
  intros H. unfold first_index. split.
  - intros [(x & Hx & HP) Hf]. split; [exists x; by rewrite <- H|].
    intros j y Hj Hy. rewrite <- H. by apply (Hf j y).
  - intros [(x & Hx & HP) Hf]. split; [exists x; by rewrite H|].
    intros j y Hj Hy. rewrite H. by apply (Hf j y).
Qed.

(** The chain [found?.timestamp || other?.timestamp || null] of step 2. *)
Lemma fallback_time (t : EventType) (evs : list StreamEvent)
    (other : StreamEvent) :
  let time :=
    js_or (ev_timestamp <$> find_event (λ e, type_eqb (ev_type e) t) evs)
      (js_or (ev_timestamp <$> Some other) None) in
  (∀ i s, first_index (λ e, ev_type e = t) evs i → evs !! i = Some s →
          ev_timestamp s ≠ "" → time = Some (ev_timestamp s))
  ∧ (no_timed t evs → time = timestamp_or_null other).
Proof.
  intros time. subst time.
  pose proof (find_first_index (λ e, type_eqb (ev_type e) t) evs) as Hfind.
  assert (∀ i, first_index (λ e, type_eqb (ev_type e) t = true) evs i
               ↔ first_index (λ e, ev_type e = t) evs i) as Hiff.
  { intros i. apply first_index_iff. intros x. apply type_eqb_spec. }
  destruct (find_event _ evs) as [x|]; simpl.
  - destruct Hfind as (i0 & Hi0%Hiff & Hx). split.
    + intros i s Hi Hs Hne.
      assert (i = i0) as -> by (by eapply first_index_unique).
      assert (s = x) as -> by congruence.
      by apply js_or_nonempty.
    + intros [Hnone|(i & s & Hi & Hs & Hts)].
      * destruct (Hnone x); [by eapply list_elem_of_lookup_2|].
        destruct Hi0 as [(y & Hy & Ht) _]. congruence.
      * assert (i = i0) as -> by (by eapply first_index_unique).
        assert (s = x) as -> by congruence.
        unfold js_or at 1. simpl. rewrite Hts. simpl. apply js_or_fallback.
  - split.
    + intros i s [(y & Hy & Ht) _] Hs Hne.
      assert (type_eqb (ev_type y) t = false) as Hf.
      { apply Hfind. by eapply list_elem_of_lookup_2. }
      apply type_eqb_spec in Ht. congruence.
    + intros _. unfold js_or at 1. simpl. apply js_or_fallback.
Qed.

(** C8, as amended: a node of a built tree has a first and a last event;
    its startTime is the timestamp of its first start event when there is
    one with a non-empty timestamp, and otherwise the timestamp of its first
    event, or null when that is empty; its endTime is the timestamp of its
    first finish event when there is one with a non-empty timestamp, and
    otherwise the timestamp of its last event, or null when that is empty. *)
Theorem node_times (events : list StreamEvent) (tree : ExecutionTree)
    (rid : string) (node : ExecutionNode) :
  buildExecutionTree events = Some tree → Map_get tree rid = Some node →
  ∃ first final,
    head (node_events node) = Some first
    ∧ last (node_events node) = Some final
    ∧ (∀ i s, first_index (λ e, ev_type e = start) (node_events node) i →
              node_events node !! i = Some s → ev_timestamp s ≠ "" →
              node_startTime node = Some (ev_timestamp s))
    ∧ (no_timed start (node_events node) →
       node_startTime node = timestamp_or_null first)
    ∧ (∀ i s, first_index (λ e, ev_type e = finish) (node_events node) i →
              node_events node !! i = Some s → ev_timestamp s ≠ "" →
              node_endTime node = Some (ev_timestamp s))
    ∧ (no_timed finish (node_events node) →
       node_endTime node = timestamp_or_null final).
Proof.
  intros Hb Hnode.
  destruct (built_node _ _ _ _ Hb Hnode)
    as (_ & _ & _ & Hs & He & _ & first & Hfirst & _).
  assert (∃ final, last (node_events node) = Some final) as [final Hfinal].
  { destruct (node_events node) as [|x l] using rev_ind; [done|].
    exists x. apply last_snoc. }
  exists first, final. split; [done|]. split; [done|].
  rewrite Hs, He. unfold startTime_of, endTime_of.
  rewrite <- head_lookup, Hfirst.
  replace (length (node_events node) - 1) with (pred (length (node_events node)))
    by lia.
  rewrite <- last_lookup, Hfinal.
  destruct (fallback_time start (node_events node) first) as [H1 H2].
  destruct (fallback_time finish (node_events node) final) as [H3 H4].
  done.
Qed.

Lemma node_times_witness :
  ∃ tree node,
    buildExecutionTree timed_run = Some tree
    ∧ Map_get tree "A" = Some node
    ∧ node_startTime node = Some "t1"
    ∧ node_endTime node = Some "t2".
Proof.
  eexists _, _. split; [vm_compute; reflexivity|].
  split; [vm_compute; reflexivity|].
  match goal with
  | |- node_startTime ?n = _ ∧ _ =>
      destruct (node_times timed_run _ "A" n eq_refl eq_refl)
        as (first & final & _ & _ & Hs & _ & He & _)
  end.
  split.
  - apply (Hs 1 (startEvent "A" "t1" None None)); [|reflexivity|discriminate].
    split; [eexists; split; reflexivity|].
    intros [|j] y Hj Hy Ht; [|lia]. injection Hy as <-. discriminate.
  - apply (He 2 (finishEvent "A" "t2")); [|reflexivity|discriminate].
    split; [eexists; split; reflexivity|].
    intros [|[|j]] y Hj Hy Ht; [| |lia]; injection Hy as <-; discriminate.
Defined.

(** C8, as stated, fails: a run whose start and finish events carry an
    empty timestamp gets the timestamps of its first and last events, not
    those of its start and finish events. *)
Lemma times_not_of_start_and_finish :
  ∃ tree node,
    buildExecutionTree untimed_run = Some tree
    ∧ Map_get tree "A" = Some node
    ∧ first_index (λ e, ev_type e = start) (node_events node) 1
    ∧ node_events node !! 1 = Some (startEvent "A" "" None None)
    ∧ node_startTime node = Some "t0"
    ∧ node_startTime node ≠ Some (ev_timestamp (startEvent "A" "" None None))
    ∧ first_index (λ e, ev_type e = finish) (node_events node) 2
    ∧ node_events node !! 2 = Some (finishEvent "A" "")
    ∧ node_endTime node = Some "t9"
    ∧ node_endTime node ≠ Some (ev_timestamp (finishEvent "A" "")).
Proof.
  eexists _, _. split; [vm_compute; reflexivity|].
  split; [vm_compute; reflexivity|]. simpl.
  repeat split; try done.
  - eexists. split; reflexivity.
  - intros [|j] y Hj Hy Ht; [|lia]. injection Hy as <-. discriminate.
  - eexists. split; reflexivity.
  - intros [|[|j]] y Hj Hy Ht; [| |lia]; injection Hy as <-; discriminate.
Qed.

(** ** Step 3: tool calls and their results (C4, C10) *)

Lemma extract_tool_calls_snoc (l : list StreamEvent) (e : StreamEvent)
    (m : list (string * ToolCallNode)) :
  extract_tool_calls (l ++ [e]) m = extract_event (extract_tool_calls l m) e.
Proof. unfold extract_tool_calls. by rewrite fold_left_app. Qed.

Lemma extract_tool_calls_app (l1 l2 : list StreamEvent)
    (m : list (string * ToolCallNode)) :
  extract_tool_calls (l1 ++ l2) m
  = extract_tool_calls l2 (extract_tool_calls l1 m).
Proof. unfold extract_tool_calls. by rewrite fold_left_app. Qed.

Lemma results_toolCall_guard (e : StreamEvent) :
  type_eqb (ev_type e) tool_result && truthy_str (payload_toolCallId e)
  = true ↔ ∃ id, results_toolCall id e.
Proof.
  unfold results_toolCall.
  rewrite andb_true_iff, type_eqb_spec, truthy_str_Some. split.
  - intros [Ht (id & Hid & Hne)]. by exists id.
  - intros (id & Ht & Hid & Hne). split; [done | by exists id].
Qed.

Lemma starts_not_results (e : StreamEvent) (id id' : string) :
  starts_toolCall id e → ¬ results_toolCall id' e.
Proof. intros (H & _) (H' & _). congruence. Qed.

Lemma extract_event_start m e id :
  starts_toolCall id e →
  ∃ name, extract_event m e = Map_set m id (mkToolCall id name e None None).
Proof.
  intros H. unfold extract_event.
  assert (∃ id, starts_toolCall id e) as ->%starts_toolCall_guard by eauto.
  destruct H as (_ & H & _). rewrite H. unfold payload_toolCallId in H.
  destruct (ev_payload e) as [p|]; [|done]. eauto.
Qed.

Lemma extract_event_result m e id :
  results_toolCall id e →
  extract_event m e
  = match Map_get m id with
    | Some toolCall => Map_set m id (set_result toolCall e)
    | None => m
    end.
Proof.
  intros H. unfold extract_event.
  destruct (type_eqb (ev_type e) tool_call_start && _) eqn:E.
  { apply starts_toolCall_guard in E as [id' H'].
    by destruct (starts_not_results _ _ id H'). }
  assert (∃ id, results_toolCall id e) as ->%results_toolCall_guard by eauto.
  destruct H as (_ & -> & _). done.
Qed.

Lemma extract_event_other m e :
  (∀ id, ¬ starts_toolCall id e) → (∀ id, ¬ results_toolCall id e) →
  extract_event m e = m.
Proof.
  intros Hs Hr. unfold extract_event.
  destruct (type_eqb (ev_type e) tool_call_start && _) eqn:E.
  { apply starts_toolCall_guard in E as [id H]. by destruct (Hs id). }
  destruct (type_eqb (ev_type e) tool_result && _) eqn:E'; [|done].
  apply results_toolCall_guard in E' as [id H]. by destruct (Hr id).
Qed.

Lemma results_toolCall_cases (e : StreamEvent) :
  (∃ id, results_toolCall id e) ∨ (∀ id, ¬ results_toolCall id e).
Proof.
  destruct (type_eqb (ev_type e) tool_result
            && truthy_str (payload_toolCallId e)) eqn:E.
  - left. by apply results_toolCall_guard.
  - right. intros id H.
    assert (∃ id, results_toolCall id e) as Hex by eauto.
    apply results_toolCall_guard in Hex. congruence.
Qed.

(** A tool-result for a tool call that no earlier event of the node started
    leaves the map as it is. *)
Lemma extract_event_orphan (r : StreamEvent) (id : string)
    (m : list (string * ToolCallNode)) :
  results_toolCall id r → Map_get m id = None → extract_event m r = m.
Proof. intros Hr Hm. by rewrite (extract_event_result _ _ _ Hr), Hm. Qed.

Lemma toolCall_sound_snoc (l : list StreamEvent) (e : StreamEvent)
    (id : string) (tc : ToolCallNode) :
  ¬ starts_toolCall id e → toolCall_sound l id tc →
  toolCall_sound (l ++ [e]) id tc.
Proof.
  intros Hno (Hid & Hc & i & Hlast & Hs & Hr).
  split; [done|]. split; [done|]. exists i.
  split; [by apply last_index_snoc_no|].
  split; [apply lookup_snoc_Some; by left|].
  intros r Hres. destruct (Hr r Hres) as (j & Hij & Hj & Hrj).
  exists j. split; [done|]. split; [|done]. apply lookup_snoc_Some. by left.
Qed.

Lemma no_start_snoc (l : list StreamEvent) (e : StreamEvent) (id : string) :
  ¬ starts_toolCall id e →
  (∀ x, x ∈ l → ¬ starts_toolCall id x)
  ↔ (∀ x, x ∈ l ++ [e] → ¬ starts_toolCall id x).
Proof.
  intros Hno. split.
  - intros H x [Hx| ->%list_elem_of_singleton]%elem_of_app; [by apply H|done].
  - intros H x Hx. apply H. apply elem_of_app. by left.
Qed.

Lemma snoc_elem_last {A : Type} (l : list A) (x : A) : x ∈ l ++ [x].
Proof. apply elem_of_app. right. by apply list_elem_of_singleton. Qed.

(** The tool-call map of a node after step 3. *)
Lemma extract_tool_calls_spec (l : list StreamEvent) :
  NoDup ((extract_tool_calls l []).*1)
  ∧ (∀ id, Map_get (extract_tool_calls l []) id = None
           ↔ ∀ e, e ∈ l → ¬ starts_toolCall id e)
  ∧ ∀ id tc, Map_get (extract_tool_calls l []) id = Some tc →
             toolCall_sound l id tc.
Proof.
  induction l as [|e l (IHnd & IHnone & IH)] using rev_ind.
  - split; [apply NoDup_nil_2|]. split; [|done].
    intros id. split; [|done]. by intros _ e ?%elem_of_nil.
  - rewrite extract_tool_calls_snoc.
    set (m := extract_tool_calls l []) in *.
    destruct (starts_toolCall_cases e) as [[id0 H0]|Hns].
    { destruct (extract_event_start m e id0 H0) as [name ->].
      split; [by apply Map_set_NoDup|]. split.
      - intros id. rewrite Map_get_set. destruct (id0 =? id) eqn:E.
        + apply String.eqb_eq in E. subst id0. split; [done|].
          intros H. destruct (H e); [apply snoc_elem_last | done].
        + apply String.eqb_neq in E. rewrite IHnone. apply no_start_snoc.
          intros H. apply E. by eapply starts_toolCall_inj.
      - intros id tc. rewrite Map_get_set. destruct (id0 =? id) eqn:E.
        + apply String.eqb_eq in E. subst id0. intros [= <-].
          split; [done|]. split; [done|]. exists (length l).
          split; [by apply last_index_snoc_yes|].
          split; [apply lookup_snoc_Some; by right | done].
        + apply String.eqb_neq in E. intros Htc.
          apply toolCall_sound_snoc; [|by apply IH].
          intros H. apply E. by eapply starts_toolCall_inj. }
    destruct (results_toolCall_cases e) as [[id0 H0]|Hnr]; cycle 1.
    { rewrite extract_event_other by done. split; [done|]. split.
      - intros id. rewrite IHnone. by apply no_start_snoc.
      - intros id tc Htc. apply toolCall_sound_snoc; [done | by apply IH]. }
    rewrite (extract_event_result m e id0 H0).
    destruct (Map_get m id0) as [tc0|] eqn:Hget; cycle 1.
    { split; [done|]. split.
      - intros id. rewrite IHnone. by apply no_start_snoc.
      - intros id tc Htc. apply toolCall_sound_snoc; [done | by apply IH]. }
    split; [by apply Map_set_NoDup|]. split.
    + intros id. rewrite Map_get_set. destruct (id0 =? id) eqn:E.
      * apply String.eqb_eq in E. subst id0. split; [done|]. intros H.
        pose proof (proj2 (no_start_snoc l e id (Hns id)) H) as H'.
        apply IHnone in H'. congruence.
      * rewrite IHnone. by apply no_start_snoc.
    + intros id tc. rewrite Map_get_set. destruct (id0 =? id) eqn:E.
      * apply String.eqb_eq in E. subst id0. intros [= <-].
        destruct (IH _ _ Hget) as (Hid & Hc & i & Hlast & Hs & Hr).
        split; [done|]. split; [done|]. exists i.
        split; [by apply last_index_snoc_no|].
        split; [apply lookup_snoc_Some; by left|].
        simpl. intros r [= <-]. exists (length l).
        split; [by eapply lookup_lt_Some|].
        split; [apply lookup_snoc_Some; by right | done].
      * intros Htc. apply toolCall_sound_snoc; [done | by apply IH].
Qed.

Lemma built_toolCall (events : list StreamEvent) (tree : ExecutionTree)
    (rid : string) (node : ExecutionNode) (id : string) :
  buildExecutionTree events = Some tree → Map_get tree rid = Some node →
  erase_child <$> Map_get (node_toolCalls node) id
  = erase_child <$> Map_get (extract_tool_calls (node_events node) []) id.
Proof.
  intros Hb Hnode.
  destruct (built_node _ _ _ _ Hb Hnode) as (_ & _ & _ & _ & _ & Htc & _).
  by rewrite <- !Map_get_map_values, Htc.
Qed.

Lemma buildExecutionTree_None (events : list StreamEvent) :
  buildExecutionTree events = None ↔ raises_TypeError events.
Proof.
  pose proof (buildExecutionTree_spec events) as H.
  destruct (buildExecutionTree events) as [tree|]; [|done].
  destruct H as [H _]. split; [done | by intros ?%H].
Qed.

(** C4: in a built tree, a ToolCallNode holds a resultEvent only if that
    event is a tool-result naming its toolCallId and a tool-call-start
    naming the same toolCallId stands earlier in the same node's event list;
    no entry exists for a toolCallId the node has no tool-call-start for; a
    tool-result with no earlier matching start in its node is dropped: the
    node's tool calls are those of the event list without it.  Step 3 has
    no failing operation; the builder raises only on [raises_TypeError],
    which reads run identifiers alone. *)
Theorem orphan_toolResult_dropped (events : list StreamEvent) :
  (∀ tree rid node id tc r,
     buildExecutionTree events = Some tree → Map_get tree rid = Some node →
     Map_get (node_toolCalls node) id = Some tc → tc_resultEvent tc = Some r →
     ∃ i j s, i < j
              ∧ node_events node !! i = Some s ∧ starts_toolCall id s
              ∧ node_events node !! j = Some r ∧ results_toolCall id r)
  ∧ (∀ tree rid node id,
       buildExecutionTree events = Some tree → Map_get tree rid = Some node →
       (∀ s, s ∈ node_events node → ¬ starts_toolCall id s) →
       Map_get (node_toolCalls node) id = None)
  ∧ (∀ tree rid node l r rest id,
       buildExecutionTree events = Some tree → Map_get tree rid = Some node →
       node_events node = l ++ r :: rest →
       results_toolCall id r → (∀ s, s ∈ l → ¬ starts_toolCall id s) →
       map_values erase_child (node_toolCalls node)
       = map_values erase_child (extract_tool_calls (l ++ rest) []))
  ∧ (buildExecutionTree events = None ↔ raises_TypeError events).
Proof.
  split; [|split; [|split]].
  - intros tree rid node id tc r Hb Hnode Htc Hres.
    pose proof (built_toolCall _ _ _ _ id Hb Hnode) as H. rewrite Htc in H.
    destruct (Map_get (extract_tool_calls (node_events node) []) id)
      as [tc0|] eqn:Hget; [|done].
    assert (erase_child tc = erase_child tc0) as He by (simpl in H; congruence).
    apply (extract_tool_calls_spec (node_events node)) in Hget
      as (_ & _ & i & [(s & Hs & Hstart) _] & Hi & Hr).
    destruct (Hr r) as (j & Hij & Hj & Hrj).
    { rewrite <- Hres. symmetry. exact (f_equal tc_resultEvent He). }
    by exists i, j, s.
  - intros tree rid node id Hb Hnode Hno.
    pose proof (built_toolCall _ _ _ _ id Hb Hnode) as H.
    apply (extract_tool_calls_spec (node_events node)) in Hno.
    rewrite Hno in H. by destruct (Map_get (node_toolCalls node) id).
  - intros tree rid node l r rest id Hb Hnode Hev Hr Hno.
    destruct (built_node _ _ _ _ Hb Hnode) as (_ & _ & _ & _ & _ & -> & _).
    f_equal. rewrite Hev, !extract_tool_calls_app.
    change (r :: rest) with ([r] ++ rest). rewrite extract_tool_calls_app.
    f_equal. simpl. eapply extract_event_orphan; [exact Hr|].
    by apply extract_tool_calls_spec.
  - apply buildExecutionTree_None.
Qed.

Lemma orphan_toolResult_dropped_witness :
  ∃ tree node,
    buildExecutionTree orphan_result_run = Some tree
    ∧ Map_get tree "A" = Some node
    ∧ Map_get (node_toolCalls node) "t9" = None
    ∧ map_values erase_child (node_toolCalls node)
      = map_values erase_child
          (extract_tool_calls
             [ startEvent "A" "t0" None None;
               toolCallStart "A" "t2" "t1" "search";
               toolResult "A" "t3" "t1" (JString "found") ] [])
    ∧ ∃ i j s, i < j
               ∧ node_events node !! i = Some s ∧ starts_toolCall "t1" s
               ∧ node_events node !! j
                 = Some (toolResult "A" "t3" "t1" (JString "found")).
Proof.
  destruct (orphan_toolResult_dropped orphan_result_run)
    as (Hattach & Hnone & Hdrop & _).
  eexists _, _. split; [vm_compute; reflexivity|].
  split; [vm_compute; reflexivity|].
  match goal with
  | |- Map_get (node_toolCalls ?n) _ = _ ∧ _ =>
      pose proof (Hnone _ "A" n "t9" eq_refl eq_refl) as H1;
      pose proof (Hdrop _ "A" n [startEvent "A" "t0" None None]
                    (toolResult "A" "t1" "t9" (JString "lost"))
                    [ toolCallStart "A" "t2" "t1" "search";
                      toolResult "A" "t3" "t1" (JString "found") ] "t9"
                    eq_refl eq_refl eq_refl) as H2;
      pose proof (Hattach _ "A" n "t1" _
                    (toolResult "A" "t3" "t1" (JString "found"))
                    eq_refl eq_refl eq_refl eq_refl) as H3
  end.
  assert (∀ s, s ∈ [startEvent "A" "t0" None None] →
               ¬ starts_toolCall "t9" s) as Hno1.
  { intros s ->%list_elem_of_singleton (Ht & _). discriminate. }
  split.
  - apply H1. intros s Hs (Ht & Hid & _). simpl in Hs.
    repeat (apply elem_of_cons in Hs as [->|Hs]);
      try discriminate; try (vm_compute in Hid; discriminate).
    by apply elem_of_nil in Hs.
  - split.
    + apply H2; [|exact Hno1]. repeat split. discriminate.
    + destruct H3 as (i & j & s & Hij & Hi & Hs & Hj & _). by exists i, j, s.
Defined.

(** Whether the builder raises depends on the run, parent and tool-call
    identifiers of the events alone. *)
Lemma same_ids_sym (a b : StreamEvent) : same_ids a b → same_ids b a.
Proof. intros (H1 & H2 & H3). by repeat split. Qed.

Lemma same_ids_bucket (rid : string) (l l' : list StreamEvent) :
  Forall2 same_ids l l' → Forall2 same_ids (bucket rid l) (bucket rid l').
Proof.
  induction 1 as [|x y l l' Hxy Hl IH]; simpl; [constructor|].
  destruct Hxy as (Hr & Hp & Ht). rewrite <- Hr.
  destruct (ev_runId x =? rid); [|done]. constructor; [|done]. by repeat split.
Qed.

Lemma same_ids_initial_node (rid : string) (l l' : list StreamEvent)
    (node : ExecutionNode) :
  Forall2 same_ids l l' → initial_node rid l = Some node →
  ∃ node', initial_node rid l' = Some node' ∧ bad_link node' = bad_link node.
Proof.
  intros H%(same_ids_bucket rid). unfold initial_node.
  destruct (rid =? ""); [done|].
  destruct H as [|x y b b' (Hr & Hp & Ht) Hb]; [done|].
  intros [= <-]. eexists. split; [done|].
  unfold bad_link. simpl. by rewrite Hp, Ht.
Qed.

Lemma same_ids_raises (l l' : list StreamEvent) :
  Forall2 same_ids l l' → raises_TypeError l → raises_TypeError l'.
Proof.
  intros H [(e & He & Hi)|(rid & node & Hn & Hb)].
  - left. apply list_elem_of_lookup in He as [i He].
    destruct (Forall2_lookup_l _ _ _ _ _ H He) as (e' & He' & (Hr & _)).
    exists e'. split; [by eapply list_elem_of_lookup_2 | by rewrite <- Hr].
  - right. destruct (same_ids_initial_node _ _ _ _ H Hn) as (node' & Hn' & Hb').
    exists rid, node'. split; [done | congruence].
Qed.

Lemma same_ids_outcome (l l' : list StreamEvent) :
  Forall2 same_ids l l' →
  buildExecutionTree l = None ↔ buildExecutionTree l' = None.
Proof.
  intros H. rewrite !buildExecutionTree_None. split.
  - by apply same_ids_raises.
  - apply same_ids_raises. clear -H.
    induction H; constructor; [by apply same_ids_sym | done].
Qed.

Lemma same_ids_refl_list (l : list StreamEvent) : Forall2 same_ids l l.
Proof. induction l; constructor; [by repeat split | done]. Qed.

Lemma start_without_id_no_start (e : StreamEvent) (id : string) :
  start_without_id e → ¬ starts_toolCall id e.
Proof.
  intros [_ Hf] H.
  assert (∃ id, starts_toolCall id e) as Hex by eauto.
  apply starts_toolCall_guard, andb_true_iff in Hex as [_ Hex]. congruence.
Qed.

Lemma start_without_id_no_result (e : StreamEvent) (id : string) :
  start_without_id e → ¬ results_toolCall id e.
Proof. intros [Ht _] (Ht' & _). congruence. Qed.

Lemma start_without_id_no_chunk (e : StreamEvent) (id : string) :
  start_without_id e → ¬ chunk_of id e.
Proof. intros [Ht _] (Hc & _). rewrite Ht in Hc. done. Qed.

(** C10: a tool-call-start event whose payload lacks a toolCallId is passed
    over by step 3 of the builder and by the consolidator's scan, both of
    which leave their state as it was; no ToolCallNode of a built tree has
    it as its startEvent, the node's tool calls are those of its event list
    without the event, and no item of the ordered list carries its index.
    Neither pass has a failing operation, and whether the builder raises
    does not depend on the event's type or payload: exchanging it for any
    event with the same run, parent and tool-call identifiers leaves the
    outcome as it is. *)
Theorem start_without_id_ignored (e : StreamEvent) :
  start_without_id e →
  (∀ toolCalls, extract_event toolCalls e = toolCalls)
  ∧ (∀ maps idx, process_event maps idx e = maps)
  ∧ (∀ events tree rid node id tc,
       buildExecutionTree events = Some tree → Map_get tree rid = Some node →
       Map_get (node_toolCalls node) id = Some tc → tc_startEvent tc ≠ e)
  ∧ (∀ l1 l2, extract_tool_calls (l1 ++ e :: l2) []
              = extract_tool_calls (l1 ++ l2) [])
  ∧ (∀ events i item, events !! i = Some e → item ∈ orderedItems events →
                      orderIndex item ≠ i)
  ∧ (∀ l1 l2 e', same_ids e e' →
                 buildExecutionTree (l1 ++ e :: l2) = None
                 ↔ buildExecutionTree (l1 ++ e' :: l2) = None).
Proof.
  intros He.
  assert (∀ toolCalls, extract_event toolCalls e = toolCalls) as Hstep.
  { intros m. apply extract_event_other; intros id.
    - by apply start_without_id_no_start.
    - by apply start_without_id_no_result. }
  split; [done|]. split; [|split; [|split; [|split]]].
  - intros [mm tm] idx. unfold process_event. simpl. f_equal.
    + apply message_step_other. intros id.
      by apply start_without_id_no_chunk.
    + apply toolCall_step_other. intros id.
      by apply start_without_id_no_start.
  - intros events tree rid node id tc Hb Hnode Htc Heq.
    pose proof (built_toolCall _ _ _ _ id Hb Hnode) as H. rewrite Htc in H.
    destruct (Map_get (extract_tool_calls (node_events node) []) id)
      as [tc0|] eqn:Hget; [|done].
    assert (erase_child tc = erase_child tc0) as Hc by (simpl in H; congruence).
    apply (extract_tool_calls_spec (node_events node)) in Hget
      as (_ & _ & i & [(s & Hs & Hstart) _] & Hi & _).
    apply (start_without_id_no_start e id He).
    assert (tc_startEvent tc0 = e) as <-.
    { rewrite <- Heq. symmetry. exact (f_equal tc_startEvent Hc). }
    assert (s = tc_startEvent tc0) as <- by congruence. exact Hstart.
  - intros l1 l2. rewrite !extract_tool_calls_app. simpl. by rewrite Hstep.
  - intros events i item Hi Hin Hidx. destruct item as [id d j|id j].
    + apply messageItem_elem in Hin as [Hget ->]. simpl in Hidx.
      apply (messageMap_first events) in Hget
        as [_ [(x & Hx & Hc) _]].
      rewrite Hidx, Hi in Hx. injection Hx as <-.
      by apply (start_without_id_no_chunk e id).
    + apply toolCallItem_elem, (toolCallMap_last events) in Hin
        as [(x & Hx & Hs) _].
      simpl in Hidx. rewrite Hidx, Hi in Hx. injection Hx as <-.
      by apply (start_without_id_no_start e id).
  - intros l1 l2 e' Hids. apply same_ids_outcome.
    apply Forall2_app; [apply same_ids_refl_list|].
    constructor; [done | apply same_ids_refl_list].
Qed.

Lemma start_without_id_ignored_witness :
  buildExecutionTree nameless_start_run
  = Some [("A", mkNode "A" None None None nameless_start_run [] 
                  (Some "t0") (Some "t2"))]
  ∧ orderedItems nameless_start_run
    = [MessageItem "m1"
         (mkMessage "m1" (textChunk "A" "t2" "m1" None (JString "Hi"))
            "" (JString "Hi") "" JUndefined "" 2) 2]
  ∧ extract_tool_calls nameless_start_run []
    = extract_tool_calls
        [ startEvent "A" "t0" None None;
          textChunk "A" "t2" "m1" None (JString "Hi") ] []
  ∧ ∀ item, item ∈ orderedItems nameless_start_run → orderIndex item ≠ 1.
Proof.
  assert (start_without_id nameless_start) as He by (split; reflexivity).
  destruct (start_without_id_ignored nameless_start He)
    as (_ & _ & _ & Hdrop & Hitem & _).
  split; [reflexivity|]. split; [reflexivity|]. split.
  - apply (Hdrop [startEvent "A" "t0" None None]
             [textChunk "A" "t2" "m1" None (JString "Hi")]).
  - intros item. apply (Hitem nameless_start_run 1 item). reflexivity.
Defined.

(** ** Linking a child run to its parent's tool call (C5) *)

Lemma or_null_Some (o : option string) (s : string) :
  or_null o = Some s ↔ o = Some s ∧ s ≠ "".
Proof.
  unfold or_null. destruct (truthy_str o) eqn:E.
  - apply truthy_str_Some in E as (s' & -> & Hne). split.
    + intros [= <-]. done.
    + by intros [? _].
  - split; [done|]. intros [-> Hne].
    by rewrite truthy_str_true in E.
Qed.

Lemma run_claims_initial_node (events : list StreamEvent) (C P T : string) :
  run_claims events C P T
  ↔ ∃ node, initial_node C events = Some node ∧ claims P T node.
Proof.
  unfold run_claims, claims. split.
  - intros (first & Hfirst & HC & HP & HT & Hp & Ht).
    unfold initial_node. apply String.eqb_neq in HC. rewrite HC.
    destruct (bucket C events) as [|x rest]; [done|].
    injection Hfirst as ->. eexists. split; [done|]. simpl.
    repeat split; try done; by apply or_null_Some.
  - intros (node & Hn & Hp & Ht & HP & HT).
    destruct (initial_node_first _ _ _ Hn)
      as (HC & _ & _ & _ & first & Hfirst & Hp' & Ht' & _).
    exists first. rewrite Hp' in Hp. rewrite Ht' in Ht.
    apply or_null_Some in Hp as [Hp _]. apply or_null_Some in Ht as [Ht _].
    done.
Qed.

Lemma built_link_unique_claimer (events : list StreamEvent) (C P T : string) :
  run_claims events C P T → run_starts events P T →
  (∀ C', run_claims events C' P T → C' = C) →
  ¬ raises_TypeError events →
  ∃ tree, buildExecutionTree events = Some tree
          ∧ childAgent_of tree P T = Some C.
Proof.
  intros Hc (s & Hs & Hstart) Huniq Hok.
  destruct (buildExecutionTree_returns _ Hok) as [tree Hb].
  exists tree. split; [done|].
  pose proof (buildExecutionTree_spec events) as H. rewrite Hb in H.
  destruct H as (_ & nodes & Hn & _ & Hlink).
  pose proof (unlinked_tree_spec events) as H. rewrite Hn in H.
  destruct H as (Hnd & _ & _ & Hget).
  assert (∀ rid c, Map_get nodes rid = Some c →
                   node_runId c = rid
                   ∧ (claims P T c → run_claims events rid P T)) as Hnode.
  { intros rid c Hc'. rewrite Hget in Hc'. unfold derived_node in Hc'.
    destruct (initial_node rid events) as [n0|] eqn:Hn0; [|done].
    injection Hc' as <-.
    destruct (initial_node_first _ _ _ Hn0) as (_ & Hrid & _).
    split; [done|]. intros Hcl. apply run_claims_initial_node. by exists n0. }
  assert (∃ tc, toolCall_of nodes P T = Some tc) as [tc Htc].
  { unfold toolCall_of. rewrite Hget. unfold derived_node.
    destruct (initial_node P events) as [n0|] eqn:Hn0.
    - destruct (initial_node_first _ _ _ Hn0) as (_ & _ & Hev & Htcs & _).
      simpl. rewrite Htcs, Hev.
      destruct (Map_get (extract_tool_calls (bucket P events) []) T)
        as [tc|] eqn:E; [by exists tc|].
      destruct (extract_tool_calls_spec (bucket P events)) as (_ & Hnone & _).
      by destruct (proj1 (Hnone T) E s Hs).
    - unfold initial_node in Hn0.
      destruct Hstart as (_ & _ & HT). destruct Hc as (_ & _ & _ & HP & _).
      apply String.eqb_neq in HP. rewrite HP in Hn0.
      destruct (bucket P events); [by apply elem_of_nil in Hs | done]. }
  rewrite (Hlink _ _ _ Htc).
  destruct (last_claimer P T (Object_values nodes)) as [c|] eqn:Hlast.
  - apply last_claimer_Some in Hlast as [Hin Hcl].
    apply Object_values_get in Hin as [rid Hrid]; [|done].
    destruct (Hnode _ _ Hrid) as [-> Hrc]. f_equal. by apply Huniq, Hrc.
  - exfalso. apply run_claims_initial_node in Hc as (n0 & Hn0 & Hcl).
    apply (proj1 (last_claimer_None _ _ _) Hlast
             (set_tool_calls (set_times n0))); [|done].
    apply Object_values_get; [done|]. exists C.
    rewrite Hget. unfold derived_node. by rewrite Hn0.
Qed.

Lemma same_buckets_initial_node (events events' : list StreamEvent)
    (rid : string) :
  (∀ rid, bucket rid events' = bucket rid events) →
  initial_node rid events' = initial_node rid events.
Proof. intros H. unfold initial_node. by rewrite H. Qed.

Lemma same_buckets_raises (events events' : list StreamEvent) :
  (∀ rid, bucket rid events' = bucket rid events) →
  raises_TypeError events' → raises_TypeError events.
Proof.
  intros H [(e & He & Hi)|(rid & node & Hn & Hb)].
  - left. exists e. split; [|done].
    assert (e ∈ bucket (ev_runId e) events') as Hin by (by apply bucket_elem).
    rewrite H in Hin. by apply bucket_elem in Hin as [Hin _].
  - right. exists rid, node. split; [|done].
    by rewrite <- (same_buckets_initial_node events events').
Qed.

(** C5, as amended: when the first event of a child run names the parent P
    and the tool call T, P has a tool-call-start for T, and no other run
    names the same tool call (and no run identifier is a name of
    Object.prototype, on which the builder raises), the builder sets the
    childAgent of P's ToolCallNode T to the child node; and it does so for
    every interleaving of the runs that keeps each run's own events in
    order, so whether the child's events precede or follow the parent's. *)
Theorem childAgent_link_any_order (events : list StreamEvent)
    (C P T : string) :
  run_claims events C P T → run_starts events P T →
  (∀ C', run_claims events C' P T → C' = C) →
  ¬ raises_TypeError events →
  built_link events P T = Some C
  ∧ ∀ events', (∀ rid, bucket rid events' = bucket rid events) →
               built_link events' P T = Some C.
Proof.
  intros Hc Hs Huniq Hok. split.
  - destruct (built_link_unique_claimer _ _ _ _ Hc Hs Huniq Hok)
      as (tree & Hb & Hl).
    unfold built_link. by rewrite Hb.
  - intros events' Hsame.
    assert (∀ C', run_claims events' C' P T ↔ run_claims events C' P T) as Hrc.
    { intros C'. unfold run_claims. by rewrite Hsame. }
    destruct (built_link_unique_claimer events' C P T) as (tree & Hb & Hl).
    + by apply Hrc.
    + unfold run_starts. by rewrite Hsame.
    + intros C' H'. by apply Huniq, Hrc.
    + intros Hr. by apply Hok, (same_buckets_raises events events').
    + unfold built_link. by rewrite Hb.
Qed.

Lemma head_bucket_elem (rid : string) (l : list StreamEvent)
    (first : StreamEvent) :
  head (bucket rid l) = Some first → first ∈ l ∧ ev_runId first = rid.
Proof.
  intros H. apply bucket_elem.
  destruct (bucket rid l) as [|x rest]; [done|]. injection H as ->.
  apply elem_of_cons. by left.
Qed.

Lemma childAgent_link_any_order_witness :
  built_link child_first "A" "t1" = Some "B"
  ∧ built_link parent_first "A" "t1" = Some "B".
Proof.
  destruct (childAgent_link_any_order child_first "B" "A" "t1") as [H1 H2].
  - exists (startEvent "B" "t0" (Some "A") (Some "t1")).
    repeat split; discriminate.
  - exists (toolCallStart "A" "t2" "t1" "search").
    split; [|repeat split; discriminate].
    apply bucket_elem. split; [|reflexivity].
    apply elem_of_cons. right. apply elem_of_cons. right.
    apply elem_of_cons. by left.
  - intros C' (first & Hfirst & _ & _ & _ & Hp & _).
    apply head_bucket_elem in Hfirst as [Hin <-].
    unfold child_first in Hin.
    repeat (apply elem_of_cons in Hin as [->|Hin]); try discriminate.
    + reflexivity.
    + by apply elem_of_nil in Hin.
  - intros H%buildExecutionTree_None. vm_compute in H. discriminate.
  - split; [exact H1|]. apply H2. intros rid. unfold bucket.
    unfold parent_first, child_first, startEvent, toolCallStart.
    cbn [List.filter ev_runId].
    destruct ("A" =? rid) eqn:EA, ("B" =? rid) eqn:EB; try reflexivity.
    apply String.eqb_eq in EA, EB. congruence.
Defined.

(** C5, as stated, fails: when two runs name the same tool call, the link
    goes to the one the builder walks last, so the other run meets the
    claim's premises without being linked; and moving that last run's events
    ahead of the parent's, every run's own events kept in order, moves the
    link to the other run. *)
Lemma rival_children_link :
  run_claims rival_children "C1" "P" "t1"
  ∧ run_claims rival_children "C2" "P" "t1"
  ∧ run_starts rival_children "P" "t1"
  ∧ built_link rival_children "P" "t1" = Some "C2"
  ∧ built_link rival_children "P" "t1" ≠ Some "C1"
  ∧ (∀ rid, bucket rid rival_children_reordered = bucket rid rival_children)
  ∧ built_link rival_children_reordered "P" "t1" = Some "C1"
  ∧ built_link rival_children_reordered "P" "t1"
    ≠ built_link rival_children "P" "t1".
Proof.
  split; [|split; [|split]].
  - exists (startEvent "C1" "t2" (Some "P") (Some "t1")).
    repeat split; discriminate.
  - exists (startEvent "C2" "t3" (Some "P") (Some "t1")).
    repeat split; discriminate.
  - exists (toolCallStart "P" "t1" "t1" "search").
    split; [|repeat split; discriminate].
    apply bucket_elem. split; [|reflexivity].
    apply elem_of_cons. right. apply elem_of_cons. by left.
  - split; [reflexivity|]. split; [discriminate|]. split.
    + intros rid. unfold bucket.
      unfold rival_children, rival_children_reordered, startEvent,
        toolCallStart.
      cbn [List.filter ev_runId].
      destruct ("P" =? rid) eqn:EP, ("C1" =? rid) eqn:E1,
        ("C2" =? rid) eqn:E2; try reflexivity;
        apply String.eqb_eq in E2;
        try (apply String.eqb_eq in EP); try (apply String.eqb_eq in E1);
        congruence.
    + split; [reflexivity | discriminate].
Qed.

(** ** Scenario: tool call with sub-agent (C7) *)

(** C7: for start(A), tool-call-start(A, t1, "search"), start(B, parent A,
    tool call t1), text-chunk(B, m2, "found it"), finish(B),
    tool-result(A, t1), finish(A), whatever the timestamps and the result:
    all seven events are accepted, the built tree has the nodes A and B and
    exactly one root, A; A's consolidated items are exactly the tool call
    t1, A's only ToolCallNode is t1, its childAgent is the node B and its
    resultEvent is the tool-result event; B's consolidated items are exactly
    the message m2, whose textContent is "found it". *)
Theorem subagent_scenario_tree (t1 t2 t3 t4 t5 t6 t7 : string)
    (result : JsValue) :
  let events := subagent_scenario t1 t2 t3 t4 t5 t6 t7 result in
  receive_all events = events
  ∧ ∃ tree nodeA nodeB tc data,
      buildExecutionTree events = Some tree
      ∧ tree.*1 = ["A"; "B"]
      ∧ Map_get tree "A" = Some nodeA ∧ node_runId nodeA = "A"
      ∧ Map_get tree "B" = Some nodeB ∧ node_runId nodeB = "B"
      ∧ rootNodes tree = [nodeA]
      ∧ orderedItems (node_events nodeA) = [ToolCallItem "t1" 1]
      ∧ node_toolCalls nodeA = [("t1", tc)]
      ∧ tc_toolName tc = "search"
      ∧ tc_childAgent tc = Some "B"
      ∧ tc_resultEvent tc = Some (toolResult "A" t6 "t1" result)
      ∧ orderedItems (node_events nodeB) = [MessageItem "m2" data 1]
      ∧ msg_messageId data = "m2"
      ∧ msg_textContent data = JString "found it".
Proof.
  intros events. subst events. split; [reflexivity|].
  eexists _, _, _, _, _.
  split; [vm_compute; reflexivity|].
  split; [reflexivity|].
  split; [vm_compute; reflexivity|]. split; [reflexivity|].
  split; [vm_compute; reflexivity|]. split; [reflexivity|].
  split; [vm_compute; reflexivity|].
  split; [vm_compute; reflexivity|].
  split; [vm_compute; reflexivity|].
  split; [reflexivity|].
  split; [reflexivity|].
  split; [reflexivity|].
  split; [vm_compute; reflexivity|].
  split; reflexivity.
Qed.

(** ** The ordered items are strictly ascending *)

Lemma chunk_not_start (e : StreamEvent) (m t : string) :
  chunk_of m e → starts_toolCall t e → False.
Proof.
  intros [Hc _] [Ht _]. rewrite Ht in Hc. vm_compute in Hc. discriminate.
Qed.

Lemma item_index_event (events : list StreamEvent) (a : OrderedItem) :
  a ∈ orderedItems events →
  match a with
  | MessageItem id d i =>
      Map_get (scan_events events).1 id = Some d
      ∧ first_index (chunk_of id) events i
  | ToolCallItem id i => last_index (starts_toolCall id) events i
  end.
Proof.
  destruct a as [id d i|id i].
  - intros [Hget ->]%messageItem_elem. split; [done|].
    by apply (messageMap_first events).
  - intros Hin%toolCallItem_elem. by apply (toolCallMap_last events).
Qed.

Lemma items_same_index (events : list StreamEvent) (a b : OrderedItem) :
  a ∈ orderedItems events → b ∈ orderedItems events →
  orderIndex a = orderIndex b → a = b.
Proof.
  intros Ha%item_index_event Hb%item_index_event Hi.
  destruct a as [m d i|t i], b as [m' d' i'|t' i']; simpl in Hi; subst i'.
  - destruct Ha as [Hd [(x & Hx & Hcx) _]], Hb as [Hd' [(y & Hy & Hcy) _]].
    assert (x = y) as <- by congruence.
    assert (m = m') as <- by (by eapply chunk_of_inj). congruence.
  - destruct Ha as [_ [(x & Hx & Hcx) _]], Hb as [(y & Hy & Hsy) _].
    assert (x = y) as <- by congruence. by destruct (chunk_not_start x m t').
  - destruct Hb as [_ [(x & Hx & Hcx) _]], Ha as [(y & Hy & Hsy) _].
    assert (x = y) as <- by congruence. by destruct (chunk_not_start x m' t).
  - destruct Ha as [(x & Hx & Hsx) _], Hb as [(y & Hy & Hsy) _].
    assert (x = y) as <- by congruence.
    by rewrite (starts_toolCall_inj x t t').
Qed.

Lemma map_fmap {A B : Type} (f : A → B) (l : list A) : List.map f l = f <$> l.
Proof. induction l as [|x l IH]; simpl; [done | by rewrite IH]. Qed.

Lemma orderedItems_NoDup (events : list StreamEvent) :
  NoDup (orderedItems events).
Proof.
  unfold orderedItems. rewrite sort_items_perm.
  destruct (messageMap_first events) as [Hm _].
  destruct (toolCallMap_last events) as [Ht _].
  apply NoDup_app. split; [|split].
  - unfold message_items. rewrite map_fmap.
    apply NoDup_fmap_2_strong; [|by eapply NoDup_fmap_1].
    intros [k v] [k' v'] _ _ Heq. simpl in Heq. congruence.
  - intros x Hx Hy. unfold message_items, toolCall_items in *.
    apply list_elem_of_In, in_map_iff in Hx as (? & <- & _).
    apply list_elem_of_In, in_map_iff in Hy as (? & ? & _). done.
  - unfold toolCall_items. rewrite map_fmap.
    apply NoDup_fmap_2_strong; [|by eapply NoDup_fmap_1].
    intros [k v] [k' v'] _ _ Heq. simpl in Heq. congruence.
Qed.

Lemma orderedItems_indices_NoDup (events : list StreamEvent) :
  NoDup (orderIndex <$> orderedItems events).
Proof.
  apply NoDup_fmap_2_strong; [|apply orderedItems_NoDup].
  intros a b Ha Hb. by apply (items_same_index events).
Qed.

Lemma orderedItems_strict (events : list StreamEvent) (i j : nat)
    (a b : OrderedItem) :
  i < j → orderedItems events !! i = Some a →
  orderedItems events !! j = Some b → (orderIndex a < orderIndex b)%nat.
Proof.
  intros Hij Ha Hb.
  assert (orderIndex a ≤ orderIndex b)%nat as Hle.
  { pose proof (StronglySorted_ascending _
                  (sort_items_sorted
                     (message_items (scan_events events).1
                      ++ toolCall_items (scan_events events).2))) as Hasc.
    by apply (Hasc i j). }
  assert (orderIndex a ≠ orderIndex b) as Hne; [|lia].
  intros Heq. assert (i = j); [|lia].
  apply (NoDup_lookup _ i j (orderIndex a)
           (orderedItems_indices_NoDup events)).
  - by rewrite list_lookup_fmap, Ha.
  - by rewrite list_lookup_fmap, Hb, Heq.
Qed.








(** ** Field merge (C6) *)


Lemma message_step_get_other (mm : list (string * MessageData)) (idx : nat)
    (e : StreamEvent) (m : string) :
  ¬ chunk_of m e → Map_get (message_step mm idx e) m = Map_get mm m.
Proof.
  intros Hno. destruct (chunk_of_cases e) as [[id0 H0]|Hnone].
  - destruct (chunk_of_payload _ _ H0) as (p & Hp & _).
    rewrite (message_step_chunk _ _ _ _ _ H0 Hp).
    assert (id0 ≠ m) as Hne by (by intros ->).
    destruct (Map_get mm id0); by rewrite Map_get_set_ne.
  - by rewrite message_step_other.
Qed.

Lemma message_step_get_chunk (mm : list (string * MessageData)) (idx : nat)
    (e : StreamEvent) (m : string) (p : Payload) :
  chunk_of m e → ev_payload e = Some p →
  Map_get (message_step mm idx e) m
  = Some match Map_get mm m with
         | Some item => update_message item e p
         | None => new_message m e p idx
         end.
Proof.
  intros Hc Hp. rewrite (message_step_chunk _ _ _ _ _ Hc Hp).
  destruct (Map_get mm m); by rewrite Map_get_set_eq.
Qed.







(** ** Disclosure state (C1) *)

Lemma assign_flag_ne (expanded : gmap string bool) (k id : string)
    (v : bool) :
  k ≠ id → assign_flag expanded k v !! id = expanded !! id.
Proof.
  intros Hne. unfold assign_flag.
  destruct (expanded !! k); [by rewrite lookup_insert_ne|].
  destruct (k =? "__proto__"); [done | by rewrite lookup_insert_ne].
Qed.

Lemma assign_flag_own (expanded : gmap string bool) (k : string) (v : bool) :
  is_Some (expanded !! k) → assign_flag expanded k v !! k = Some v.
Proof.
  intros [b Hb]. unfold assign_flag. by rewrite Hb, lookup_insert_eq.
Qed.

Lemma assign_flag_eq (expanded : gmap string bool) (k : string) (v : bool) :
  k ≠ "__proto__" → assign_flag expanded k v !! k = Some v.
Proof.
  intros Hne. unfold assign_flag.
  destruct (expanded !! k); [by rewrite lookup_insert_eq|].
  apply String.eqb_neq in Hne. by rewrite Hne, lookup_insert_eq.
Qed.

Lemma assign_flag_proto (expanded : gmap string bool) (v : bool) :
  expanded !! "__proto__" = None → assign_flag expanded "__proto__" v = expanded.
Proof. intros Hn. unfold assign_flag. by rewrite Hn. Qed.

(** The sibling rule: with auto-collapse off, the effect never changes a
    flag that is set. *)
Lemma autoExpand_keeps_flag (events : list StreamEvent) (s : DisclosureState)
    (id : string) (b : bool) :
  expandedItems s !! id = Some b →
  expandedItems (autoEffect true false events s) !! id = Some b.
Proof.
  intros Hb. unfold autoEffect. simpl.
  assert (∀ items st, st.1 !! id = Some b →
            (fold_left (policy_item true false (prevEvents s)) items st).1
              !! id = Some b) as Hfold.
  { induction items as [|item items IH]; intros st Hst; [done|].
    simpl. apply IH. destruct item as [msgId data idx|]; [|done].
    unfold policy_item. cbn [andb].
    set (prevItem := prevItem_of _ _).
    assert (∀ st' : gmap string bool * bool, st'.1 !! id = Some b →
              (match prevItem with | Some _ => st' | None => st' end).1 !! id
              = Some b) as Hsame by (intros st' ?; by destruct prevItem).
    apply Hsame.
    destruct (negb (bool_decide (is_Some prevItem)) && _ && _ && _) eqn:E;
      [|done].
    simpl. destruct (decide (msgId = id)) as [->|Hne].
    - apply andb_true_iff in E as [_ E]. unfold read_flag in E.
      by rewrite Hst in E.
    - by rewrite assign_flag_ne. }
  specialize (Hfold (orderedItems events) (expandedItems s, false) Hb).
  by destruct (fold_left _ _ _).2.
Qed.

(** The auto-collapse rule: whenever the first event of a message in the
    previous event list has no content and the message now has content, the
    effect leaves the message collapsed, whatever its flag was before (the
    messageId not being [__proto__], which the assignment cannot create). *)
Lemma policy_item_collapses (autoExpand : bool) (prev : list StreamEvent)
    (st : gmap string bool * bool) (m : string) (d : MessageData) (i : nat)
    (p : StreamEvent) :
  m ≠ "__proto__" →
  prevItem_of m prev = Some p → truthy (payload_content p) = false →
  hasContent d = true →
  (policy_item autoExpand true prev st (MessageItem m d i)).1 !! m = Some false
  ∧ (policy_item autoExpand true prev st (MessageItem m d i)).2 = true.
Proof.
  intros Hm Hp Hc Hd. unfold policy_item.
  rewrite Hp, Hc, Hd. simpl. rewrite andb_false_r. simpl.
  by rewrite assign_flag_eq.
Qed.

Lemma policy_item_stays_collapsed (autoExpand : bool)
    (prev : list StreamEvent) (st : gmap string bool * bool) (m : string)
    (item : OrderedItem) :
  st.1 !! m = Some false → st.2 = true →
  (policy_item autoExpand true prev st item).1 !! m = Some false
  ∧ (policy_item autoExpand true prev st item).2 = true.
Proof.
  intros Hm Hc. destruct item as [msgId d i|]; [|done].
  unfold policy_item. set (prevItem := prevItem_of _ _).
  set (st1 := if _ && _ && _ && _ && _ then _ else st).
  assert (st1.1 !! m = Some false ∧ st1.2 = true) as [Hm1 Hc1].
  { subst st1. destruct (_ && _ && _ && _ && _) eqn:E; [|done].
    split; [|done]. simpl. destruct (decide (msgId = m)) as [->|Hne].
    - apply andb_true_iff in E as [_ E]. unfold read_flag in E.
      by rewrite Hm in E.
    - by rewrite assign_flag_ne. }
  destruct prevItem as [q|]; [|done].
  destruct (true && _ && _); [|done].
  split; [|done]. simpl. destruct (decide (msgId = m)) as [->|Hne].
  - by rewrite assign_flag_own.
  - by rewrite assign_flag_ne.
Qed.

Lemma autoCollapse_overrides_flag (autoExpand : bool)
    (events : list StreamEvent) (s : DisclosureState) (m : string)
    (d : MessageData) (i : nat) (p : StreamEvent) :
  m ≠ "__proto__" →
  MessageItem m d i ∈ orderedItems events →
  prevItem_of m (prevEvents s) = Some p →
  truthy (payload_content p) = false → hasContent d = true →
  expandedItems (autoEffect autoExpand true events s) !! m = Some false.
Proof.
  intros Hm Hin Hp Hc Hd. unfold autoEffect. rewrite andb_false_r.
  cbn [expandedItems].
  apply list_elem_of_split in Hin as (l1 & l2 & ->).
  rewrite fold_left_app. cbn [fold_left].
  set (st := fold_left _ l1 _).
  destruct (policy_item_collapses autoExpand (prevEvents s) st m d i p
              Hm Hp Hc Hd) as [Hfl Hch].
  set (st' := policy_item _ _ _ st _) in *.
  assert (∀ items st0, st0.1 !! m = Some false → st0.2 = true →
            (fold_left (policy_item autoExpand true (prevEvents s)) items st0).1
              !! m = Some false
            ∧ (fold_left (policy_item autoExpand true (prevEvents s)) items
                 st0).2 = true) as Hfold.
  { induction items as [|item items IH]; intros st0 H1 H2; [done|].
    simpl.
    destruct (policy_item_stays_collapsed autoExpand (prevEvents s) st0 m
                item H1 H2) as [H1' H2'].
    by apply IH. }
  destruct (Hfold l2 st' Hfl Hch) as [H1 H2]. by rewrite H2.
Qed.

(** C1 fails on the code: the auto-collapse rule has no test of the flag.
    After thinking text, then content, the message m1 is collapsed by the
    rule; the user toggles it open; the next content chunk makes the rule
    collapse it again, overriding the flag the user has set. *)
Theorem auto_collapse_overrides_toggle :
  expandedItems (run true true (take 1 toggled_then_content)) !! "m1"
  = Some true
  ∧ expandedItems (run true true (take 2 toggled_then_content)) !! "m1"
    = Some false
  ∧ expandedItems (run true true (take 3 toggled_then_content)) !! "m1"
    = Some true
  ∧ expandedItems (run true true toggled_then_content) !! "m1" = Some false
  ∧ isExpanded (expandedItems (run true true (take 3 toggled_then_content)))
      "m1" = true
  ∧ isExpanded (expandedItems (run true true toggled_then_content)) "m1"
    = false.
Proof. repeat split; vm_compute; reflexivity. Qed.

(** * Further properties *)

(** ** The event list over a whole delivery *)

Lemma agrees_trans (a b c : StreamEvent) : agrees a b → agrees b c → agrees a c.
Proof.
  unfold agrees. intros (-> & -> & -> & ->) (-> & -> & -> & ->). done.
Qed.

Lemma deliver_snoc (prev : list StreamEvent)
    (stream : list (option StreamEvent)) (x : option StreamEvent) :
  deliver prev (stream ++ [x]) = appendEvent (deliver prev stream) x.
Proof. unfold deliver. by rewrite fold_left_app. Qed.

Lemma appendEvent_new (prev : list StreamEvent) (c : StreamEvent) :
  (∀ e, e ∈ prev → ¬ agrees e c) → appendEvent prev (Some c) = prev ++ [c].
Proof.
  intros Hnew. simpl. destruct (isDuplicate prev c) eqn:E; [|done].
  apply isDuplicate_spec in E as (e & He & Hk). by destruct (Hnew e).
Qed.

Lemma appendEvent_cases (prev : list StreamEvent) (c : StreamEvent) :
  (∃ e, e ∈ prev ∧ agrees e c) ∨ (∀ e, e ∈ prev → ¬ agrees e c).
Proof.
  destruct (isDuplicate prev c) eqn:E.
  - left. by apply isDuplicate_spec.
  - right. intros e He Hk.
    assert (isDuplicate prev c = true) by (apply isDuplicate_spec; eauto).
    congruence.
Qed.

Lemma appendEvent_prefix (prev : list StreamEvent) (x : option StreamEvent) :
  prev `prefix_of` appendEvent prev x.
Proof.
  destruct x as [c|]; simpl; [|done].
  destruct (isDuplicate prev c); [done|]. by apply prefix_app_r.
Qed.

Lemma appendEvent_distinct_keys (prev : list StreamEvent)
    (x : option StreamEvent) :
  distinct_keys prev → distinct_keys (appendEvent prev x).
Proof.
  intros Hd. destruct x as [c|]; [|done].
  destruct (appendEvent_cases prev c) as [(e & He & Hk)|Hnew].
  - by rewrite (appendEvent_duplicate _ _ _ He Hk).
  - rewrite (appendEvent_new _ _ Hnew). intros i j a b Hij Ha Hb.
    apply lookup_snoc_Some in Hb as [Hb|[-> ->]].
    + apply lookup_snoc_Some in Ha as [Ha|[-> _]].
      * by apply (Hd i j).
      * apply lookup_lt_Some in Hb. lia.
    + apply lookup_snoc_Some in Ha as [Ha|[-> _]]; [|lia].
      apply Hnew. by eapply list_elem_of_lookup_2.
Qed.

(** X1: the duplicate check keeps the accumulated list free of events that
    agree on (runId, type, timestamp, payload.messageId): if no two events of
    the list agree before a delivery, none do after it, however many events
    and nulls are delivered. *)
Theorem deliver_keeps_keys_distinct (prev : list StreamEvent)
    (stream : list (option StreamEvent)) :
  distinct_keys prev → distinct_keys (deliver prev stream).
Proof.
  intros Hd. induction stream as [|x stream IH] using rev_ind; [done|].
  rewrite deliver_snoc. by apply appendEvent_distinct_keys.
Qed.

Lemma deliver_keeps_keys_distinct_witness :
  distinct_keys
    (deliver [first_delivery] [Some altered_delivery; None; Some thinking_chunk]).
Proof.
  apply deliver_keeps_keys_distinct.
  intros i j a b Hij Ha Hb. apply lookup_lt_Some in Hb. simpl in Hb. lia.
Defined.

Lemma delivered_first_snoc_old (stream : list (option StreamEvent))
    (x : option StreamEvent) (e : StreamEvent) :
  delivered_first stream e → delivered_first (stream ++ [x]) e.
Proof.
  intros (i & Hi & Hfirst). exists i. split.
  - apply lookup_app_l_Some. exact Hi.
  - intros j e' Hj He'. apply (Hfirst j e' Hj).
    apply lookup_lt_Some in Hi. by rewrite lookup_app_l in He' by lia.
Qed.

Lemma delivered_first_snoc_inv (stream : list (option StreamEvent))
    (x : option StreamEvent) (e : StreamEvent) :
  delivered_first (stream ++ [x]) e →
  delivered_first stream e
  ∨ (x = Some e ∧ ∀ e', Some e' ∈ stream → ¬ agrees e' e).
Proof.
  intros (i & Hi & Hfirst).
  destruct (decide (i < length stream)) as [Hlt|Hge].
  - left. exists i. rewrite lookup_app_l in Hi by done. split; [done|].
    intros j e' Hj He'. apply (Hfirst j e' Hj). by apply lookup_app_l_Some.
  - right. rewrite lookup_app_r in Hi by lia.
    destruct (i - length stream) as [|n] eqn:E; simpl in Hi; [|by destruct n].
    injection Hi as ->. split; [done|].
    intros e' [j Hj]%list_elem_of_lookup. apply (Hfirst j e').
    + apply lookup_lt_Some in Hj. lia.
    + by apply lookup_app_l_Some.
Qed.

Lemma deliver_first_deliveries (stream : list (option StreamEvent)) :
  (∀ e, Some e ∈ stream → ∃ e', e' ∈ deliver [] stream ∧ agrees e' e)
  ∧ (∀ e, e ∈ deliver [] stream ↔ delivered_first stream e)
  ∧ deliver [] stream `sublist_of` omap id stream.
Proof.
  induction stream as [|x stream (IHcov & IHiff & IHsub)] using rev_ind.
  - split; [by intros e ?%elem_of_nil|]. split; [|done].
    intros e. split; [by intros ?%elem_of_nil|]. by intros (i & Hi & _).
  - rewrite deliver_snoc, omap_app.
    assert (∀ e, Some e ∈ stream ++ [x] →
                 Some e ∈ stream ∨ x = Some e) as Hsplit.
    { intros e [H|H%list_elem_of_singleton]%elem_of_app; [by left|by right]. }
    destruct x as [c|]; cycle 1.
    { simpl. rewrite app_nil_r. split; [|split; [|done]].
      - intros e [H|H]%Hsplit; [by apply IHcov | done].
      - intros e. rewrite IHiff. split; [apply delivered_first_snoc_old|].
        by intros [H|[H _]]%delivered_first_snoc_inv. }
    destruct (appendEvent_cases (deliver [] stream) c)
      as [(e0 & He0 & Hk0)|Hnew].
    + rewrite (appendEvent_duplicate _ _ _ He0 Hk0). split; [|split].
      * intros e [H|[= ->]]%Hsplit; [by apply IHcov | by exists e0].
      * intros e. rewrite IHiff. split; [apply delivered_first_snoc_old|].
        intros [H|[[= ->] Hno]]%delivered_first_snoc_inv; [done|].
        apply IHiff in He0 as (i & Hi & _).
        destruct (Hno e0); [by eapply list_elem_of_lookup_2 | done].
      * simpl. by apply sublist_inserts_r.
    + rewrite (appendEvent_new _ _ Hnew). split; [|split].
      * intros e [H|[= ->]]%Hsplit.
        -- destruct (IHcov e H) as (e' & He' & Hk). exists e'.
           split; [apply elem_of_app; by left | done].
        -- exists e. split; [apply snoc_elem_last | apply agrees_refl].
      * intros e. rewrite elem_of_app, list_elem_of_singleton, IHiff. split.
        -- intros [H| ->]; [by apply delivered_first_snoc_old|].
           exists (length stream). split.
           ++ rewrite lookup_app_r by lia. by rewrite Nat.sub_diag.
           ++ intros j e' Hj He' Hk.
              rewrite lookup_app_l in He' by done.
              destruct (IHcov e') as (e'' & He'' & Hk'');
                [by eapply list_elem_of_lookup_2|].
              apply (Hnew e'' He''). by eapply agrees_trans.
        -- intros [H|[[= ->] _]]%delivered_first_snoc_inv; [by left|by right].
      * simpl. by apply sublist_app.
Qed.

(** X2: from the empty list, the accumulated list holds exactly the events
    that were the first delivered with their (runId, type, timestamp,
    payload.messageId), in delivery order; every later delivery under the
    same tuple is dropped, and a longer delivery only appends. *)
Theorem deliver_keeps_first_deliveries (stream : list (option StreamEvent)) :
  (∀ e, e ∈ deliver [] stream ↔ delivered_first stream e)
  ∧ deliver [] stream `sublist_of` omap id stream
  ∧ ∀ more, deliver [] stream `prefix_of` deliver [] (stream ++ more).
Proof.
  destruct (deliver_first_deliveries stream) as (_ & Hiff & Hsub).
  split; [done|]. split; [done|].
  intros more. induction more as [|x more IH] using rev_ind.
  - by rewrite app_nil_r.
  - rewrite app_assoc, deliver_snoc.
    etrans; [exact IH | apply appendEvent_prefix].
Qed.

(** ** The nodes of a built tree *)

Lemma head_bucket_find (rid : string) (l : list StreamEvent) :
  head (bucket rid l) = find_event (λ e, ev_runId e =? rid) l.
Proof.
  unfold bucket, find_event. induction l as [|x l IH]; simpl; [done|].
  by destruct (ev_runId x =? rid).
Qed.

Lemma head_bucket_first_index (rid : string) (l : list StreamEvent)
    (e : StreamEvent) :
  head (bucket rid l) = Some e
  ↔ ∃ i, first_index (λ x, ev_runId x = rid) l i ∧ l !! i = Some e.
Proof.
  rewrite head_bucket_find.
  pose proof (find_first_index (λ x, ev_runId x =? rid) l) as H.
  assert (∀ i, first_index (λ x, (ev_runId x =? rid) = true) l i
               ↔ first_index (λ x, ev_runId x = rid) l i) as Hiff.
  { intros i. apply first_index_iff. intros x. apply String.eqb_eq. }
  destruct (find_event _ l) as [x|].
  - destruct H as (i & Hi%Hiff & Hx). split.
    + intros [= <-]. by exists i.
    + intros (j & Hj & He).
      assert (j = i) as -> by (by eapply first_index_unique). congruence.
  - split; [done|]. intros (j & [(y & Hy & Hr) _] & He).
    assert ((ev_runId y =? rid) = false) as Hf.
    { apply H. by eapply list_elem_of_lookup_2. }
    apply String.eqb_neq in Hf. done.
Qed.

Lemma initial_node_is_Some (rid : string) (events : list StreamEvent) :
  is_Some (initial_node rid events)
  ↔ rid ≠ "" ∧ ∃ e, e ∈ events ∧ ev_runId e = rid.
Proof.
  unfold initial_node. destruct (rid =? "") eqn:E.
  - apply String.eqb_eq in E. split; [by intros [? ?] | by intros [? _]].
  - apply String.eqb_neq in E.
    destruct (bucket rid events) as [|first rest] eqn:Hb.
    + split; [by intros [? ?]|]. intros (_ & e & He & Hr).
      assert (e ∈ bucket rid events) as Hin by (by apply bucket_elem).
      rewrite Hb in Hin. by apply elem_of_nil in Hin.
    + split; [|by eexists]. intros _. split; [done|]. exists first.
      apply bucket_elem. rewrite Hb. apply elem_of_cons. by left.
Qed.

Lemma built_keys (events : list StreamEvent) (tree : ExecutionTree) :
  buildExecutionTree events = Some tree →
  ∃ nodes, group_events events [] = Some nodes ∧ tree.*1 = nodes.*1.
Proof.
  intros Hb. pose proof (buildExecutionTree_spec events) as H.
  rewrite Hb in H. destruct H as (_ & nodes & Hn & Hu & _).
  unfold unlinked_tree in Hn.
  destruct (group_events events []) as [nodes0|]; [|done].
  exists nodes0. split; [done|]. injection Hn as <-.
  rewrite <- (map_values_keys unlinked tree), Hu, map_values_keys.
  unfold map_nodes.
  change ((map_values set_tool_calls (map_values set_times nodes0)).*1
          = nodes0.*1).
  by rewrite !map_values_keys.
Qed.

(** X3: the builder partitions the events by runId.  A built tree has one
    node per non-empty runId that occurs, under that runId as key; the node
    holds exactly the events of its run, in arrival order, and takes
    parentId, toolCallId and agentId from the first of them (empty strings
    read as null).  Events with an empty runId are in no node. *)
Theorem tree_nodes_are_the_runs (events : list StreamEvent)
    (tree : ExecutionTree) :
  buildExecutionTree events = Some tree →
  NoDup (tree.*1)
  ∧ (∀ rid, is_Some (Map_get tree rid)
            ↔ rid ≠ "" ∧ ∃ e, e ∈ events ∧ ev_runId e = rid)
  ∧ ∀ rid node, Map_get tree rid = Some node →
      node_runId node = rid
      ∧ node_events node = List.filter (λ e, ev_runId e =? rid) events
      ∧ ∃ first, head (node_events node) = Some first
                 ∧ node_parentId node = or_null (ev_parentId first)
                 ∧ node_toolCallId node = or_null (ev_toolCallId first)
                 ∧ node_agentId node = or_null (ev_agentId first).
Proof.
  intros Hb. split; [|split].
  - destruct (built_keys _ _ Hb) as (nodes & Hn & ->).
    pose proof (group_events_spec events) as H. rewrite Hn in H. apply H.
  - intros rid. rewrite <- initial_node_is_Some.
    pose proof (buildExecutionTree_node _ _ rid Hb) as H.
    unfold derived_node in H.
    destruct (Map_get tree rid), (initial_node rid events);
      simpl in H; try done; split; intros [? ?]; by eexists.
  - intros rid node Hnode.
    destruct (built_node _ _ _ _ Hb Hnode)
      as (_ & Hrid & Hev & _ & _ & _ & first & Hfirst & Hp & Ht & Ha).
    split; [done|]. split; [done|]. by exists first.
Qed.

Lemma tree_nodes_are_the_runs_witness :
  ∃ tree nodeB,
    buildExecutionTree child_first = Some tree
    ∧ Map_get tree "B" = Some nodeB
    ∧ node_events nodeB = [startEvent "B" "t0" (Some "A") (Some "t1")]
    ∧ node_parentId nodeB = Some "A"
    ∧ Map_get tree "" = None.
Proof.
  eexists _, _. split; [vm_compute; reflexivity|].
  split; [vm_compute; reflexivity|].
  match goal with
  | |- node_events ?n = _ ∧ _ =>
      destruct (tree_nodes_are_the_runs child_first _ eq_refl)
        as (_ & Hkeys & Hnode);
      destruct (Hnode "B" n eq_refl) as (_ & Hev & first & _ & Hp & _)
  end.
  split; [exact Hev|]. split; [reflexivity|].
  match goal with
  | |- ?m = None => destruct m eqn:E; [|done]
  end.
  destruct (proj1 (Hkeys "") (mk_is_Some _ _ E)) as [Hne _]. done.
Defined.

(** X4: the builder raises a TypeError exactly when some event's runId is a
    property name of Object.prototype, or the first event of some run names
    a tool call and gives such a name as its parentId; on every other event
    list it returns a tree. *)
Theorem builder_raises_iff (events : list StreamEvent) :
  buildExecutionTree events = None
  ↔ prototype_runId events ∨ prototype_parent events.
Proof.
  rewrite buildExecutionTree_None. unfold raises_TypeError.
  apply or_iff_compat_l. split.
  - intros (rid & node & Hn & Hb).
    destruct (initial_node_first _ _ _ Hn)
      as (Hne & _ & _ & _ & first & Hfirst & Hp & Ht & _).
    destruct (claims_cases node) as [(pid & tid & Hc)|Hno];
      [|by rewrite bad_link_no_claim in Hb].
    rewrite (bad_link_claims _ _ _ Hc) in Hb.
    destruct Hc as (Hp' & Ht' & Hpne & Htne).
    rewrite Hp in Hp'. rewrite Ht in Ht'.
    apply or_null_Some in Hp' as [Hp' _]. apply or_null_Some in Ht' as [Ht' _].
    destruct (head_bucket_elem _ _ _ Hfirst) as [_ Hr].
    apply head_bucket_first_index in Hfirst as (i & Hi & He).
    exists i, first, pid, tid. rewrite Hr. done.
  - intros (i & e & p & t & Hi & He & Hne & Hp & Hinh & Ht & Htne).
    assert (head (bucket (ev_runId e) events) = Some e) as Hhead.
    { apply head_bucket_first_index. by exists i. }
    assert (p ≠ "") as Hpne by (by intros ->).
    exists (ev_runId e). unfold initial_node.
    apply String.eqb_neq in Hne. rewrite Hne.
    destruct (bucket (ev_runId e) events) as [|first rest]; [done|].
    injection Hhead as ->. eexists. split; [done|].
    unfold bad_link. simpl. rewrite Hp, Ht. unfold or_null.
    by rewrite !truthy_str_true.
Qed.

(** ** The order of the nodes *)

Lemma group_event_keys (nodes nodes' : ExecutionTree) (e : StreamEvent) :
  group_event nodes e = Some nodes' →
  nodes'.*1 = nodes.*1
  ∨ (nodes'.*1 = nodes.*1 ++ [ev_runId e]
     ∧ Map_get nodes (ev_runId e) = None ∧ ev_runId e ≠ "").
Proof.
  unfold group_event. simpl. destruct (ev_runId e =? "") eqn:E; simpl.
  { intros [= <-]. by left. }
  apply String.eqb_neq in E. unfold obj_read.
  destruct (Map_get nodes (ev_runId e)) as [node|] eqn:Hget.
  - intros [= <-]. left. rewrite Map_set_keys. unfold Map_has. by rewrite Hget.
  - destruct (inherited (ev_runId e)); [done|]. intros [= <-]. right.
    rewrite Map_set_keys. unfold Map_has. by rewrite Hget.
Qed.

Lemma run_first_index (rid : string) (l : list StreamEvent) :
  (∃ e, e ∈ l ∧ ev_runId e = rid) →
  ∃ i, first_index (λ e, ev_runId e = rid) l i.
Proof.
  intros (e & He & Hr).
  destruct (head (bucket rid l)) as [first|] eqn:Hhead.
  - apply head_bucket_first_index in Hhead as (i & Hi & _). by exists i.
  - assert (e ∈ bucket rid l) as Hin by (by apply bucket_elem).
    destruct (bucket rid l); [by apply elem_of_nil in Hin | done].
Qed.

Lemma group_events_order (l : list StreamEvent) (nodes : ExecutionTree) :
  group_events l [] = Some nodes → in_order_of_appearance l (nodes.*1).
Proof.
  revert nodes. induction l as [|e l IH] using rev_ind; intros nodes.
  - intros [= <-]. intros i j k1 k2 _ H. done.
  - rewrite group_events_snoc.
    destruct (group_events l []) as [nodes0|] eqn:Hg; [|done].
    intros Hstep. specialize (IH nodes0 eq_refl).
    pose proof (group_events_spec l) as Hspec. rewrite Hg in Hspec.
    destruct Hspec as (_ & _ & Hget).
    assert (∀ i j k1 k2, i < j → (nodes0.*1) !! i = Some k1 →
              (nodes0.*1) !! j = Some k2 →
              ∃ a b, a < b
                     ∧ first_index (λ x, ev_runId x = k1) (l ++ [e]) a
                     ∧ first_index (λ x, ev_runId x = k2) (l ++ [e]) b)
      as Hold.
    { intros i j k1 k2 Hij H1 H2.
      destruct (IH i j k1 k2 Hij H1 H2) as (a & b & Hab & Ha & Hb).
      exists a, b. split; [done|]. split; by apply first_index_snoc_old. }
    destruct (group_event_keys _ _ _ Hstep) as [->|(-> & Hnone & Hne)];
      [exact Hold|].
    intros i j k1 k2 Hij H1 H2.
    apply lookup_snoc_Some in H2 as [H2|[-> ->]].
    + apply lookup_snoc_Some in H1 as [H1|[-> _]]; [by eapply Hold|].
      apply lookup_lt_Some in H2. lia.
    + apply lookup_snoc_Some in H1 as [H1|[-> _]]; [|lia].
      assert (∃ a, first_index (λ x, ev_runId x = k1) l a) as [a Ha].
      { apply run_first_index. apply initial_node_is_Some.
        rewrite <- Hget. apply list_elem_of_lookup_2 in H1.
        destruct (Map_get nodes0 k1) eqn:E; [by eexists|].
        by apply Map_get_None in E. }
      exists a, (length l). split; [|split].
      * destruct Ha as [(x & Hx & _) _]. by eapply lookup_lt_Some.
      * by apply first_index_snoc_old.
      * apply first_index_snoc_new; [done|]. intros y Hy Hr.
        assert (is_Some (initial_node (ev_runId e) l)) as [n Hn].
        { apply initial_node_is_Some. split; [done|]. by exists y. }
        rewrite <- Hget, Hnone in Hn. done.
Qed.

(** X5: the keys of a built tree, and so its nodes as the object holds
    them, stand in the order in which their runs first appear in the event
    list. *)
Theorem tree_keys_in_order_of_appearance (events : list StreamEvent)
    (tree : ExecutionTree) :
  buildExecutionTree events = Some tree →
  in_order_of_appearance events (tree.*1).
Proof.
  intros Hb. destruct (built_keys _ _ Hb) as (nodes & Hn & ->).
  by apply group_events_order.
Qed.

Lemma tree_keys_in_order_of_appearance_witness :
  ∃ a b, a < b
         ∧ first_index (λ e, ev_runId e = "B") child_first a
         ∧ first_index (λ e, ev_runId e = "A") child_first b.
Proof.
  apply (tree_keys_in_order_of_appearance child_first
           [("B", mkNode "B" (Some "A") (Some "t1") None
                    [startEvent "B" "t0" (Some "A") (Some "t1")] []
                    (Some "t0") (Some "t0"));
            ("A", mkNode "A" None None None
                    [startEvent "A" "t1" None None;
                     toolCallStart "A" "t2" "t1" "search"]
                    [("t1", mkToolCall "t1" "search"
                              (toolCallStart "A" "t2" "t1" "search")
                              None (Some "B"))]
                    (Some "t1") (Some "t2"))]
           eq_refl 0 1); [lia | reflexivity | reflexivity].
Defined.

Lemma sublist_lookup_order {A : Type} (l' l : list A) :
  l' `sublist_of` l →
  ∀ i j a b, i < j → l' !! i = Some a → l' !! j = Some b →
    ∃ i' j', i' < j' ∧ l !! i' = Some a ∧ l !! j' = Some b.
Proof.
  induction 1 as [|x l1 l2 Hs IH|x l1 l2 Hs IH]; intros i j a b Hij Ha Hb.
  - done.
  - destruct j as [|j]; [lia|]. simpl in Hb. destruct i as [|i].
    + simpl in Ha. injection Ha as <-.
      apply list_elem_of_lookup_2 in Hb.
      assert (b ∈ l2) as [j' Hj']%list_elem_of_lookup
        by (by eapply elem_of_sublist).
      exists 0, (S j'). split; [lia|]. done.
    + simpl in Ha. destruct (IH i j a b) as (i' & j' & H' & Hi' & Hj');
        [lia|done|done|].
      exists (S i'), (S j'). split; [lia|]. done.
  - destruct (IH i j a b Hij Ha Hb) as (i' & j' & H' & Hi' & Hj').
    exists (S i'), (S j'). split; [lia|]. done.
Qed.

Section ObjectValuesOrder.
Context {V : Type}.
Implicit Types (o : list (string * V)).

Lemma insert_index_sorted (x : N * V) (l : list (N * V)) :
  StronglySorted (λ a b, (a.1 ≤ b.1)%N) l →
  StronglySorted (λ a b, (a.1 ≤ b.1)%N) (insert_index x l).
Proof.
  induction 1 as [|y l Hs IH Hall]; simpl.
  - by repeat constructor.
  - destruct (x.1 <=? y.1)%N eqn:E.
    + apply N.leb_le in E. constructor; [by constructor|].
      constructor; [done|].
      eapply Forall_impl; [exact Hall|]. intros z Hz. simpl in *. lia.
    + apply N.leb_gt in E. constructor; [done|].
      rewrite insert_index_perm. constructor; [lia | done].
Qed.

Lemma index_props_sorted o :
  StronglySorted (λ a b, (a.1 ≤ b.1)%N) (index_props o).
Proof.
  induction o as [|[k v] o IH]; simpl; [constructor|].
  destruct (array_index k); [by apply insert_index_sorted | done].
Qed.

Lemma index_props_elem o (n : N) (v : V) :
  (n, v) ∈ index_props o → ∃ k, (k, v) ∈ o ∧ array_index k = Some n.
Proof.
  induction o as [|[k v'] o IH]; simpl; [by intros ?%elem_of_nil|].
  destruct (array_index k) as [m|] eqn:E.
  - rewrite insert_index_perm. intros [[= -> ->]|H]%elem_of_cons.
    + exists k. split; [apply elem_of_cons; by left | done].
    + destruct (IH H) as (k' & Hk' & Hi). exists k'.
      split; [apply elem_of_cons; by right | done].
  - intros H. destruct (IH H) as (k' & Hk' & Hi). exists k'.
    split; [apply elem_of_cons; by right | done].
Qed.

Lemma named_props_filter o :
  named_props o
  = (List.filter (λ kv, bool_decide (array_index kv.1 = None)) o).*2.
Proof.
  induction o as [|[k v] o IH]; simpl; [done|].
  destruct (array_index k); simpl; [done|]. by rewrite IH.
Qed.
End ObjectValuesOrder.

Lemma StronglySorted_lookup_le {A : Type} (R : A → A → Prop) (l : list A)
    (i j : nat) (a b : A) :
  StronglySorted R l → i < j → l !! i = Some a → l !! j = Some b → R a b.
Proof.
  intros Hs. revert i j. induction Hs as [|x l Hs IH Hall]; intros i j Hij Ha Hb;
    [done|].
  destruct j as [|j]; [lia|]. simpl in Hb. destruct i as [|i].
  - simpl in Ha. injection Ha as <-. rewrite Forall_forall in Hall.
    apply Hall. by eapply list_elem_of_lookup_2.
  - simpl in Ha. apply (IH i j); [lia|done|done].
Qed.

Lemma List_filter_sublist {A : Type} (p : A → bool) (l : list A) :
  List.filter p l `sublist_of` l.
Proof.
  induction l as [|x l IH]; simpl; [done|].
  destruct (p x); [by apply sublist_skip | by apply sublist_cons].
Qed.

Lemma built_entry_runId (events : list StreamEvent) (tree : ExecutionTree)
    (k : string) (node : ExecutionNode) :
  buildExecutionTree events = Some tree → (k, node) ∈ tree →
  node_runId node = k.
Proof.
  intros Hb Hin.
  destruct (built_keys _ _ Hb) as (nodes & Hn & Hk).
  pose proof (group_events_spec events) as H. rewrite Hn in H.
  destruct H as (Hnd & _). rewrite <- Hk in Hnd.
  apply Map_elem_get in Hin; [|done].
  by destruct (built_node _ _ _ _ Hb Hin) as (_ & Hrid & _).
Qed.

Lemma Object_values_order (events : list StreamEvent) (tree : ExecutionTree)
    (i j : nat) (a b : ExecutionNode) :
  buildExecutionTree events = Some tree → i < j →
  Object_values tree !! i = Some a → Object_values tree !! j = Some b →
  values_order events a b.
Proof.
  intros Hb Hij Ha Hb'. unfold Object_values in *.
  assert (∀ n v, (n, v) ∈ index_props tree →
                 array_index (node_runId v) = Some n) as Hidx.
  { intros n v (k & Hk & Hn)%index_props_elem.
    by rewrite (built_entry_runId _ _ _ _ Hb Hk). }
  assert (∀ m v, named_props tree !! m = Some v →
            ∃ k, List.filter (λ kv, bool_decide (array_index kv.1 = None)) tree
                   !! m = Some (k, v)
                 ∧ array_index (node_runId v) = None) as Hnamed.
  { intros m v Hv. rewrite named_props_filter in Hv.
    apply list_lookup_fmap_Some in Hv as ([k v'] & -> & Hkv).
    exists k. split; [done|]. simpl.
    apply list_elem_of_lookup_2, list_elem_of_In, List.filter_In in Hkv
      as [Hin Hp%bool_decide_eq_true].
    apply list_elem_of_In in Hin.
    by rewrite (built_entry_runId _ _ _ _ Hb Hin). }
  unfold values_order.
  destruct (decide (j < length ((index_props tree).*2))) as [Hj|Hj].
  - rewrite lookup_app_l in Ha by lia. rewrite lookup_app_l in Hb' by lia.
    apply list_lookup_fmap_Some in Ha as ([x a'] & -> & Hxa).
    apply list_lookup_fmap_Some in Hb' as ([y b'] & -> & Hyb).
    simpl.
    rewrite (Hidx x a') by (by eapply list_elem_of_lookup_2).
    rewrite (Hidx y b') by (by eapply list_elem_of_lookup_2).
    apply (StronglySorted_lookup_le _ _ i j (x, a') (y, b')
             (index_props_sorted tree) Hij Hxa Hyb).
  - rewrite lookup_app_r in Hb' by lia.
    destruct (Hnamed _ _ Hb') as (kb & Hkb & Hnb). rewrite Hnb.
    destruct (decide (i < length ((index_props tree).*2))) as [Hi|Hi].
    + rewrite lookup_app_l in Ha by lia.
      apply list_lookup_fmap_Some in Ha as ([x a'] & -> & Hxa). simpl.
      by rewrite (Hidx x a') by (by eapply list_elem_of_lookup_2).
    + rewrite lookup_app_r in Ha by lia.
      destruct (Hnamed _ _ Ha) as (ka & Hka & Hna). rewrite Hna.
      assert (i - length ((index_props tree).*2)
              < j - length ((index_props tree).*2)) as Hlt by lia.
      destruct (sublist_lookup_order _ _ (List_filter_sublist _ tree)
                  _ _ _ _ Hlt Hka Hkb)
        as (i' & j' & Hij' & Hi' & Hj').
      destruct (built_keys _ _ Hb) as (nodes & Hn & Hk).
      pose proof (group_events_order _ _ Hn) as Hord. rewrite <- Hk in Hord.
      rewrite (built_entry_runId _ _ ka a Hb)
        by (by eapply list_elem_of_lookup_2).
      rewrite (built_entry_runId _ _ kb b Hb)
        by (by eapply list_elem_of_lookup_2).
      apply (Hord i' j'); [done| |].
      * by rewrite list_lookup_fmap, Hi'.
      * by rewrite list_lookup_fmap, Hj'.
Qed.

Lemma Object_values_no_index {V : Type} (o : list (string * V)) :
  Forall (λ kv, array_index kv.1 = None) o → Object_values o = o.*2.
Proof.
  intros H. unfold Object_values.
  assert (index_props o = [] ∧ named_props o = o.*2) as [-> ->]; [|done].
  induction H as [|[k v] o Hk Ho [IH1 IH2]]; [done|].
  simpl in *. rewrite Hk. split; [done|]. by rewrite IH2.
Qed.

Lemma built_key_event (events : list StreamEvent) (tree : ExecutionTree)
    (k : string) :
  buildExecutionTree events = Some tree → k ∈ tree.*1 →
  ∃ e, e ∈ events ∧ ev_runId e = k.
Proof.
  intros Hb Hk. destruct (built_keys _ _ Hb) as (nodes & Hn & Hkeys).
  pose proof (group_events_spec events) as H. rewrite Hn in H.
  destruct H as (_ & _ & Hget). rewrite Hkeys in Hk.
  assert (is_Some (initial_node k events)) as Hs.
  { rewrite <- Hget. destruct (Map_get nodes k) eqn:E; [by eexists|].
    by apply Map_get_None in E. }
  by apply initial_node_is_Some in Hs as [_ Hs].
Qed.

(** X6: [Object.values] of a built tree, and with it the list of roots
    that is rendered, puts the runs whose runId is a canonical array index
    first, in ascending numeric order, and the other runs after them in the
    order of their first appearance; so roots appear in arrival order only
    among runIds that are not array indices. *)
Theorem roots_order (events : list StreamEvent) (tree : ExecutionTree) :
  buildExecutionTree events = Some tree →
  (∀ i j a b, i < j → Object_values tree !! i = Some a →
              Object_values tree !! j = Some b → values_order events a b)
  ∧ (∀ i j a b, i < j → rootNodes tree !! i = Some a →
                rootNodes tree !! j = Some b → values_order events a b)
  ∧ ((∀ e, e ∈ events → array_index (ev_runId e) = None) →
     Object_values tree = tree.*2).
Proof.
  intros Hb. split; [|split].
  - intros i j a b. by apply Object_values_order.
  - intros i j a b Hij Ha Hb'.
    destruct (sublist_lookup_order _ _
                (List_filter_sublist _ (Object_values tree)) i j a b
                Hij Ha Hb') as (i' & j' & Hij' & Hi' & Hj').
    by eapply Object_values_order.
  - intros Hno. unfold Object_values.
    assert (∀ k, k ∈ tree.*1 → array_index k = None) as Hkeys.
    { intros k Hk.
      destruct (built_key_event events tree k Hb Hk) as (e & He & <-).
      by apply Hno. }
    apply Object_values_no_index. apply Forall_forall. intros [k v] Hkv.
    apply Hkeys. apply list_elem_of_fmap. by exists (k, v).
Qed.

Lemma roots_order_witness :
  ∃ tree a b,
    buildExecutionTree numeric_runs = Some tree
    ∧ tree.*1 = ["b"; "10"; "2"]
    ∧ rootNodes tree !! 0 = Some a ∧ node_runId a = "2"
    ∧ rootNodes tree !! 2 = Some b ∧ node_runId b = "b"
    ∧ values_order numeric_runs a b.
Proof.
  eexists _, _, _. split; [vm_compute; reflexivity|].
  split; [reflexivity|].
  split; [vm_compute; reflexivity|]. split; [reflexivity|].
  split; [vm_compute; reflexivity|]. split; [reflexivity|].
  destruct (roots_order numeric_runs _ eq_refl) as (_ & Hroots & _).
  apply (Hroots 0 2); [lia | reflexivity | reflexivity].
Defined.

(** ** Tool calls of a node, exactly *)

Lemma result_after_snoc_other (l : list StreamEvent) (e r : StreamEvent)
    (id : string) (i : nat) :
  ¬ results_toolCall id e →
  result_after (l ++ [e]) id i r ↔ result_after l id i r.
Proof.
  intros Hno. split.
  - intros (j & Hij & Hj & Hr & Hlast). exists j. split; [done|].
    apply lookup_snoc_Some in Hj as [Hj|[_ ->]]; [|done].
    split; [done|]. split; [done|]. intros k y Hk Hy.
    apply (Hlast k y Hk). apply lookup_snoc_Some. by left.
  - intros (j & Hij & Hj & Hr & Hlast). exists j. split; [done|].
    split; [apply lookup_snoc_Some; by left|]. split; [done|].
    intros k y Hk [Hy|[_ ->]]%lookup_snoc_Some; [by apply (Hlast k y)|done].
Qed.

Lemma result_after_snoc_result (l : list StreamEvent) (e r : StreamEvent)
    (id : string) (i : nat) :
  results_toolCall id e → i < length l →
  result_after (l ++ [e]) id i r ↔ r = e.
Proof.
  intros He Hi. split.
  - intros (j & Hij & Hj & Hr & Hlast).
    apply lookup_snoc_Some in Hj as [Hj|[_ ->]]; [|done].
    destruct (Hlast (length l) e); [by eapply lookup_lt_Some| |done].
    apply lookup_snoc_Some. by right.
  - intros ->. exists (length l). split; [done|].
    split; [apply lookup_snoc_Some; by right|]. split; [done|].
    intros k y Hk Hy. apply lookup_lt_Some in Hy.
    rewrite length_app in Hy. simpl in Hy. lia.
Qed.

Lemma result_after_end (l : list StreamEvent) (e r : StreamEvent)
    (id : string) :
  ¬ result_after (l ++ [e]) id (length l) r.
Proof.
  intros (j & Hij & Hj & _). apply lookup_lt_Some in Hj.
  rewrite length_app in Hj. simpl in Hj. lia.
Qed.

Lemma toolCall_exact_snoc_other (l : list StreamEvent) (e : StreamEvent)
    (id : string) (tc : ToolCallNode) :
  ¬ starts_toolCall id e → ¬ results_toolCall id e →
  toolCall_exact l id tc → toolCall_exact (l ++ [e]) id tc.
Proof.
  intros Hns Hnr (Hid & i & s & Hlast & Hs & Hstart & Hname & Hres).
  split; [done|]. exists i, s. split; [by apply last_index_snoc_no|].
  split; [apply lookup_snoc_Some; by left|]. split; [done|]. split; [done|].
  intros r. rewrite Hres. symmetry. by apply result_after_snoc_other.
Qed.

Lemma extract_event_start_name m e id :
  starts_toolCall id e →
  extract_event m e
  = Map_set m id (mkToolCall id (toolName_of e) e None None).
Proof.
  intros H. unfold extract_event, toolName_of.
  assert (∃ id, starts_toolCall id e) as ->%starts_toolCall_guard by eauto.
  destruct H as (_ & H & _). rewrite H. unfold payload_toolCallId in H.
  destruct (ev_payload e) as [p|]; [|done].
  destruct (pl_toolName p) as [n|]; [|done]. by destruct (n =? "").
Qed.

Lemma extract_tool_calls_exact (l : list StreamEvent) (id : string)
    (tc : ToolCallNode) :
  Map_get (extract_tool_calls l []) id = Some tc → toolCall_exact l id tc.
Proof.
  revert id tc. induction l as [|e l IH] using rev_ind; intros id tc; [done|].
  rewrite extract_tool_calls_snoc.
  set (m := extract_tool_calls l []) in *.
  destruct (starts_toolCall_cases e) as [[id0 H0]|Hns].
  { rewrite (extract_event_start_name m e id0 H0), Map_get_set.
    destruct (id0 =? id) eqn:E.
    - apply String.eqb_eq in E. subst id0. intros [= <-].
      split; [done|]. exists (length l), e.
      split; [by apply last_index_snoc_yes|].
      split; [apply lookup_snoc_Some; by right|]. split; [done|].
      split; [done|]. intros r. split; [done|].
      intros H. by apply result_after_end in H.
    - apply String.eqb_neq in E. intros Htc.
      apply toolCall_exact_snoc_other; [| |by apply IH].
      + intros H. apply E. by eapply starts_toolCall_inj.
      + by eapply starts_not_results. }
  destruct (results_toolCall_cases e) as [[id0 H0]|Hnr]; cycle 1.
  { rewrite extract_event_other by done. intros Htc.
    apply toolCall_exact_snoc_other; [done|done|by apply IH]. }
  assert (∀ id', id0 ≠ id' → ¬ results_toolCall id' e) as Hother.
  { intros id' Hne (_ & H' & _). destruct H0 as (_ & H0 & _). congruence. }
  rewrite (extract_event_result m e id0 H0).
  destruct (Map_get m id0) as [tc0|] eqn:Hget; cycle 1.
  { intros Htc. destruct (decide (id0 = id)) as [->|Hne]; [congruence|].
    apply toolCall_exact_snoc_other; [done|by apply Hother|by apply IH]. }
  rewrite Map_get_set. destruct (id0 =? id) eqn:E.
  - apply String.eqb_eq in E. subst id0. intros [= <-].
    destruct (IH _ _ Hget) as (Hid & i & s & Hlast & Hs & Hstart & Hname & _).
    split; [done|]. exists i, s. split; [by apply last_index_snoc_no|].
    split; [apply lookup_snoc_Some; by left|]. split; [done|].
    split; [done|]. intros r. simpl.
    rewrite result_after_snoc_result; [|done|by eapply lookup_lt_Some].
    split; congruence.
  - apply String.eqb_neq in E. intros Htc.
    apply toolCall_exact_snoc_other; [done|by apply Hother|by apply IH].
Qed.

Lemma toolCall_exact_erase (l : list StreamEvent) (id : string)
    (tc tc0 : ToolCallNode) :
  erase_child tc = erase_child tc0 → toolCall_exact l id tc0 →
  toolCall_exact l id tc.
Proof.
  intros He.
  pose proof (f_equal tc_toolCallId He) as H1.
  pose proof (f_equal tc_toolName He) as H2.
  pose proof (f_equal tc_startEvent He) as H3.
  pose proof (f_equal tc_resultEvent He) as H4.
  simpl in *. unfold toolCall_exact. by rewrite H1, H2, H3, H4.
Qed.

(** X7: the ToolCallNodes of a built node.  The node has an entry for a
    toolCallId exactly when one of its events is a tool-call-start naming
    it; the entry is made from the LAST such event (startEvent, and toolName
    with 'unknown' for an absent or empty name), and its resultEvent is the
    last tool-result naming the toolCallId if that comes after this start,
    and null otherwise: a repeated start discards the result received
    before it. *)
Theorem toolCalls_of_a_node (events : list StreamEvent) (tree : ExecutionTree)
    (rid : string) (node : ExecutionNode) :
  buildExecutionTree events = Some tree → Map_get tree rid = Some node →
  (∀ id, is_Some (Map_get (node_toolCalls node) id)
         ↔ ∃ s, s ∈ node_events node ∧ starts_toolCall id s)
  ∧ ∀ id tc, Map_get (node_toolCalls node) id = Some tc →
             toolCall_exact (node_events node) id tc.
Proof.
  intros Hb Hnode.
  assert (∀ id, erase_child <$> Map_get (node_toolCalls node) id
                = erase_child
                    <$> Map_get (extract_tool_calls (node_events node) []) id)
    as Heq by (intros id; by eapply built_toolCall).
  destruct (extract_tool_calls_spec (node_events node)) as (_ & Hnone & _).
  split.
  - intros id. specialize (Heq id). specialize (Hnone id). split.
    + intros [tc Htc]. rewrite Htc in Heq.
      destruct (Map_get (extract_tool_calls _ _) id) as [tc0|] eqn:E; [|done].
      apply extract_tool_calls_exact in E
        as (_ & i & s & [(x & Hx & Hsx) _] & Hs & _).
      exists x. split; [by eapply list_elem_of_lookup_2 | done].
    + intros (s & Hs & Hstart).
      destruct (Map_get (node_toolCalls node) id) as [tc|]; [by eexists|].
      destruct (Map_get (extract_tool_calls _ _) id) eqn:E; [done|].
      by destruct (proj1 Hnone eq_refl s Hs).
  - intros id tc Htc. specialize (Heq id). rewrite Htc in Heq.
    destruct (Map_get (extract_tool_calls _ _) id) as [tc0|] eqn:E; [|done].
    apply (toolCall_exact_erase _ _ tc tc0); [simpl in Heq; congruence|].
    by apply extract_tool_calls_exact.
Qed.

Lemma toolCalls_of_a_node_witness :
  ∃ tree node tc,
    buildExecutionTree restarted_after_result = Some tree
    ∧ Map_get tree "A" = Some node
    ∧ Map_get (node_toolCalls node) "t1" = Some tc
    ∧ tc_toolName tc = "unknown" ∧ tc_resultEvent tc = None
    ∧ toolCall_exact (node_events node) "t1" tc.
Proof.
  eexists _, _, _. split; [vm_compute; reflexivity|].
  split; [vm_compute; reflexivity|]. split; [vm_compute; reflexivity|].
  split; [reflexivity|]. split; [reflexivity|].
  match goal with
  | |- toolCall_exact (node_events ?n) _ ?tc =>
      destruct (toolCalls_of_a_node restarted_after_result _ "A" n
                  eq_refl eq_refl) as [_ H];
      apply (H "t1" tc eq_refl)
  end.
Defined.

(** ** The childAgent links, exactly *)

Section ObjectValuesMap.
Context {V W : Type} (f : V → W).

Lemma insert_index_map (n : N) (v : V) (l : list (N * V)) :
  insert_index (n, f v) (prod_map id f <$> l)
  = prod_map id f <$> insert_index (n, v) l.
Proof.
  induction l as [|[m w] l IH]; [done|].
  cbn [insert_index fmap list_fmap prod_map fst snd]. simpl.
  destruct (n <=? m)%N; [done|]. simpl. f_equal. exact IH.
Qed.

Lemma index_props_map_values (o : list (string * V)) :
  index_props (map_values f o) = prod_map id f <$> index_props o.
Proof.
  induction o as [|[k v] o IH]; [done|]. simpl.
  destruct (array_index k); [|done]. rewrite IH. apply insert_index_map.
Qed.

Lemma named_props_map_values (o : list (string * V)) :
  named_props (map_values f o) = f <$> named_props o.
Proof.
  induction o as [|[k v] o IH]; [done|]. simpl.
  destruct (array_index k); [done|]. simpl. by rewrite IH.
Qed.

Lemma Object_values_map_values (o : list (string * V)) :
  Object_values (map_values f o) = f <$> Object_values o.
Proof.
  unfold Object_values.
  rewrite index_props_map_values, named_props_map_values, fmap_app.
  f_equal. rewrite <- !list_fmap_compose. by apply list_fmap_ext.
Qed.
End ObjectValuesMap.

Lemma claimsb_unlinked (pid tid : string) (c : ExecutionNode) :
  claimsb pid tid (unlinked c) = claimsb pid tid c.
Proof. done. Qed.

Lemma last_claimer_unlinked (pid tid : string) (l : list ExecutionNode) :
  last_claimer pid tid (unlinked <$> l) = unlinked <$> last_claimer pid tid l.
Proof.
  induction l as [|c l IH]; [done|]. cbn [fmap list_fmap last_claimer].
  change (list_fmap _ _ unlinked l) with (unlinked <$> l). rewrite IH.
  destruct (last_claimer pid tid l); simpl; [done|].
  rewrite claimsb_unlinked. by destruct (claimsb pid tid c).
Qed.

Lemma last_claimer_last_index (pid tid : string) (l : list ExecutionNode)
    (c : ExecutionNode) :
  last_claimer pid tid l = Some c
  ↔ ∃ i, last_index (claims pid tid) l i ∧ l !! i = Some c.
Proof.
  revert c. induction l as [|x l IH]; intros c; simpl.
  - split; [done|]. by intros (i & _ & Hi).
  - destruct (last_claimer pid tid l) as [c'|] eqn:E.
    + destruct (proj1 (IH c') eq_refl) as (i & [(y & Hy & Hc) Hlast] & Hi).
      assert (last_index (claims pid tid) (x :: l) (S i)) as Hlast'.
      { split; [by exists y|]. intros [|j] z Hj Hz; [lia|].
        apply (Hlast j z); [lia | done]. }
      split.
      * intros [= <-]. by exists (S i).
      * intros (j & Hj & Hc').
        assert (j = S i) as -> by (by eapply last_index_unique).
        simpl in Hc'. congruence.
    + assert (∀ y, y ∈ l → ¬ claims pid tid y) as Hnone
        by (by apply last_claimer_None).
      destruct (claimsb pid tid x) eqn:Ex.
      * apply claimsb_spec in Ex.
        assert (last_index (claims pid tid) (x :: l) 0) as Hlast'.
        { split; [by exists x|]. intros [|j] z Hj Hz; [lia|].
          apply Hnone. by eapply list_elem_of_lookup_2. }
        split.
        -- intros [= <-]. by exists 0.
        -- intros (j & Hj & Hc').
           assert (j = 0) as -> by (by eapply last_index_unique).
           simpl in Hc'. congruence.
      * split; [done|]. intros (j & [(y & Hy & Hc) _] & _).
        destruct j as [|j]; simpl in Hy.
        -- injection Hy as <-. apply claimsb_spec in Hc. congruence.
        -- destruct (Hnone y); [by eapply list_elem_of_lookup_2 | done].
Qed.

Lemma built_childAgent (events : list StreamEvent) (tree : ExecutionTree)
    (P T : string) (tc : ToolCallNode) :
  buildExecutionTree events = Some tree → toolCall_of tree P T = Some tc →
  tc_childAgent tc = node_runId <$> last_claimer P T (Object_values tree).
Proof.
  intros Hb Htc. pose proof (buildExecutionTree_spec events) as H.
  rewrite Hb in H. destruct H as (_ & nodes & Hn & Hu & Hlink).
  pose proof (unlinked_tree_spec events) as H. rewrite Hn in H.
  destruct H as (_ & _ & _ & Hget).
  pose proof (unlinked_toolCall_of tree nodes P T Hu) as He.
  rewrite Htc in He.
  destruct (toolCall_of nodes P T) as [tc0|] eqn:Htc0; [|done].
  assert (childAgent_of tree P T = tc_childAgent tc) as <-.
  { unfold childAgent_of, toolCall_of in *.
    destruct (Map_get tree P) as [n|]; [|done]. simpl in *. by rewrite Htc. }
  assert (childAgent_of nodes P T = None) as Hnone.
  { unfold childAgent_of, toolCall_of in *. rewrite Hget in *.
    unfold derived_node in *.
    destruct (initial_node P events) as [n0|] eqn:Hn0; [|done].
    destruct (initial_node_first _ _ _ Hn0) as (_ & _ & _ & Htcs & _).
    simpl in *. rewrite Htcs in *. rewrite Htc0. simpl.
    destruct (extract_tool_calls_spec (node_events n0)) as (_ & _ & Hsound).
    by destruct (Hsound _ _ Htc0) as (_ & Hc & _). }
  rewrite (Hlink _ _ _ Htc0), Hnone.
  assert (unlinked <$> last_claimer P T (Object_values tree)
          = unlinked <$> last_claimer P T (Object_values nodes)) as Hl.
  { rewrite <- !last_claimer_unlinked, <- !Object_values_map_values.
    by rewrite Hu. }
  destruct (last_claimer P T (Object_values tree)) as [c|],
    (last_claimer P T (Object_values nodes)) as [c'|]; simpl in *; try done.
  assert (unlinked c = unlinked c') as Hc by congruence.
  f_equal. exact (eq_sym (f_equal node_runId Hc)).
Qed.

(** X8: the childAgent of a ToolCallNode of a built tree.  It is the node,
    last in [Object.values] order, whose parentId and toolCallId (taken from
    the first event of its run) name this tool call of this node; it is null
    exactly when no node names it; and a node it points to is a node of the
    tree that names it. *)
Theorem childAgent_is_last_claimer (events : list StreamEvent)
    (tree : ExecutionTree) (P T : string) (tc : ToolCallNode) :
  buildExecutionTree events = Some tree → toolCall_of tree P T = Some tc →
  (∀ c, tc_childAgent tc = Some c
        ↔ ∃ i cn, last_index (claims P T) (Object_values tree) i
                  ∧ Object_values tree !! i = Some cn ∧ node_runId cn = c)
  ∧ (tc_childAgent tc = None
     ↔ ∀ cn, cn ∈ Object_values tree → ¬ claims P T cn)
  ∧ ∀ c, tc_childAgent tc = Some c →
         ∃ cn, Map_get tree c = Some cn ∧ claims P T cn.
Proof.
  intros Hb Htc. rewrite (built_childAgent _ _ _ _ _ Hb Htc).
  assert (∀ c, node_runId <$> last_claimer P T (Object_values tree) = Some c
               ↔ ∃ i cn, last_index (claims P T) (Object_values tree) i
                         ∧ Object_values tree !! i = Some cn
                         ∧ node_runId cn = c) as Hiff.
  { intros c. split.
    - destruct (last_claimer P T (Object_values tree)) as [cn|] eqn:E; [|done].
      intros [= <-]. apply last_claimer_last_index in E as (i & Hi & Hcn).
      by exists i, cn.
    - intros (i & cn & Hi & Hcn & <-).
      assert (last_claimer P T (Object_values tree) = Some cn) as ->; [|done].
      apply last_claimer_last_index. by exists i. }
  split; [exact Hiff|]. split.
  - rewrite <- last_claimer_None.
    by destruct (last_claimer P T (Object_values tree)).
  - intros c (i & cn & [(x & Hx & Hc) _] & Hcn & <-)%Hiff.
    assert (x = cn) as -> by congruence.
    exists cn. split; [|done].
    apply list_elem_of_lookup_2, Object_values_elem in Hcn as [k Hk].
    rewrite (built_entry_runId _ _ _ _ Hb Hk).
    apply Map_elem_get; [|done].
    destruct (built_keys _ _ Hb) as (nodes & Hn & ->).
    pose proof (group_events_spec events) as H. rewrite Hn in H. apply H.
Qed.

Lemma childAgent_is_last_claimer_witness :
  ∃ tree tc cn,
    buildExecutionTree rival_children = Some tree
    ∧ toolCall_of tree "P" "t1" = Some tc
    ∧ tc_childAgent tc = Some "C2"
    ∧ Map_get tree "C2" = Some cn ∧ claims "P" "t1" cn.
Proof.
  eexists _, _. 
  assert (∃ cn, Map_get
                  (default [] (buildExecutionTree rival_children)) "C2"
                = Some cn ∧ claims "P" "t1" cn) as (cn & Hcn & Hc).
  { match goal with
    | |- ∃ cn, Map_get ?t _ = _ ∧ _ =>
        destruct (childAgent_is_last_claimer rival_children t "P" "t1"
                    (mkToolCall "t1" "search"
                       (toolCallStart "P" "t1" "t1" "search") None (Some "C2"))
                    eq_refl eq_refl) as (_ & _ & H)
    end.
    apply (H "C2" eq_refl). }
  exists cn. split; [vm_compute; reflexivity|].
  split; [vm_compute; reflexivity|]. split; [reflexivity|]. split; done.
Defined.

(** ** The view *)

Lemma concat_rows_cons (part : option (list Row))
    (parts : list (option (list Row))) :
  concat_rows (part :: parts)
  = rows ← part; more ← concat_rows parts; Some (rows ++ more).
Proof. done. Qed.

Lemma concat_rows_Some (parts : list (option (list Row))) :
  Forall is_Some parts → is_Some (concat_rows parts).
Proof.
  induction 1 as [|part parts [rows ->] _ [more IH]]; [by eexists|].
  rewrite concat_rows_cons, IH. by eexists.
Qed.

Lemma concat_rows_elem (parts : list (option (list Row))) (all : list Row)
    (row : Row) :
  concat_rows parts = Some all → row ∈ all →
  ∃ rows, Some rows ∈ parts ∧ row ∈ rows.
Proof.
  revert all. induction parts as [|part parts IH]; intros all.
  - intros [= <-] H. by apply elem_of_nil in H.
  - rewrite concat_rows_cons. destruct part as [rows|]; [|done]. simpl.
    destruct (concat_rows parts) as [more|]; [|done]. simpl.
    intros [= <-] [H|H]%elem_of_app.
    + exists rows. split; [apply elem_of_cons; by left | done].
    + destruct (IH more eq_refl H) as (rows' & Hin & Hrow).
      exists rows'. split; [apply elem_of_cons; by right | done].
Qed.

Lemma concat_rows_map_mono {A : Type} (f g : A → option (list Row))
    (l : list A) (all : list Row) :
  (∀ x rows, x ∈ l → f x = Some rows → g x = Some rows) →
  concat_rows (List.map f l) = Some all →
  concat_rows (List.map g l) = Some all.
Proof.
  revert all. induction l as [|x l IH]; intros all Hfg; [done|].
  cbn [List.map]. rewrite !concat_rows_cons.
  destruct (f x) as [rows|] eqn:Hf; [|done].
  rewrite (Hfg x rows) by (done || apply elem_of_cons; by left). simpl.
  destruct (concat_rows (List.map f l)) as [more|] eqn:Hl; [|done].
  rewrite (IH more); [done| |done].
  intros y rows' Hy. apply Hfg. apply elem_of_cons. by right.
Qed.

Lemma renderItem_mono
    (r1 r2 : nat → ExecutionNode → option (list Row)) (st : ViewState)
    (tree : ExecutionTree) (depth : nat) (node : ExecutionNode)
    (item : OrderedItem) (rows : list Row) :
  (∀ d n rs, r1 d n = Some rs → r2 d n = Some rs) →
  renderItem r1 st tree depth node item = Some rows →
  renderItem r2 st tree depth node item = Some rows.
Proof.
  intros Hr. destruct item as [msgId data i|id i]; simpl; [done|].
  destruct (Map_get (node_toolCalls node) id) as [tc|]; [|done]. simpl.
  destruct (tc_childAgent tc) as [c|]; [|done].
  destruct (toolOpen st (node_runId node) id); [|done].
  destruct (Map_get tree c) as [child|]; [|done].
  destruct (r1 (S depth) child) as [rs|] eqn:E; [|done].
  by rewrite (Hr _ _ _ E).
Qed.

Lemma renderNode_more_fuel (fuel : nat) (st : ViewState)
    (tree : ExecutionTree) (depth : nat) (node : ExecutionNode)
    (rows : list Row) :
  renderNode fuel st tree depth node = Some rows →
  ∀ more, renderNode (fuel + more) st tree depth node = Some rows.
Proof.
  revert depth node rows.
  induction fuel as [|fuel IH]; intros depth node rows; [done|].
  intros H more. cbn [Nat.add renderNode] in *.
  eapply concat_rows_map_mono; [|exact H].
  intros item rs _. apply renderItem_mono. intros d n rs' Hr. by apply IH.
Qed.

Lemma chain_next (tree : ExecutionTree) (q : list string) :
  chain tree q →
  ∀ i x, q !! i = Some x →
         ∃ xn, Map_get tree x = Some xn ∧ node_parentId xn = q !! S i.
Proof.
  induction 1 as [r node Hr Hp|c a p cn Hch IH Hc Hp]; intros i x Hx.
  - destruct i as [|i]; [|done]. injection Hx as <-. by exists node.
  - destruct i as [|i]; [|by apply IH]. injection Hx as <-. by exists cn.
Qed.

Lemma chain_NoDup (tree : ExecutionTree) (q : list string) :
  chain tree q → NoDup q.
Proof.
  induction 1 as [r node Hr Hp|c a p cn Hch IH Hc Hp].
  - apply NoDup_singleton.
  - apply NoDup_cons. split; [|done].
    intros [i Hi]%list_elem_of_lookup.
    destruct (chain_next _ _ Hch i c Hi) as (xn & Hxn & Hnext).
    assert (xn = cn) as -> by congruence. rewrite Hp in Hnext.
    assert (S i = 0); [|done].
    eapply NoDup_lookup; [exact IH | by symmetry | done].
Qed.

Lemma chain_length (tree : ExecutionTree) (q : list string) :
  chain tree q → (length q ≤ length tree)%nat.
Proof.
  intros Hch. rewrite <- (length_fmap fst tree).
  apply submseteq_length, NoDup_submseteq; [by apply (chain_NoDup tree)|].
  intros x [i Hi]%list_elem_of_lookup.
  destruct (chain_next _ _ Hch i x Hi) as (xn & Hxn & _).
  apply list_elem_of_fmap. exists (x, xn). split; [done|].
  by apply Map_get_elem.
Qed.

(** What the view needs of a built tree: nodes stand under their runId, a
    parent identifier is never the empty string, and a [childAgent] is a
    node of the tree that names the node holding the tool call as parent. *)
Lemma built_tree_links (events : list StreamEvent) (tree : ExecutionTree) :
  buildExecutionTree events = Some tree →
  (∀ k n, Map_get tree k = Some n → node_runId n = k)
  ∧ (∀ k n, Map_get tree k = Some n →
            truthy_str (node_parentId n) = false → node_parentId n = None)
  ∧ ∀ P n T tc c,
      Map_get tree P = Some n → Map_get (node_toolCalls n) T = Some tc →
      tc_childAgent tc = Some c →
      ∃ cn, Map_get tree c = Some cn ∧ node_parentId cn = Some P.
Proof.
  intros Hb. split; [|split].
  - intros k n Hn. by destruct (built_node _ _ _ _ Hb Hn) as (_ & Hr & _).
  - intros k n Hn Hf.
    destruct (built_node _ _ _ _ Hb Hn) as (_ & _ & _ & _ & _ & _
      & first & _ & Hp & _).
    rewrite Hp in *. unfold or_null in *.
    destruct (truthy_str (ev_parentId first)) eqn:E; [congruence | done].
  - intros P n T tc c Hn Htc Hc.
    assert (toolCall_of tree P T = Some tc) as Htc'.
    { unfold toolCall_of. by rewrite Hn. }
    rewrite (built_childAgent _ _ _ _ _ Hb Htc') in Hc.
    destruct (last_claimer P T (Object_values tree)) as [cn|] eqn:E; [|done].
    injection Hc as <-. apply last_claimer_Some in E as [Hin (Hp & _)].
    exists cn. split; [|done].
    apply Object_values_elem in Hin as [k Hk].
    rewrite (built_entry_runId _ _ _ _ Hb Hk).
    apply Map_elem_get; [|done].
    destruct (built_keys _ _ Hb) as (nodes & Hg & ->).
    pose proof (group_events_spec events) as H. rewrite Hg in H. apply H.
Qed.

Lemma renderNode_chain (events : list StreamEvent) (tree : ExecutionTree)
    (st : ViewState) (fuel : nat) :
  buildExecutionTree events = Some tree →
  ∀ r p node depth,
    chain tree (r :: p) → Map_get tree r = Some node →
    (length tree ≤ fuel + length p)%nat →
    is_Some (renderNode fuel st tree depth node).
Proof.
  intros Hb. destruct (built_tree_links _ _ Hb) as (Hkey & _ & Hlink).
  induction fuel as [|fuel IH]; intros r p node depth Hch Hnode Hlen.
  - apply chain_length in Hch. simpl in *. lia.
  - cbn [renderNode]. apply concat_rows_Some, Forall_forall.
    intros part (item & <- & _)%list_elem_of_In%in_map_iff.
    destruct item as [msgId data i|id i]; simpl; [by eexists|].
    destruct (Map_get (node_toolCalls node) id) as [tc|] eqn:Htc;
      [|by eexists]. simpl.
    destruct (tc_childAgent tc) as [c|] eqn:Hc; [|by eexists].
    destruct (toolOpen st (node_runId node) id); [|by eexists].
    destruct (Hlink _ _ _ _ _ Hnode Htc Hc) as (cn & Hcn & Hp).
    rewrite Hcn.
    destruct (IH c (r :: p) cn (S depth)) as [rows ->]; [| |simpl; lia|].
    + by eapply chain_child.
    + done.
    + by eexists.
Qed.

Lemma renderRoots_returns (events : list StreamEvent) (tree : ExecutionTree)
    (st : ViewState) :
  buildExecutionTree events = Some tree →
  is_Some (renderRoots (length tree) st tree).
Proof.
  intros Hb. destruct (built_tree_links _ _ Hb) as (Hkey & Hroot & _).
  apply concat_rows_Some, Forall_forall.
  intros part (node & <- & Hin)%list_elem_of_In%in_map_iff.
  apply List.filter_In in Hin as [Hin Hp%negb_true_iff].
  apply list_elem_of_In, Object_values_elem in Hin as [k Hk].
  assert (Map_get tree k = Some node) as Hnode.
  { apply Map_elem_get; [|done].
    destruct (built_keys _ _ Hb) as (nodes & Hg & ->).
    pose proof (group_events_spec events) as H. rewrite Hg in H. apply H. }
  apply (renderNode_chain events tree st _ Hb k [] node 0);
    [|done|simpl; lia].
  eapply chain_root; [exact Hnode | by eapply Hroot].
Qed.

(** X9: rendering a built tree terminates.  The object graph may hold a
    cycle (a run can name itself, or a descendant, as parent), but no root
    leads into one: with any disclosure state, the recursion from the roots
    through the childAgent links is at most as deep as the tree has nodes,
    and a larger bound gives the same rows. *)
Theorem rendering_terminates (events : list StreamEvent)
    (tree : ExecutionTree) (st : ViewState) :
  buildExecutionTree events = Some tree →
  ∃ rows, renderRoots (length tree) st tree = Some rows
          ∧ ∀ more, renderRoots (length tree + more) st tree = Some rows.
Proof.
  intros Hb.
  destruct (renderRoots_returns events tree st Hb) as [rows Hrows].
  exists rows. split; [done|]. intros more.
  unfold renderRoots in *.
  eapply concat_rows_map_mono; [|exact Hrows].
  intros node rs _ Hr. by apply renderNode_more_fuel.
Qed.

Lemma rendering_terminates_witness :
  ∃ tree rows,
    buildExecutionTree self_parent = Some tree
    ∧ childAgent_of tree "C" "t9" = Some "C"
    ∧ renderRoots (length tree) initial_view tree = Some rows.
Proof.
  eexists _, _. split; [vm_compute; reflexivity|]. split; [reflexivity|].
  match goal with
  | |- renderRoots _ _ ?t = _ =>
      destruct (rendering_terminates self_parent t initial_view eq_refl)
        as (rows & Hrows & _)
  end.
  rewrite Hrows. f_equal. vm_compute in Hrows. injection Hrows as <-.
  reflexivity.
Defined.

Lemma renderNode_runIds (events : list StreamEvent) (tree : ExecutionTree)
    (st : ViewState) (fuel : nat) :
  buildExecutionTree events = Some tree →
  ∀ depth node rows row,
    Map_get tree (node_runId node) = Some node →
    renderNode fuel st tree depth node = Some rows → row ∈ rows →
    row_runId row = node_runId node ∨ linked tree (row_runId row).
Proof.
  intros Hb. destruct (built_tree_links _ _ Hb) as (Hkey & _ & _).
  induction fuel as [|fuel IH]; intros depth node rows row Hnode Hr Hrow;
    [done|].
  cbn [renderNode] in Hr.
  destruct (concat_rows_elem _ _ _ Hr Hrow) as (part & Hpart & Hin).
  apply list_elem_of_In, in_map_iff in Hpart as (item & Hitem & _).
  destruct item as [msgId data i|id i]; simpl in Hitem.
  - injection Hitem as <-. apply list_elem_of_singleton in Hin as ->.
    by left.
  - destruct (Map_get (node_toolCalls node) id) as [tc|] eqn:Htc; cycle 1.
    { injection Hitem as <-. by apply elem_of_nil in Hin. }
    simpl in Hitem.
    assert (∀ children,
              Some (ToolCallRow depth (node_runId node) tc
                      (toolOpen st (node_runId node) id) :: children)
              = Some part →
              (∀ r, r ∈ children →
                    row_runId r = node_runId node ∨ linked tree (row_runId r)) →
              row_runId row = node_runId node ∨ linked tree (row_runId row))
      as Hcons.
    { intros children [= <-] Hch.
      apply elem_of_cons in Hin as [->|Hin]; [by left | by apply Hch]. }
    destruct (tc_childAgent tc) as [c|] eqn:Hc; cycle 1.
    { apply (Hcons []); [done|]. by intros r ?%elem_of_nil. }
    destruct (toolOpen st (node_runId node) id) eqn:Hopen; cycle 1.
    { apply (Hcons []); [done|]. by intros r ?%elem_of_nil. }
    destruct (Map_get tree c) as [child|] eqn:Hchild; cycle 1.
    { apply (Hcons []); [done|]. by intros r ?%elem_of_nil. }
    destruct (renderNode fuel st tree (S depth) child) as [children|] eqn:Hrc;
      [|done].
    apply (Hcons children); [done|]. intros r Hrin. right.
    assert (linked tree c) as Hl.
    { exists (node_runId node), id, tc. split; [|done].
      unfold toolCall_of. by rewrite Hnode. }
    assert (node_runId child = c) as Hck by (by eapply Hkey).
    destruct (IH (S depth) child children r) as [->|Hl']; try done.
    + by rewrite Hck.
    + by rewrite Hck.
Qed.

(** X10: what is rendered.  Every component of the view belongs to a root
    (a run whose first event names no parent) or to a run that is the
    childAgent of some tool call.  So a run that names a parent but is
    linked to no tool call (its parent or the tool call never appeared, or
    another run took the link) is not rendered at all, with any disclosure
    state. *)
Theorem rendered_runs (events : list StreamEvent) (tree : ExecutionTree)
    (st : ViewState) (fuel : nat) (rows : list Row) :
  buildExecutionTree events = Some tree →
  renderRoots fuel st tree = Some rows →
  (∀ row, row ∈ rows →
          (∃ node, node ∈ rootNodes tree ∧ node_runId node = row_runId row)
          ∨ linked tree (row_runId row))
  ∧ ∀ r node, Map_get tree r = Some node → node_parentId node ≠ None →
              ¬ linked tree r → ∀ row, row ∈ rows → row_runId row ≠ r.
Proof.
  intros Hb Hrows.
  destruct (built_tree_links _ _ Hb) as (Hkey & _ & _).
  assert (NoDup (tree.*1)) as Hnd.
  { destruct (built_keys _ _ Hb) as (nodes & Hg & ->).
    pose proof (group_events_spec events) as H. rewrite Hg in H. apply H. }
  assert (∀ node, node ∈ rootNodes tree →
            Map_get tree (node_runId node) = Some node
            ∧ node_parentId node = None) as Hroot.
  { intros node Hin. apply list_elem_of_In, List.filter_In in Hin
      as [Hin Hp%negb_true_iff].
    apply list_elem_of_In, Object_values_elem in Hin as [k Hk].
    apply Map_elem_get in Hk; [|done].
    rewrite (Hkey _ _ Hk). split; [done|].
    by destruct (built_tree_links _ _ Hb) as (_ & H & _); eapply H. }
  assert (∀ row, row ∈ rows →
            (∃ node, node ∈ rootNodes tree ∧ node_runId node = row_runId row)
            ∨ linked tree (row_runId row)) as Hall.
  { intros row Hrow.
    destruct (concat_rows_elem _ _ _ Hrows Hrow) as (part & Hpart & Hin).
    apply list_elem_of_In, in_map_iff in Hpart as (node & Hr & Hnode).
    apply list_elem_of_In in Hnode.
    destruct (renderNode_runIds events tree st fuel Hb 0 node part row)
      as [Heq|Hl]; [by apply Hroot|done|done| |by right].
    left. by exists node. }
  split; [exact Hall|].
  intros r node Hnode Hp Hnl row Hrow <-.
  destruct (Hall row Hrow) as [(root & Hin & Hr)|Hl]; [|done].
  destruct (Hroot root Hin) as [Hget Hnone]. rewrite Hr in Hget.
  congruence.
Qed.

Lemma rendered_runs_witness :
  ∃ tree nodeB,
    buildExecutionTree orphan_child = Some tree
    ∧ Map_get tree "B" = Some nodeB
    ∧ orderedItems (node_events nodeB) ≠ []
    ∧ renderRoots 1 initial_view tree = Some []
    ∧ ∀ row, row ∈ [] → row_runId row ≠ "B".
Proof.
  eexists _, _. split; [vm_compute; reflexivity|].
  split; [vm_compute; reflexivity|]. split; [vm_compute; discriminate|].
  match goal with
  | |- renderRoots _ _ ?t = _ ∧ _ =>
      destruct (rendered_runs orphan_child t initial_view 1 []
                  eq_refl eq_refl) as [_ H]
  end.
  split; [reflexivity|].
  eapply (H "B"); [reflexivity | discriminate |].
  intros (P & T & tc & Htc & Hc). unfold toolCall_of in Htc.
  cbn [Map_get] in Htc.
  destruct ("B" =? P); discriminate Htc.
Defined.

(** ** The ordered items and the tool calls of a node *)

Lemma built_toolCall_start (events : list StreamEvent) (tree : ExecutionTree)
    (rid : string) (node : ExecutionNode) (id : string) :
  buildExecutionTree events = Some tree → Map_get tree rid = Some node →
  (∀ i, last_index (starts_toolCall id) (node_events node) i →
        ∃ tc, Map_get (node_toolCalls node) id = Some tc
              ∧ node_events node !! i = Some (tc_startEvent tc))
  ∧ ∀ tc, Map_get (node_toolCalls node) id = Some tc →
          ∃ i, last_index (starts_toolCall id) (node_events node) i
               ∧ node_events node !! i = Some (tc_startEvent tc).
Proof.
  intros Hb Hnode.
  pose proof (built_toolCall events tree rid node id Hb Hnode) as Heq.
  destruct (extract_tool_calls_spec (node_events node)) as (_ & Hnone & Hs).
  specialize (Hs id). specialize (Hnone id).
  destruct (Map_get (extract_tool_calls _ _) id) as [tc0|] eqn:E.
  - destruct (Hs tc0 eq_refl) as (_ & _ & i0 & Hlast & Hi0 & _).
    destruct (Map_get (node_toolCalls node) id) as [tc|]; [|done].
    assert (tc_startEvent tc = tc_startEvent tc0) as Hst.
    { simpl in Heq. assert (erase_child tc = erase_child tc0) as He
        by congruence.
      exact (f_equal tc_startEvent He). }
    split.
    + intros i Hi. exists tc. split; [done|].
      rewrite (last_index_unique _ _ _ _ Hi Hlast). by rewrite Hst.
    + intros tc' [= <-]. exists i0. by rewrite Hst.
  - destruct (Map_get (node_toolCalls node) id) as [tc|]; [done|].
    split; [|done]. intros i [(x & Hx & Hsx) _].
    destruct (proj1 Hnone eq_refl x); [|done].
    by eapply list_elem_of_lookup_2.
Qed.

(** X11: the ordered items and the toolCalls of a built node agree.  Every
    tool-call item of the node's consolidator resolves in node.toolCalls
    (so the branch that renders nothing for a missing entry is never
    taken), at the index of that entry's startEvent; every entry of
    node.toolCalls has its item; and a tool call has one item only. *)
Theorem toolCall_items_resolve (events : list StreamEvent)
    (tree : ExecutionTree) (rid : string) (node : ExecutionNode) :
  buildExecutionTree events = Some tree → Map_get tree rid = Some node →
  (∀ id i, ToolCallItem id i ∈ orderedItems (node_events node) →
           ∃ tc, Map_get (node_toolCalls node) id = Some tc
                 ∧ node_events node !! i = Some (tc_startEvent tc))
  ∧ (∀ id tc, Map_get (node_toolCalls node) id = Some tc →
              ∃ i, ToolCallItem id i ∈ orderedItems (node_events node)
                   ∧ node_events node !! i = Some (tc_startEvent tc))
  ∧ ∀ id i j, ToolCallItem id i ∈ orderedItems (node_events node) →
              ToolCallItem id j ∈ orderedItems (node_events node) → i = j.
Proof.
  intros Hb Hnode.
  destruct (toolCallMap_last (node_events node)) as [_ Hlast].
  split; [|split].
  - intros id i Hin%toolCallItem_elem%Hlast.
    by apply (built_toolCall_start events tree rid node id Hb Hnode).
  - intros id tc Htc.
    destruct (built_toolCall_start events tree rid node id Hb Hnode)
      as [_ H].
    destruct (H tc Htc) as (i & Hi & Hev). exists i. split; [|done].
    by apply toolCallItem_elem, Hlast.
  - intros id i j Hi%toolCallItem_elem Hj%toolCallItem_elem. congruence.
Qed.

Lemma toolCall_items_resolve_witness :
  ∃ tree node tc,
    buildExecutionTree restarted_after_result = Some tree
    ∧ Map_get tree "A" = Some node
    ∧ ToolCallItem "t1" 2 ∈ orderedItems (node_events node)
    ∧ Map_get (node_toolCalls node) "t1" = Some tc
    ∧ node_events node !! 2 = Some (tc_startEvent tc).
Proof.
  eexists _, _, _. split; [vm_compute; reflexivity|].
  split; [vm_compute; reflexivity|].
  match goal with
  | |- _ ∈ orderedItems (node_events ?n) ∧ _ =>
      destruct (toolCall_items_resolve restarted_after_result _ "A" n
                  eq_refl eq_refl) as (H & _ & _)
  end.
  assert (ToolCallItem "t1" 2
            ∈ orderedItems (bucket "A" restarted_after_result)) as Hin.
  { apply toolCallItem_elem. vm_compute. reflexivity. }
  split; [exact Hin|].
  destruct (H "t1" 2 Hin) as (tc & Htc & Hev).
  vm_compute in Htc. injection Htc as <-. split; reflexivity.
Defined.

(** ** The ordered items have no ties *)

(** X12: no two ordered items of a node carry the same index, and every
    index is a position of the node's event list.  So the sorted list is in
    strictly ascending order (the sort never has to break a tie), and a node
    has at most as many items as it has events. *)
Theorem orderedItems_no_ties (events : list StreamEvent) :
  (∀ i j a b, i < j → orderedItems events !! i = Some a →
              orderedItems events !! j = Some b →
              (orderIndex a < orderIndex b)%nat)
  ∧ (∀ a, a ∈ orderedItems events → (orderIndex a < length events)%nat)
  ∧ (length (orderedItems events) ≤ length events)%nat.
Proof.
  pose proof (orderedItems_indices_NoDup events) as Hnd.
  assert (∀ a, a ∈ orderedItems events → (orderIndex a < length events)%nat)
    as Hlt.
  { intros a Ha%item_index_event.
    destruct a as [m d i|t i]; simpl.
    - destruct Ha as [_ [(x & Hx & _) _]]. by eapply lookup_lt_Some.
    - destruct Ha as [(x & Hx & _) _]. by eapply lookup_lt_Some. }
  split; [|split; [exact Hlt|]].
  - intros i j a b. apply orderedItems_strict.
  - assert (orderIndex <$> orderedItems events ⊆+ seq 0 (length events))
      as Hsub.
    { apply NoDup_submseteq; [done|].
      intros x (a & -> & Ha)%list_elem_of_fmap.
      apply elem_of_seq. specialize (Hlt a Ha). lia. }
    apply submseteq_length in Hsub.
    by rewrite length_fmap, List.length_seq in Hsub.
Qed.

(** ** The fields of a consolidated message *)

Lemma chunk_payload_Some (id : string) (e : StreamEvent) (p : Payload) :
  chunk_payload id e = Some p ↔ chunk_of id e ∧ ev_payload e = Some p.
Proof.
  unfold chunk_payload, chunk_of, payload_messageId. split.
  - destruct (ev_payload e) as [q|]; [|done]. simpl.
    destruct (_ && _ && _) eqn:E; [|done]. intros [= ->].
    apply andb_true_iff in E as [[H1 H2%bool_decide_eq_true]%andb_true_iff H3].
    repeat split; try done. intros ->. done.
  - intros [(H1 & H2 & H3) Hp]. unfold payload_messageId in H2.
    rewrite Hp in H2 |- *. simpl in H2. rewrite H1, H2. simpl.
    rewrite bool_decide_eq_true_2 by done. simpl.
    destruct (String.eqb_spec id ""); done.
Qed.

Lemma chunk_payload_None (id : string) (e : StreamEvent) :
  chunk_payload id e = None ↔ ¬ chunk_of id e.
Proof.
  split.
  - intros Hn Hc. destruct (chunk_of_payload e id Hc) as (p & Hp & _).
    assert (chunk_payload id e = Some p) by (by apply chunk_payload_Some).
    congruence.
  - intros Hn. destruct (chunk_payload id e) as [p|] eqn:E; [|done].
    by apply chunk_payload_Some in E as [? _].
Qed.

Lemma last_written_snoc {A : Type} (w : StreamEvent → option A)
    (l : list StreamEvent) (e : StreamEvent) :
  last_written w (l ++ [e])
  = match w e with
    | Some v => Some v
    | None => last_written w l
    end.
Proof.
  unfold last_written. rewrite omap_app, last_app. simpl.
  by destruct (w e).
Qed.

Lemma last_written_none {A : Type} (w : StreamEvent → option A)
    (l : list StreamEvent) :
  (∀ e, e ∈ l → w e = None) → last_written w l = None.
Proof.
  induction l as [|e l IH] using rev_ind; intros H; [done|].
  rewrite last_written_snoc, (H e) by (apply elem_of_app; right; by left).
  apply IH. intros x Hx. apply H, elem_of_app. by left.
Qed.

Lemma text_not_structured_chunk (t : EventType) :
  isTextChunk t = true → isStructuredChunk t = false.
Proof. by destruct t. Qed.

Lemma consolidated_snoc (l : list StreamEvent) (e : StreamEvent)
    (id : string) :
  consolidated (l ++ [e]) id
  = match chunk_payload id e with
    | Some p =>
        Some match consolidated l id with
             | Some item => update_message item e p
             | None => new_message id e p (length l)
             end
    | None => consolidated l id
    end.
Proof.
  unfold consolidated. rewrite scan_events_snoc. cbn [process_event fst].
  destruct (chunk_payload id e) as [p|] eqn:E.
  - apply chunk_payload_Some in E as [Hc Hp].
    by apply message_step_get_chunk.
  - apply chunk_payload_None in E. by apply message_step_get_other.
Qed.

(** The entry of a messageId in the consolidator's map, field by field. *)
Lemma consolidated_fields (events : list StreamEvent) (id : string)
    (d : MessageData) :
  consolidated events id = Some d →
  msg_messageId d = id
  ∧ events !! msg_orderIndex d = Some (msg_event d)
  ∧ first_index (chunk_of id) events (msg_orderIndex d)
  ∧ msg_thinking d
    = default "" (last_written (written_str pl_thinking id) events)
  ∧ msg_finalAnswer d
    = default "" (last_written (written_str pl_finalAnswer id) events)
  ∧ msg_suggestion d
    = default "" (last_written (written_str pl_suggestion id) events)
  ∧ msg_textContent d
    = default (JString "") (last_written (written_text id) events)
  ∧ msg_structuredContent d
    = default (initial_structured (msg_event d))
        (last_written (written_structured id) events).
Proof.
  revert d. induction events as [|e l IH] using rev_ind; intros d; [done|].
  rewrite consolidated_snoc, !last_written_snoc.
  unfold written_str, written_text, written_structured.
  destruct (chunk_payload id e) as [p|] eqn:E; simpl.
  - apply chunk_payload_Some in E as [Hc Hp].
    destruct (consolidated l id) as [d0|] eqn:Hd0.
    + intros [= <-].
      destruct (IH d0 eq_refl) as (H1 & H2 & H3 & H4 & H5 & H6 & H7 & H8).
      cbn [update_message msg_messageId msg_event msg_orderIndex
           msg_thinking msg_finalAnswer msg_suggestion msg_textContent
           msg_structuredContent].
      split; [done|]. split; [apply lookup_snoc_Some; by left|].
      split; [by apply first_index_snoc_old|].
      split; [|split; [|split; [|split]]].
      * destruct (pl_thinking p) as [t|]; [|done].
        by destruct (truthy_str (Some t)).
      * destruct (pl_finalAnswer p) as [t|]; [|done].
        by destruct (truthy_str (Some t)).
      * destruct (pl_suggestion p) as [t|]; [|done].
        by destruct (truthy_str (Some t)).
      * by destruct (isTextChunk (ev_type e) && truthy (pl_content p)).
      * destruct (isTextChunk (ev_type e)) eqn:Et.
        -- rewrite (text_not_structured_chunk _ Et). simpl.
           by destruct (truthy (pl_content p)).
        -- simpl.
           by destruct (isStructuredChunk (ev_type e) && truthy (pl_content p)).
    + intros [= <-].
      assert (∀ x, x ∈ l → ¬ chunk_of id x) as Hnone.
      { by apply (messageMap_first l). }
      assert (∀ A (w : Payload → StreamEvent → option A),
                last_written (λ x, chunk_payload id x ≫= λ q, w q x) l = None)
        as Hw.
      { intros A w. apply last_written_none. intros x Hx.
        apply Hnone, chunk_payload_None in Hx. by rewrite Hx. }
      cbn [new_message msg_messageId msg_event msg_orderIndex
           msg_thinking msg_finalAnswer msg_suggestion msg_textContent
           msg_structuredContent].
      split; [done|]. split; [apply lookup_snoc_Some; by right|].
      split; [by apply first_index_snoc_new|].
      split; [|split; [|split; [|split]]].
      * rewrite (Hw _ (λ q _, if truthy_str (pl_thinking q)
                              then pl_thinking q else None)).
        destruct (pl_thinking p) as [t|]; [|done]. simpl.
        by destruct (negb (t =? "")).
      * rewrite (Hw _ (λ q _, if truthy_str (pl_finalAnswer q)
                              then pl_finalAnswer q else None)).
        destruct (pl_finalAnswer p) as [t|]; [|done]. simpl.
        by destruct (negb (t =? "")).
      * rewrite (Hw _ (λ q _, if truthy_str (pl_suggestion q)
                              then pl_suggestion q else None)).
        destruct (pl_suggestion p) as [t|]; [|done]. simpl.
        by destruct (negb (t =? "")).
      * rewrite (Hw _ (λ q x, if isTextChunk (ev_type x)
                                 && truthy (pl_content q)
                              then Some (pl_content q) else None)).
        destruct (isTextChunk (ev_type e)); [|done]. simpl.
        by destruct (truthy (pl_content p)).
      * rewrite (Hw _ (λ q x, if isStructuredChunk (ev_type x)
                                 && truthy (pl_content q)
                              then Some (pl_content q) else None)).
        unfold initial_structured, payload_content. rewrite Hp.
        destruct (isStructuredChunk (ev_type e)); [|done]. simpl.
        by destruct (truthy (pl_content p)).
  - intros Hd. apply chunk_payload_None in E.
    destruct (IH d Hd) as (H1 & H2 & H3 & H4 & H5 & H6 & H7 & H8).
    split; [done|]. split; [apply lookup_snoc_Some; by left|].
    split; [by apply first_index_snoc_old|]. done.
Qed.

(** X13: the fields of a message item.  An item of the ordered list keeps
    the first chunk of its message as its event and that chunk's position
    as its index; each of thinking, finalAnswer and suggestion is the last
    truthy value that a chunk of the message carries, and '' when none
    does; textContent is the content of the last text chunk with truthy
    content, and '' when there is none; structuredContent is the content of
    the last structured chunk with truthy content, and when there is none it
    is what the first chunk left: its content if it is structured,
    undefined otherwise.  A later falsy value never erases a field. *)
Theorem message_fields (events : list StreamEvent) (id : string)
    (d : MessageData) (i : nat) :
  MessageItem id d i ∈ orderedItems events →
  msg_messageId d = id ∧ i = msg_orderIndex d
  ∧ events !! i = Some (msg_event d)
  ∧ first_index (chunk_of id) events i
  ∧ msg_thinking d
    = default "" (last_written (written_str pl_thinking id) events)
  ∧ msg_finalAnswer d
    = default "" (last_written (written_str pl_finalAnswer id) events)
  ∧ msg_suggestion d
    = default "" (last_written (written_str pl_suggestion id) events)
  ∧ msg_textContent d
    = default (JString "") (last_written (written_text id) events)
  ∧ msg_structuredContent d
    = default (initial_structured (msg_event d))
        (last_written (written_structured id) events).
Proof.
  intros [Hget ->]%messageItem_elem.
  destruct (consolidated_fields events id d Hget) as (H1 & H2).
  split; [exact H1|]. split; [reflexivity|]. exact H2.
Qed.

Lemma message_fields_witness :
  ∃ d, MessageItem "m1" d 0 ∈ orderedItems mixed_message
       ∧ msg_thinking d = "hmm" ∧ msg_finalAnswer d = "summary"
       ∧ msg_textContent d = JString "Hi"
       ∧ msg_structuredContent d = JNull
       ∧ msg_structuredContent d
         = default (initial_structured (msg_event d))
             (last_written (written_structured "m1") mixed_message).
Proof.
  eexists.
  match goal with
  | |- ?item ∈ _ ∧ _ =>
      assert (item ∈ orderedItems mixed_message) as Hin
  end.
  { apply messageItem_elem. split; [vm_compute; reflexivity | reflexivity]. }
  split; [exact Hin|]. repeat (split; [reflexivity|]).
  exact (proj2 (proj2 (proj2 (proj2 (proj2 (proj2 (proj2 (proj2
           (message_fields mixed_message "m1" _ 0 Hin))))))))).
Defined.

(** ** What a message shows *)

Lemma last_written_Some {A : Type} (w : StreamEvent → option A)
    (l : list StreamEvent) (v : A) :
  last_written w l = Some v → ∃ e, e ∈ l ∧ w e = Some v.
Proof.
  induction l as [|e l IH] using rev_ind; [done|].
  rewrite last_written_snoc. destruct (w e) as [v'|] eqn:E.
  - intros [= <-]. exists e. split; [|done]. apply elem_of_app. right.
    by left.
  - intros (x & Hx & Hw)%IH. exists x. split; [|done].
    apply elem_of_app. by left.
Qed.

Lemma last_written_None {A : Type} (w : StreamEvent → option A)
    (l : list StreamEvent) :
  last_written w l = None → ∀ e, e ∈ l → w e = None.
Proof.
  induction l as [|e l IH] using rev_ind; [by intros _ e ?%elem_of_nil|].
  rewrite last_written_snoc. destruct (w e) as [v'|] eqn:E; [done|].
  intros H x [Hx|Hx%list_elem_of_singleton]%elem_of_app;
    [by apply IH | by subst].
Qed.

Lemma written_text_truthy (id : string) (e : StreamEvent) (v : JsValue) :
  written_text id e = Some v → truthy v = true.
Proof.
  unfold written_text. destruct (chunk_payload id e) as [p|]; [|done].
  simpl. destruct (isTextChunk _ && truthy (pl_content p)) eqn:E; [|done].
  intros [= <-]. by apply andb_true_iff in E as [_ ?].
Qed.

Lemma written_structured_truthy (id : string) (e : StreamEvent)
    (v : JsValue) :
  written_structured id e = Some v → truthy v = true.
Proof.
  unfold written_structured. destruct (chunk_payload id e) as [p|]; [|done].
  simpl.
  destruct (isStructuredChunk _ && truthy (pl_content p)) eqn:E; [|done].
  intros [= <-]. by apply andb_true_iff in E as [_ ?].
Qed.

Lemma structured_kinds (t : EventType) :
  isStructuredChunk t = true →
  (if type_eqb t chunk_table then true
   else if type_eqb t chunk_code then true
   else type_eqb t chunk_chart) = true.
Proof. by destruct t. Qed.

Section ContentChunkFacts.

Context (structure : string → Json).

Lemma ContentChunkComponent_content (d : MessageData) (isExpanded : bool) :
  cv_content <$> ContentChunkComponent structure d isExpanded
  = renderContent structure (msg_event d) (msg_textContent d)
      (msg_finalAnswer d) (msg_structuredContent d).
Proof. unfold ContentChunkComponent. by destruct (renderContent _ _ _ _ _). Qed.

(** X14: what a message shows is decided by its first chunk.  If the first
    chunk of the message is a text chunk, the component shows the content
    of the last text chunk with truthy content, or the 'thinking...'
    placeholder when there is none, and never the content of a structured
    chunk of that message; its render throws when that text is an object,
    which React does not accept as a child.  Otherwise it shows the card of
    the first chunk's type with the content of the last structured chunk
    with truthy content (an empty object when there is none) and never the
    content of a text chunk; its render throws when the card cannot render
    these data: for a table, when headers and rows are truthy and headers
    is not an array of valid children or rows is not an array of arrays of
    cells that String accepts, or the title is an object.  The branch that
    renders nothing is never taken. *)
Theorem content_by_first_chunk (events : list StreamEvent) (id : string)
    (d : MessageData) (i : nat) (isExpanded : bool) :
  MessageItem id d i ∈ orderedItems events →
  ∃ first,
    events !! i = Some first ∧ first_index (chunk_of id) events i
    ∧ cv_content <$> ContentChunkComponent structure d isExpanded
      = if isTextChunk (ev_type first) then
          match last_written (written_text id) events with
          | Some text =>
              if default true (valid_child <$> json_of structure text)
              then Some (TextSpan text)
              else None
          | None => Some ThinkingPulse
          end
        else
          let data :=
            or_empty_object structure
              (default JUndefined
                 (last_written (written_structured id) events)) in
          if card_renders (card_kind (ev_type first)) data
          then Some (Card (card_kind (ev_type first)) data
                       (shown (msg_finalAnswer d)))
          else None.
Proof.
  intros [Hget ->]%messageItem_elem.
  destruct (consolidated_fields events id d Hget)
    as (_ & Hev & Hfirst & _ & _ & _ & Htext & Hstruct).
  exists (msg_event d). split; [done|]. split; [done|].
  rewrite ContentChunkComponent_content. unfold renderContent.
  destruct (isTextChunk (ev_type (msg_event d))) eqn:Et.
  - rewrite Htext.
    destruct (last_written (written_text id) events) as [v|] eqn:E; [|done].
    apply last_written_Some in E as (e & _ & He). simpl.
    by rewrite (written_text_truthy id e v He).
  - assert (isStructuredChunk (ev_type (msg_event d)) = true) as Es.
    { destruct Hfirst as [(x & Hx & Hc & _) _].
      assert (x = msg_event d) as -> by congruence.
      rewrite Et in Hc. done. }
    assert (or_empty_object structure (msg_structuredContent d)
            = or_empty_object structure
                (default JUndefined
                   (last_written (written_structured id) events))) as ->.
    { rewrite Hstruct.
      destruct (last_written (written_structured id) events) as [v|] eqn:E;
        [done|].
      simpl. unfold initial_structured. rewrite Es.
      assert (written_structured id (msg_event d) = None) as Hn
        by (apply (last_written_None _ _ E);
            by eapply list_elem_of_lookup_2).
      unfold written_structured, payload_content in *.
      destruct Hfirst as [(x & Hx & Hc) _].
      assert (x = msg_event d) as -> by congruence.
      destruct (chunk_of_payload _ _ Hc) as (p & Hp & _).
      assert (chunk_payload id (msg_event d) = Some p) as Hcp
        by (by apply chunk_payload_Some).
      rewrite Hcp in Hn. simpl in Hn. rewrite Es in Hn. rewrite Hp.
      simpl in Hn. unfold or_empty_object.
      by destruct (truthy (pl_content p)). }
    cbv zeta.
    pose proof (structured_kinds _ Es) as Hk.
    destruct (ev_type (msg_event d)); try done.
Qed.

End ContentChunkFacts.

Lemma content_by_first_chunk_witness :
  (∃ d, MessageItem "m1" d 0 ∈ orderedItems text_then_table
        ∧ truthy (msg_structuredContent d) = true
        ∧ cv_content <$> ContentChunkComponent table_structure d true
          = Some (TextSpan (JString "Hi")))
  ∧ ∃ d, MessageItem "m1" d 0 ∈ orderedItems malformed_table
         ∧ ContentChunkComponent table_structure d true = None.
Proof.
  split.
  - eexists.
    match goal with
    | |- ?item ∈ _ ∧ _ =>
        assert (item ∈ orderedItems text_then_table) as Hin
    end.
    { apply messageItem_elem.
      split; [vm_compute; reflexivity | reflexivity]. }
    split; [exact Hin|]. split; [reflexivity|].
    destruct (content_by_first_chunk table_structure text_then_table "m1" _
                0 true Hin) as (first & Hf & _ & Hview).
    injection Hf as <-. exact Hview.
  - eexists.
    match goal with
    | |- ?item ∈ _ ∧ _ =>
        assert (item ∈ orderedItems malformed_table) as Hin
    end.
    { apply messageItem_elem.
      split; [vm_compute; reflexivity | reflexivity]. }
    split; [exact Hin|].
    destruct (content_by_first_chunk table_structure malformed_table "m1" _
                0 true Hin) as (first & Hf & _ & Hview).
    injection Hf as <-.
    match goal with
    | |- ?c = None => destruct c as [view|] eqn:E; [|reflexivity]
    end.
    vm_compute in Hview. discriminate Hview.
Defined.

(** ** A message while its events keep arriving *)

Lemma update_message_keeps (item : MessageData) (e : StreamEvent)
    (p : Payload) :
  msg_event (update_message item e p) = msg_event item
  ∧ msg_orderIndex (update_message item e p) = msg_orderIndex item
  ∧ (hasContent item = true → hasContent (update_message item e p) = true)
  ∧ (truthy_str (Some (msg_thinking item)) = true →
     truthy_str (Some (msg_thinking (update_message item e p))) = true).
Proof.
  split; [done|]. split; [done|]. split.
  - unfold hasContent.
    cbn [update_message msg_textContent msg_finalAnswer
         msg_structuredContent].
    intros [[Ht|Hf]%orb_true_iff|Hs]%orb_true_iff.
    + destruct (isTextChunk (ev_type e) && truthy (pl_content p)) eqn:E.
      * apply andb_true_iff in E as [_ ->]. done.
      * by rewrite Ht.
    + assert (truthy_str
                (Some match pl_finalAnswer p with
                      | Some a =>
                          if truthy_str (Some a) then a
                          else msg_finalAnswer item
                      | None => msg_finalAnswer item
                      end) = true) as ->; [|by rewrite orb_true_r].
      destruct (pl_finalAnswer p) as [a|]; [|done].
      by destruct (truthy_str (Some a)) eqn:E.
    + destruct (isTextChunk (ev_type e) && truthy (pl_content p)) eqn:E;
        [by rewrite Hs, orb_true_r|].
      destruct (isStructuredChunk (ev_type e) && truthy (pl_content p))
        eqn:E'; [|by rewrite Hs, orb_true_r].
      apply andb_true_iff in E' as [_ ->]. by rewrite orb_true_r.
  - cbn [update_message msg_thinking]. intros Ht.
    destruct (pl_thinking p) as [a|]; [|done].
    by destruct (truthy_str (Some a)) eqn:E.
Qed.

(** X15: a message only grows.  Once the consolidator has an entry for a
    messageId, every longer event list has one too, with the same event and
    the same index (so the component keeps its key and its kind); content
    that has arrived stays (hasContent never turns false again), and so
    does thinking text. *)
Theorem message_only_grows (events more : list StreamEvent) (id : string)
    (d : MessageData) :
  consolidated events id = Some d →
  ∃ d', consolidated (events ++ more) id = Some d'
        ∧ msg_event d' = msg_event d
        ∧ msg_orderIndex d' = msg_orderIndex d
        ∧ (hasContent d = true → hasContent d' = true)
        ∧ (truthy_str (Some (msg_thinking d)) = true →
           truthy_str (Some (msg_thinking d')) = true).
Proof.
  intros Hd. induction more as [|e more IH] using rev_ind.
  - rewrite app_nil_r. by exists d.
  - destruct IH as (d1 & H1 & He & Hi & Hc & Ht).
    rewrite app_assoc, consolidated_snoc, H1.
    destruct (chunk_payload id e) as [p|]; [|by exists d1].
    exists (update_message d1 e p).
    destruct (update_message_keeps d1 e p) as (He' & Hi' & Hc' & Ht').
    split; [done|]. split; [congruence|]. split; [congruence|].
    split; [intros H; by apply Hc', Hc | intros H; by apply Ht', Ht].
Qed.

Lemma message_only_grows_witness :
  ∃ d, consolidated (take 2 mixed_message) "m1" = Some d
       ∧ hasContent d = true
       ∧ ∃ d', consolidated mixed_message "m1" = Some d'
               ∧ msg_event d' = msg_event d ∧ hasContent d' = true.
Proof.
  eexists. split; [vm_compute; reflexivity|]. split; [reflexivity|].
  match goal with
  | |- ∃ d', _ ∧ msg_event _ = msg_event ?d ∧ _ =>
      destruct (message_only_grows (take 2 mixed_message)
                  (drop 2 mixed_message) "m1" d eq_refl)
        as (d' & Hd' & He & _ & Hc & _)
  end.
  exists d'. split; [exact Hd'|]. split; [exact He | by apply Hc].
Defined.

(** ** The effect, flag by flag *)











(** ** The disclosure toggle *)

(** X17: what a click on the disclosure button does.  A message whose flag
    was never set is shown expanded.  If its messageId is no name that
    objects inherit, the first click sets the flag to true: the message
    stays expanded, and only the second click collapses it.  If its
    messageId is such a name ('constructor', say), the first click reads an
    inherited member, which is truthy, and collapses the message.  Once the
    flag is set, each click flips what is shown.  A click changes no other
    flag. *)
Theorem toggle_first_click (expanded : gmap string bool) (id : string) :
  (expanded !! id = None → inherited id = false →
   isExpanded expanded id = true
   ∧ isExpanded (toggleItemExpand expanded id) id = true
   ∧ isExpanded (toggleItemExpand (toggleItemExpand expanded id) id) id
     = false)
  ∧ (expanded !! id = None → inherited id = true →
     isExpanded expanded id = true
     ∧ isExpanded (toggleItemExpand expanded id) id = false)
  ∧ (is_Some (expanded !! id) →
     isExpanded (toggleItemExpand expanded id) id
     = negb (isExpanded expanded id))
  ∧ ∀ id', id' ≠ id → toggleItemExpand expanded id !! id' = expanded !! id'.
Proof.
  unfold isExpanded, toggleItemExpand, read_flag. split; [|split; [|split]].
  - intros Hn Hi. rewrite !lookup_insert_eq, Hn, Hi. done.
  - intros Hn Hi. rewrite !lookup_insert_eq, Hn, Hi. done.
  - intros [b Hb]. by rewrite lookup_insert_eq, Hb.
  - intros id' Hne. by rewrite lookup_insert_ne.
Qed.

Lemma toggle_first_click_witness :
  (isExpanded ∅ "m1" = true
   ∧ isExpanded (toggleItemExpand ∅ "m1") "m1" = true
   ∧ isExpanded (toggleItemExpand (toggleItemExpand ∅ "m1") "m1") "m1"
     = false)
  ∧ isExpanded ∅ "constructor" = true
  ∧ isExpanded (toggleItemExpand ∅ "constructor") "constructor" = false.
Proof.
  split.
  - exact (proj1 (toggle_first_click ∅ "m1") eq_refl eq_refl).
  - exact (proj1 (proj2 (toggle_first_click ∅ "constructor"))
             eq_refl eq_refl).
Defined.

(** ** The label of a tool call *)

Lemma is_word_toUpperCase (c : ascii) : is_word (toUpperCase c) = is_word c.
Proof. destruct c as [[] [] [] [] [] [] [] []]; reflexivity. Qed.

Lemma toUpperCase_idem (c : ascii) :
  toUpperCase (toUpperCase c) = toUpperCase c.
Proof. destruct c as [[] [] [] [] [] [] [] []]; reflexivity. Qed.

Lemma toUpperCase_separator (c : ascii) :
  ((c =? "-") || (c =? "_"))%char = false →
  ((toUpperCase c =? "-") || (toUpperCase c =? "_"))%char = false.
Proof.
  intros H.
  destruct c as [[] [] [] [] [] [] [] []];
    (reflexivity || (vm_compute in H; discriminate)).
Qed.

Lemma replace_separators_none (s : string) :
  no_separator (replace_separators s) = true.
Proof.
  induction s as [|c s IH]; [done|].
  cbn [replace_separators no_separator]. rewrite IH, andb_true_r.
  destruct ((c =? "-")%char || (c =? "_")%char) eqn:E; [reflexivity|].
  by rewrite E.
Qed.

Lemma replace_separators_id (s : string) :
  no_separator s = true → replace_separators s = s.
Proof.
  induction s as [|c s IH]; [done|].
  cbn [replace_separators no_separator].
  intros [Hc%negb_true_iff Hs]%andb_true_iff. by rewrite (IH Hs), Hc.
Qed.

Lemma capitalize_words_none (b : bool) (s : string) :
  no_separator s = true → no_separator (capitalize_words b s) = true.
Proof.
  revert b. induction s as [|c s IH]; intros b; [done|].
  cbn [capitalize_words no_separator].
  intros [Hc%negb_true_iff Hs]%andb_true_iff. rewrite (IH _ Hs), andb_true_r.
  destruct (is_word c && negb b); [|by rewrite Hc].
  by rewrite (toUpperCase_separator c Hc).
Qed.

Lemma capitalize_words_idem (b : bool) (s : string) :
  capitalize_words b (capitalize_words b s) = capitalize_words b s.
Proof.
  revert b. induction s as [|c s IH]; intros b; [done|].
  cbn [capitalize_words].
  destruct (is_word c && negb b) eqn:E.
  - rewrite is_word_toUpperCase, E, toUpperCase_idem. f_equal. apply IH.
  - rewrite E. f_equal. apply IH.
Qed.

Lemma capitalize_words_length (b : bool) (s : string) :
  String.length (capitalize_words b s) = String.length s.
Proof.
  revert b. induction s as [|c s IH]; intros b; [done|]. simpl.
  by rewrite IH.
Qed.

Lemma replace_separators_length (s : string) :
  String.length (replace_separators s) = String.length s.
Proof. induction s as [|c s IH]; [done|]. simpl. by rewrite IH. Qed.

(** X18: the label a tool call is shown with.  The label has the length of
    the tool name, contains no hyphen and no underscore, and formatting it
    again changes nothing. *)
Theorem toolName_label_shape (toolName : string) :
  String.length (toolName_label toolName) = String.length toolName
  ∧ no_separator (toolName_label toolName) = true
  ∧ toolName_label (toolName_label toolName) = toolName_label toolName.
Proof.
  unfold toolName_label. split; [|split].
  - by rewrite capitalize_words_length, replace_separators_length.
  - apply capitalize_words_none, replace_separators_none.
  - rewrite (replace_separators_id (capitalize_words false _))
      by apply capitalize_words_none, replace_separators_none.
    apply capitalize_words_idem.
Qed.

(** ** The stream reader *)

Lemma append_cons (x : ascii) (a b : string) :
  String x a +:+ b = String x (a +:+ b).
Proof. reflexivity. Qed.

Lemma append_assoc (a b c : string) : (a +:+ b) +:+ c = a +:+ (b +:+ c).
Proof.
  induction a as [|x a IH]; [done|]. rewrite !append_cons. by f_equal.
Qed.

Lemma append_empty_r (a : string) : a +:+ "" = a.
Proof.
  induction a as [|x a IH]; [done|]. rewrite append_cons. by f_equal.
Qed.

Lemma no_newline_append (a b : string) :
  no_newline (a +:+ b) = no_newline a && no_newline b.
Proof.
  induction a as [|x a IH]; [done|]. rewrite append_cons.
  cbn [no_newline]. by rewrite IH, andb_assoc.
Qed.

Lemma split_from_nonempty (line s : string) : split_from line s ≠ [].
Proof.
  revert line. induction s as [|c s IH]; intros line; [done|].
  cbn [split_from]. destruct (c =? newline)%char; [done | apply IH].
Qed.

Lemma removelast_cons_nonempty {A : Type} (x : A) (l : list A) :
  l ≠ [] → removelast (x :: l) = x :: removelast l.
Proof. by destruct l. Qed.

Lemma last_cons_nonempty {A : Type} (x : A) (l : list A) :
  l ≠ [] → last (x :: l) = last l.
Proof. by destruct l. Qed.

Lemma split_from_app (line a b : string) :
  removelast (split_from line (a +:+ b))
  = removelast (split_from line a)
    ++ removelast (split_from (default "" (last (split_from line a))) b).
Proof.
  revert line. induction a as [|c a IH]; intros line; [done|].
  rewrite append_cons. cbn [split_from].
  destruct (c =? newline)%char; [|apply IH].
  rewrite !removelast_cons_nonempty, last_cons_nonempty
    by apply split_from_nonempty.
  by rewrite IH.
Qed.

Lemma split_from_last_no_newline (line s : string) :
  no_newline line = true →
  no_newline (default "" (last (split_from line s))) = true.
Proof.
  revert line. induction s as [|c s IH]; intros line Hl; [done|].
  cbn [split_from]. destruct (c =? newline)%char eqn:E.
  - rewrite last_cons_nonempty by apply split_from_nonempty. by apply IH.
  - apply IH. rewrite no_newline_append, Hl. cbn [no_newline].
    by rewrite E.
Qed.

Lemma split_from_buffer (line buffer s : string) :
  no_newline buffer = true →
  split_from line (buffer +:+ s) = split_from (line +:+ buffer) s.
Proof.
  revert line. induction buffer as [|c buffer IH]; intros line Hb.
  - by rewrite append_empty_r.
  - cbn [no_newline] in Hb. apply andb_true_iff in Hb as [Hc%negb_true_iff Hb].
    rewrite append_cons. cbn [split_from]. rewrite Hc, (IH _ Hb).
    by rewrite append_assoc.
Qed.

Section StreamReaderFacts.

Context {E : Type} (trim : string → string) (JSON_parse : string → option E).

Lemma read_loop_from_buffer (requestId buffer : string)
    (chunks : list string) (ending : StreamEnd) :
  no_newline buffer = true →
  read_loop E trim JSON_parse requestId buffer chunks ending
  = List.map (STREAM_EVENT requestId)
      (omap (parse_line E trim JSON_parse)
         (removelast (split_from buffer (body_text chunks))))
    ++ [end_message requestId ending].
Proof.
  revert buffer. induction chunks as [|chunk chunks IH]; intros buffer Hb.
  - by destruct ending.
  - cbn [read_loop body_text foldr]. unfold read_chunk. cbn [fst snd].
    unfold split_lines. rewrite (split_from_buffer "" buffer chunk Hb).
    change ("" +:+ buffer) with buffer.
    rewrite IH by (by apply split_from_last_no_newline).
    rewrite split_from_app, omap_app, List.map_app.
    by rewrite <- app_assoc.
Qed.

(** X19: what the stream reader sends.  Whatever way the body is cut into
    chunks, the reader sends one STREAM_EVENT for each line of the whole
    text that is closed by a line feed, starts with 'data:' and parses, in
    order, and then one message for the end of the body.  The text after
    the last line feed is never parsed, so a last event that is not
    followed by a line feed is lost; two ways of cutting the same text give
    the same messages. *)
Theorem reader_sends_complete_lines (requestId : string)
    (chunks : list string) (ending : StreamEnd) :
  read_loop E trim JSON_parse requestId "" chunks ending
  = List.map (STREAM_EVENT requestId)
      (omap (parse_line E trim JSON_parse)
         (complete_lines (body_text chunks)))
    ++ [end_message requestId ending]
  ∧ ∀ chunks', body_text chunks' = body_text chunks →
               read_loop E trim JSON_parse requestId "" chunks' ending
               = read_loop E trim JSON_parse requestId "" chunks ending.
Proof.
  split.
  - by apply read_loop_from_buffer.
  - intros chunks' Heq.
    rewrite !read_loop_from_buffer by done. by rewrite Heq.
Qed.

End StreamReaderFacts.

(** ** The side panel's listener *)

Lemma update_last_length {A : Type} (f : A → A) (l : list A) :
  length (update_last f l) = length l.
Proof.
  induction l as [|x l IH]; [done|]. destruct l as [|y l]; [done|].
  change (update_last f (x :: y :: l)) with (x :: update_last f (y :: l)).
  simpl in *. by rewrite IH.
Qed.

Lemma update_last_removelast {A : Type} (f : A → A) (l : list A) :
  removelast (update_last f l) = removelast l.
Proof.
  induction l as [|x l IH]; [done|]. destruct l as [|y l]; [done|].
  change (update_last f (x :: y :: l)) with (x :: update_last f (y :: l)).
  assert (update_last f (y :: l) ≠ []) as Hne.
  { intros H. apply (f_equal length) in H.
    rewrite update_last_length in H. done. }
  rewrite (removelast_cons_nonempty x _ Hne).
  rewrite (removelast_cons_nonempty x (y :: l)) by done. by rewrite IH.
Qed.

Lemma update_last_last {A : Type} (f : A → A) (l : list A) :
  last (update_last f l) = f <$> last l.
Proof.
  induction l as [|x l IH]; [done|]. destruct l as [|y l]; [done|].
  change (update_last f (x :: y :: l)) with (x :: update_last f (y :: l)).
  assert (update_last f (y :: l) ≠ []) as Hne.
  { intros H. apply (f_equal length) in H.
    rewrite update_last_length in H. done. }
  rewrite (last_cons_nonempty x _ Hne).
  by rewrite (last_cons_nonempty x (y :: l)).
Qed.

Lemma messageListener_other {E : Type} (s : PanelState E)
    (request : RuntimeMessage E) :
  Some (requestId_of request) ≠ currentRequestId s →
  messageListener s request = s.
Proof.
  intros Hne. unfold messageListener.
  destruct (strict_eq (Some (requestId_of request)) (currentRequestId s))
    eqn:E'; [|done].
  by apply strict_eq_spec in E'.
Qed.

Lemma messageListener_frame {E : Type} (s : PanelState E)
    (request : RuntimeMessage E) :
  length (messages (messageListener s request)) = length (messages s)
  ∧ removelast (messages (messageListener s request))
    = removelast (messages s).
Proof.
  unfold messageListener. destruct (negb _); [done|].
  destruct request; cbn [messages];
    by rewrite update_last_length, update_last_removelast.
Qed.

Lemma listen_frame {E : Type} (requests : list (RuntimeMessage E))
    (s : PanelState E) :
  length (messages (listen s requests)) = length (messages s)
  ∧ removelast (messages (listen s requests)) = removelast (messages s).
Proof.
  revert s. induction requests as [|r requests IH]; intros s; [done|].
  unfold listen. cbn [fold_left].
  destruct (IH (messageListener s r)) as [H1 H2].
  destruct (messageListener_frame s r) as [H3 H4].
  unfold listen in H1, H2. split; congruence.
Qed.

Lemma listen_other {E : Type} (requests : list (RuntimeMessage E))
    (s : PanelState E) :
  Forall (λ r, Some (requestId_of r) ≠ currentRequestId s) requests →
  listen s requests = s.
Proof.
  induction requests as [|r requests IH]; intros H; [done|].
  apply Forall_cons in H as [Hr H]. unfold listen. cbn [fold_left].
  rewrite (messageListener_other s r Hr). by apply IH.
Qed.

(** X20: what the listener can change.  Whatever messages arrive, the list
    of chat messages keeps its length and all its entries but the last;
    messages that do not carry the id of the current request change
    nothing, and when no request is current (the ref is null) no message of
    the content script changes anything. *)
Theorem listener_touches_last_only {E : Type} (s : PanelState E)
    (requests : list (RuntimeMessage E)) :
  length (messages (listen s requests)) = length (messages s)
  ∧ removelast (messages (listen s requests)) = removelast (messages s)
  ∧ (Forall (λ r, Some (requestId_of r) ≠ currentRequestId s) requests →
     listen s requests = s)
  ∧ (currentRequestId s = None → listen s requests = s).
Proof.
  destruct (listen_frame requests s) as [Hlen Hinit].
  split; [exact Hlen|]. split; [exact Hinit|].
  split; [apply listen_other|].
  intros Hn. apply listen_other, Forall_forall. intros r _. by rewrite Hn.
Qed.

Lemma listener_touches_last_only_witness :
  listen idle_panel
    [STREAM_EVENT "req_1" "e2"; STREAM_ERROR "req_1" "late"]
  = idle_panel.
Proof.
  exact (proj2 (proj2 (proj2
           (listener_touches_last_only idle_panel
              [STREAM_EVENT "req_1" "e2"; STREAM_ERROR "req_1" "late"])))
           eq_refl).
Defined.

(** ** From the response to the chat message *)

Lemma listen_app {E : Type} (s : PanelState E)
    (l1 l2 : list (RuntimeMessage E)) :
  listen s (l1 ++ l2) = listen (listen s l1) l2.
Proof. unfold listen. by rewrite fold_left_app. Qed.

Lemma strict_eq_refl (o : option string) : strict_eq o o = true.
Proof. by apply strict_eq_spec. Qed.

Lemma listen_events {E : Type} (rid : string) (events : list E)
    (s : PanelState E) (m : Message E) :
  currentRequestId s = Some rid → last (messages s) = Some m →
  role m = assistant →
  currentRequestId (listen s (List.map (STREAM_EVENT rid) events)) = Some rid
  ∧ isLoading (listen s (List.map (STREAM_EVENT rid) events)) = isLoading s
  ∧ last (messages (listen s (List.map (STREAM_EVENT rid) events)))
    = Some (mkChatMessage assistant (content m)
              match last events with
              | Some e => Some e
              | None => currentEvent m
              end
              (isStreaming m)).
Proof.
  revert s m. induction events as [|e events IH]; intros s m Hid Hlast Hrole.
  - cbn [List.map]. unfold listen. cbn [fold_left last].
    split; [done|]. split; [done|]. rewrite Hlast. f_equal.
    destruct m as [r c ev st]. simpl in *. by subst r.
  - cbn [List.map]. unfold listen. cbn [fold_left].
    set (s1 := messageListener s (STREAM_EVENT rid e)).
    assert (s1 = mkPanel
                   (update_last
                      (λ lastMsg,
                         match role lastMsg with
                         | assistant =>
                             mkChatMessage (role lastMsg) (content lastMsg)
                               (Some e) (isStreaming lastMsg)
                         | user => lastMsg
                         end)
                      (messages s))
                   (isLoading s) (currentRequestId s)) as Hs1.
    { subst s1. unfold messageListener. cbn [requestId_of].
      by rewrite Hid, strict_eq_refl. }
    destruct (IH s1 (mkChatMessage assistant (content m) (Some e)
                       (isStreaming m))) as (H1 & H2 & H3).
    + by rewrite Hs1.
    + rewrite Hs1. cbn [messages]. rewrite update_last_last, Hlast.
      cbn [fmap option_fmap option_map]. by rewrite Hrole.
    + done.
    + unfold listen in H1, H2, H3. rewrite H1, H2, H3.
      split; [done|]. split; [by rewrite Hs1|]. f_equal.
      cbn [content isStreaming currentEvent]. rewrite last_cons.
      by destruct (last events).
Qed.

Lemma listen_idle {E : Type} (s : PanelState E)
    (more : list (RuntimeMessage E)) :
  currentRequestId s = None → listen s more = s.
Proof.
  intros Hn. apply listen_other, Forall_forall. intros r _. by rewrite Hn.
Qed.

Lemma listen_error {E : Type} (s : PanelState E) (rid error : string) :
  currentRequestId s = Some rid →
  listen s [STREAM_ERROR rid error]
  = mkPanel
      (update_last
         (λ _, mkChatMessage assistant ("Error: " +:+ error) None (Some false))
         (messages s))
      false None.
Proof.
  intros Hid. unfold listen. cbn [fold_left]. unfold messageListener.
  cbn [requestId_of]. by rewrite Hid, strict_eq_refl.
Qed.

Lemma listen_complete {E : Type} (s : PanelState E) (rid : string) :
  currentRequestId s = Some rid →
  listen s [STREAM_COMPLETE rid]
  = mkPanel
      (update_last
         (λ lastMsg : Message E,
            match role lastMsg with
            | assistant =>
                mkChatMessage (role lastMsg) (content lastMsg)
                  (currentEvent lastMsg) (Some false)
            | user => lastMsg
            end)
         (messages s))
      false None.
Proof.
  intros Hid. unfold listen. cbn [fold_left]. unfold messageListener.
  cbn [requestId_of]. by rewrite Hid, strict_eq_refl.
Qed.

(** X21: from the response to the chat message.  While the request is the
    current one and the last chat message is the assistant's, the stream of
    a response leaves the panel with no current request, not loading, and
    the last message still the assistant's and no longer streaming.  After
    a body that ends normally that message keeps its content and holds the
    last event of the body (its former event if the body had none); after
    any failure it is replaced by one that holds the error text and no
    event.  Whatever arrives later changes nothing. *)
Theorem response_reaches_the_panel {E : Type} (trim : string → string)
    (JSON_parse : string → option E) (s : PanelState E) (rid : string)
    (outcome : FetchOutcome) (m : Message E) :
  currentRequestId s = Some rid → last (messages s) = Some m →
  role m = assistant →
  ∃ m',
    last (messages (listen s (stream_response E trim JSON_parse rid outcome)))
    = Some m'
    ∧ role m' = assistant ∧ isStreaming m' = Some false
    ∧ currentRequestId
        (listen s (stream_response E trim JSON_parse rid outcome)) = None
    ∧ isLoading (listen s (stream_response E trim JSON_parse rid outcome))
      = false
    ∧ (∀ more,
         listen (listen s (stream_response E trim JSON_parse rid outcome))
           more
         = listen s (stream_response E trim JSON_parse rid outcome))
    ∧ match outcome with
      | Body chunks Done =>
          content m' = content m
          ∧ currentEvent m'
            = match last (body_events trim JSON_parse chunks) with
              | Some e => Some e
              | None => currentEvent m
              end
      | Body _ (Failed error) | Rejected error =>
          content m' = "Error: " +:+ error ∧ currentEvent m' = None
      | NotOk status =>
          content m' = "Error: HTTP error! status: " +:+ status
          ∧ currentEvent m' = None
      | NoBody =>
          content m' = "Error: No response body" ∧ currentEvent m' = None
      end.
Proof.
  intros Hid Hlast Hrole.
  assert (∀ (s1 : PanelState E) (m1 : Message E) (error : string),
            currentRequestId s1 = Some rid → last (messages s1) = Some m1 →
            ∃ m', last (messages (listen s1 [STREAM_ERROR rid error]))
                  = Some m'
                  ∧ role m' = assistant ∧ isStreaming m' = Some false
                  ∧ currentRequestId (listen s1 [STREAM_ERROR rid error])
                    = None
                  ∧ isLoading (listen s1 [STREAM_ERROR rid error]) = false
                  ∧ (∀ more, listen (listen s1 [STREAM_ERROR rid error]) more
                             = listen s1 [STREAM_ERROR rid error])
                  ∧ content m' = "Error: " +:+ error
                  ∧ currentEvent m' = None) as Herr.
  { intros s1 m1 error Hid1 Hlast1. rewrite (listen_error s1 rid error Hid1).
    cbn [messages currentRequestId isLoading].
    rewrite update_last_last, Hlast1. eexists. split; [reflexivity|].
    repeat (split; [done|]). split; [|done].
    intros more. by apply listen_idle. }
  destruct outcome as [error|status|  |chunks ending];
    cbn [stream_response]; try (by eapply Herr).
  rewrite read_loop_from_buffer by done. rewrite listen_app.
  change (omap (parse_line E trim JSON_parse)
            (removelast (split_from "" (body_text chunks))))
    with (body_events trim JSON_parse chunks).
  destruct (listen_events rid (body_events trim JSON_parse chunks) s m
              Hid Hlast Hrole) as (H1 & H2 & H3).
  set (s1 := listen s (List.map (STREAM_EVENT rid)
                         (body_events trim JSON_parse chunks))) in *.
  destruct ending as [|error]; [|by eapply Herr].
  cbn [end_message]. rewrite (listen_complete s1 rid H1).
  cbn [messages currentRequestId isLoading].
  rewrite update_last_last, H3. eexists. split; [reflexivity|].
  cbn [role content currentEvent isStreaming].
  repeat (split; [done|]). split; [|done].
  intros more. by apply listen_idle.
Qed.

Lemma response_reaches_the_panel_witness :
  ∃ m', last (messages
                (listen waiting_panel
                   (stream_response string (λ x, x) Some "req_1"
                      (Body [ "data:e1" +:+ String newline "data:";
                              "e2" +:+ String newline "data:e3" ] Done))))
        = Some m'
        ∧ isStreaming m' = Some false ∧ currentEvent m' = Some "e2".
Proof.
  destruct (response_reaches_the_panel (λ x, x) Some waiting_panel "req_1"
              (Body [ "data:e1" +:+ String newline "data:";
                      "e2" +:+ String newline "data:e3" ] Done)
              (mkChatMessage assistant "" None (Some true))
              eq_refl eq_refl eq_refl)
    as (m' & Hm' & _ & Hs & _ & _ & _ & _ & He).
  exists m'. split; [exact Hm'|]. split; [exact Hs|]. exact He.
Defined.

(** ** A node and the events of the other runs *)

(** X22: a node depends on the events of its own run only.  If two event
    lists have the same events of a runId, in the same order, the nodes
    their trees hold for that runId are equal in everything but the
    childAgent links of their tool calls: events of other runs can change
    which child a tool call is linked to, and nothing else. *)
Theorem node_depends_on_own_events (events events' : list StreamEvent)
    (tree tree' : ExecutionTree) (rid : string) :
  buildExecutionTree events = Some tree →
  buildExecutionTree events' = Some tree' →
  bucket rid events' = bucket rid events →
  unlinked <$> Map_get tree' rid = unlinked <$> Map_get tree rid.
Proof.
  intros Hb Hb' Heq.
  rewrite (buildExecutionTree_node events tree rid Hb).
  rewrite (buildExecutionTree_node events' tree' rid Hb').
  unfold derived_node, initial_node. by rewrite Heq.
Qed.

Lemma node_depends_on_own_events_witness :
  ∃ tree tree',
    buildExecutionTree parent_first = Some tree
    ∧ buildExecutionTree child_first = Some tree'
    ∧ unlinked <$> Map_get tree' "A" = unlinked <$> Map_get tree "A".
Proof.
  eexists _, _. split; [vm_compute; reflexivity|].
  split; [vm_compute; reflexivity|].
  by apply (node_depends_on_own_events parent_first child_first).
Defined.

(** X23: a node while events keep arriving.  When more events are appended
    and the builder still returns, a node that was in the tree is in the
    new tree under the same runId, with the same parentId, toolCallId and
    agentId (so a root stays a root), and its events are the former ones
    followed by the new events of its run. *)
Theorem node_identity_is_stable (events more : list StreamEvent)
    (tree tree' : ExecutionTree) (rid : string) (node : ExecutionNode) :
  buildExecutionTree events = Some tree →
  buildExecutionTree (events ++ more) = Some tree' →
  Map_get tree rid = Some node →
  ∃ node', Map_get tree' rid = Some node'
           ∧ node_parentId node' = node_parentId node
           ∧ node_toolCallId node' = node_toolCallId node
           ∧ node_agentId node' = node_agentId node
           ∧ node_events node' = node_events node ++ bucket rid more.
Proof.
  intros Hb Hb' Hnode.
  destruct (built_node events tree rid node Hb Hnode)
    as (Hne & _ & Hev & _ & _ & _ & first & Hfirst & Hp & Ht & Ha).
  assert (bucket rid (events ++ more) = node_events node ++ bucket rid more)
    as Hbucket by (unfold bucket in *; by rewrite List.filter_app, Hev).
  assert (is_Some (Map_get tree' rid)) as [node' Hnode'].
  { pose proof (buildExecutionTree_node _ _ rid Hb') as Hd.
    assert (is_Some (initial_node rid (events ++ more))) as [n0 Hn0].
    { apply initial_node_is_Some. split; [done|].
      destruct (head_bucket_elem rid events first) as [Hin Hr];
        [by rewrite <- Hev|].
      exists first. split; [|done]. apply elem_of_app. by left. }
    unfold derived_node in Hd. rewrite Hn0 in Hd.
    destruct (Map_get tree' rid) as [n'|]; [by eexists | done]. }
  exists node'. split; [done|].
  destruct (built_node (events ++ more) tree' rid node' Hb' Hnode')
    as (_ & _ & Hev' & _ & _ & _ & first' & Hfirst' & Hp' & Ht' & Ha').
  assert (first' = first) as ->.
  { rewrite Hev', Hbucket in Hfirst'.
    destruct (node_events node) as [|x rest]; [done|].
    simpl in Hfirst, Hfirst'. congruence. }
  rewrite Hp, Ht, Ha, Hp', Ht', Ha', Hev', Hbucket. done.
Qed.

Lemma node_identity_is_stable_witness :
  ∃ tree tree' node,
    buildExecutionTree (take 1 parent_first) = Some tree
    ∧ buildExecutionTree parent_first = Some tree'
    ∧ Map_get tree "A" = Some node
    ∧ ∃ node', Map_get tree' "A" = Some node'
               ∧ node_parentId node' = node_parentId node
               ∧ node_events node'
                 = node_events node ++ bucket "A" (drop 1 parent_first).
Proof.
  eexists _, _, _. split; [vm_compute; reflexivity|].
  split; [vm_compute; reflexivity|]. split; [vm_compute; reflexivity|].
  match goal with
  | |- ∃ node', Map_get ?t' _ = _ ∧ _ = node_parentId ?n ∧ _ =>
      destruct (node_identity_is_stable (take 1 parent_first)
                  (drop 1 parent_first) _ t' "A" n eq_refl eq_refl eq_refl)
        as (node' & H1 & H2 & _ & _ & H3)
  end.
  exists node'. split; [exact H1|]. split; [exact H2 | exact H3].
Defined.

(** ** The whole component *)

Lemma deliver_nil (stream : list (option StreamEvent)) :
  deliver [] stream = [] ↔ Forall (λ o, o = None) stream.
Proof.
  induction stream as [|o stream IH] using rev_ind.
  - split; [by constructor | done].
  - rewrite deliver_snoc, Forall_app, Forall_singleton.
    destruct o as [e|].
    + split; [|by intros [_ ?]]. intros H. exfalso.
      destruct (appendEvent_cases (deliver [] stream) e)
        as [(x & Hx & Hk)|Hnew].
      * rewrite (appendEvent_duplicate _ e x Hx Hk) in H.
        rewrite H in Hx. by apply elem_of_nil in Hx.
      * rewrite (appendEvent_new _ e Hnew) in H.
        by destruct (deliver [] stream).
    + assert (appendEvent (deliver [] stream) None = deliver [] stream) as ->
        by done.
      rewrite IH. split; [by intros ? | by intros [? _]].
Qed.

Section WholeComponentFacts.

Context (structure : string → Json).

Lemma forallb_row_renders (rows : list Row) :
  forallb (row_renders structure) rows = false
  ↔ ∃ depth runId messageId data expanded,
      MessageRow depth runId messageId data expanded ∈ rows
      ∧ ContentChunkComponent structure data expanded = None.
Proof.
  induction rows as [|row rows IH].
  - split; [done|]. by intros (? & ? & ? & ? & ? & ?%elem_of_nil & _).
  - cbn [forallb]. rewrite andb_false_iff, IH. split.
    + intros [Hrow|(depth & r & m & d & e & Hin & Hnone)].
      * destruct row as [depth r m d e|]; [|done]. simpl in Hrow.
        exists depth, r, m, d, e. split; [by left|].
        by destruct (ContentChunkComponent structure d e).
      * exists depth, r, m, d, e. split; [by right | done].
    + intros (depth & r & m & d & e & Hin & Hnone).
      apply elem_of_cons in Hin as [<-|Hin].
      * left. simpl. by rewrite Hnone.
      * right. by exists depth, r, m, d, e.
Qed.

(** X24: the component as a whole.  After any deliveries of the event
    prop, the render fails exactly when the builder throws or the
    component of some rendered message throws; the streaming cursor is
    shown exactly when every delivery so far was null, so it goes with the
    first event and never comes back; in every other case the component
    returns the rows of its root nodes. *)
Theorem assistant_message_view (stream : list (option StreamEvent))
    (st : ViewState) :
  (AssistantMessage structure st (deliver [] stream) = None
   ↔ buildExecutionTree (deliver [] stream) = None
     ∨ ∃ tree, buildExecutionTree (deliver [] stream) = Some tree
               ∧ message_throws structure st tree)
  ∧ (AssistantMessage structure st (deliver [] stream) = Some StreamingCursor
     ↔ Forall (λ o, o = None) stream)
  ∧ (∀ more,
       AssistantMessage structure st (deliver [] stream)
       ≠ Some StreamingCursor →
       AssistantMessage structure st (deliver [] (stream ++ more))
       ≠ Some StreamingCursor)
  ∧ ∀ view, AssistantMessage structure st (deliver [] stream) = Some view →
            view ≠ StreamingCursor →
            ∃ tree, buildExecutionTree (deliver [] stream) = Some tree
                    ∧ renderRoots (length tree) st tree
                      = Some match view with
                             | ExecutionRows rows => rows
                             | StreamingCursor => []
                             end.
Proof.
  assert (∀ events,
            (AssistantMessage structure st events = None
             ↔ buildExecutionTree events = None
               ∨ ∃ tree, buildExecutionTree events = Some tree
                         ∧ message_throws structure st tree)
            ∧ (AssistantMessage structure st events = Some StreamingCursor
               ↔ events = [])
            ∧ ∀ view, AssistantMessage structure st events = Some view →
                      view ≠ StreamingCursor →
                      ∃ tree, buildExecutionTree events = Some tree
                              ∧ renderRoots (length tree) st tree
                                = Some match view with
                                       | ExecutionRows rows => rows
                                       | StreamingCursor => []
                                       end) as Hview.
  { intros events. unfold AssistantMessage, message_throws.
    destruct (buildExecutionTree events) as [tree|] eqn:Hb; simpl.
    - destruct (renderRoots_returns events tree st Hb) as [rows Hrows].
      destruct events as [|e events].
      + split; [|split; [done|]].
        * split; [done|]. intros [?|(tree' & [= <-] & H)]; [done|].
          destruct H as (rows' & depth & r & m & d & ex & Hr & Hin & _).
          vm_compute in Hb. injection Hb as <-.
          vm_compute in Hr. injection Hr as <-.
          by apply elem_of_nil in Hin.
        * by intros view [= <-] ?.
      + rewrite Hrows. simpl.
        destruct (forallb (row_renders structure) rows) eqn:Hall.
        * split; [|split].
          -- split; [done|]. intros [?|(tree' & [= <-] & H)]; [done|].
             destruct H as (rows' & depth & r & m & d & ex & Hr & Hin & Hn).
             assert (rows' = rows) as -> by congruence.
             assert (forallb (row_renders structure) rows = false) as Hf
               by (apply forallb_row_renders; by exists depth, r, m, d, ex).
             congruence.
          -- split; done.
          -- intros view [= <-] _. by exists tree.
        * split; [|split].
          -- split; [|done]. intros _. right. exists tree. split; [done|].
             apply forallb_row_renders in Hall
               as (depth & r & m & d & ex & Hin & Hn).
             by exists rows, depth, r, m, d, ex.
          -- split; done.
          -- done.
    - split; [|split].
      + split; [by left | done].
      + split; [done|]. intros ->. done.
      + done. }
  assert (∀ events,
            AssistantMessage structure st events = Some StreamingCursor
            ↔ events = []) as Hcursor by (intros events; apply Hview).
  split; [apply Hview|]. split; [|split].
  - rewrite <- deliver_nil. apply Hcursor.
  - intros more Hnot Hcur. apply Hnot.
    apply Hcursor. apply Hcursor in Hcur. apply deliver_nil in Hcur.
    apply deliver_nil. apply Forall_app in Hcur. tauto.
  - apply Hview.
Qed.

End WholeComponentFacts.

Lemma assistant_message_view_witness :
  AssistantMessage table_structure initial_view
    (deliver [] ([None; Some thinking_chunk] ++ [None; Some content_chunk]))
  ≠ Some StreamingCursor
  ∧ is_Some (buildExecutionTree (deliver [] (Some <$> malformed_table)))
  ∧ AssistantMessage table_structure initial_view
      (deliver [] (Some <$> malformed_table)) = None.
Proof.
  split; [|split].
  - apply (proj1 (proj2 (proj2 (assistant_message_view table_structure
                                  [None; Some thinking_chunk]
                                  initial_view)))).
    intros H. vm_compute in H. discriminate H.
  - eexists. vm_compute. reflexivity.
  - apply (proj1 (assistant_message_view table_structure
                    (Some <$> malformed_table) initial_view)).
    right. eexists. split; [vm_compute; reflexivity|].
    eexists _, 0, "A", "m1", _, true.
    split; [vm_compute; reflexivity|]. split; [by left|].
    vm_compute. reflexivity.
Defined.
